(** * geoapify-go: the request executor and its retry policy

    A shallow embedding of the request-execution core of the client
    ([client.go], [retry.go], the [APIError] file) and of the batch-result
    decoder of [map_matching.go], with the properties of the specification
    stated and proved over it.

    Conventions.
    - Go's [int] and [time.Duration] are 64-bit integers: they are [Z], and
      the one multiplication that can leave the range is wrapped by [wrap64].
    - A Go [string] is a sequence of bytes: it is [string]; a [[]byte] is a
      [list byte], and [string(b)] is [string_of_list_byte].
    - A [float64] is an IEEE 754 binary64 number, [spec_float] of the
      Standard Library with 53 bits of precision: the conversions, the
      products and the sum of [calculateDelay] round to nearest, ties to
      even, and overflow to an infinity or give NaN as the hardware does.
      The conversion of a float64 that int64 cannot hold is left open by the
      language: its result is an input of the model.
    - The Go standard library is not part of the repository.  [strconv.Atoi],
      [url.QueryEscape] and [json.Unmarshal] into the two string fields of
      the error body are written out after their documentation; the other
      uses of [encoding/json], the HTTP transport, the context and the
      random source are inputs of the model. *)

From Stdlib Require Import ZArith NArith QArith Qpower Qround Qminmax Lia Lqa.
From Stdlib Require Import Bool List Ascii String DecimalString.
From Stdlib Require Import Floats.SpecFloat.
From stdpp Require Import base option list sorting gmap strings.
Import ListNotations.

Local Open Scope string_scope.
Local Open Scope Z_scope.

Local Abbreviation byte := Byte.byte.

(** ** Pieces of the Go standard library *)

Module Go.

(** [int64] wrap-around of a mathematical integer. *)
Definition wrap64 (z : Z) : Z := (z + 2 ^ 63) mod 2 ^ 64 - 2 ^ 63.

Definition minInt64 : Z := - 2 ^ 63.
Definition maxInt64 : Z := 2 ^ 63 - 1.

(** *** strconv.Atoi *)

Definition digit_of (c : ascii) : option Z :=
  let n := Z.of_N (N_of_ascii c) in
  if (48 <=? n) && (n <=? 57) then Some (n - 48) else None.

(** The digits of [s] read in base 10, most significant first; [None] on
    any other byte. *)
Fixpoint digits (acc : Z) (s : string) : option Z :=
  match s with
  | EmptyString => Some acc
  | String c s' =>
      match digit_of c with
      | Some d => digits (acc * 10 + d) s'
      | None => None
      end
  end.

(** [strconv.Atoi]: an optional sign, then one or more decimal digits;
    [None] stands for a syntax error or a value out of the [int] range. *)
Definition Atoi (s : string) : option Z :=
  let signed (neg : bool) (body : string) : option Z :=
    match body with
    | EmptyString => None
    | _ =>
        match digits 0 body with
        | Some n =>
            let v := if neg then - n else n in
            if (minInt64 <=? v) && (v <=? maxInt64) then Some v else None
        | None => None
        end
    end in
  match s with
  | EmptyString => None
  | String "-" s' => signed true s'
  | String "+" s' => signed false s'
  | _ => signed false s
  end.

(** *** url.QueryEscape *)

Definition is_unreserved (c : ascii) : bool :=
  let n := Z.of_N (N_of_ascii c) in
  ((48 <=? n) && (n <=? 57)) || ((65 <=? n) && (n <=? 90))
  || ((97 <=? n) && (n <=? 122))
  || (n =? 45) || (n =? 95) || (n =? 46) || (n =? 126).

Definition hex_digit (n : N) : ascii :=
  ascii_of_N (if (n <? 10)%N then 48 + n else 55 + n).

Definition escape_byte (c : ascii) : string :=
  if is_unreserved c then String c EmptyString
  else if Ascii.eqb c " " then "+"
  else let n := N_of_ascii c in
       String "%" (String (hex_digit (n / 16)) (String (hex_digit (n mod 16)) EmptyString)).

Fixpoint QueryEscape (s : string) : string :=
  match s with
  | EmptyString => EmptyString
  | String c s' => escape_byte c ++ QueryEscape s'
  end.

(** *** strings.Join, as [url.Values.Encode] writes its buffer *)
Fixpoint join (sep : string) (l : list string) : string :=
  match l with
  | [] => ""
  | [x] => x
  | x :: l' => x ++ sep ++ join sep l'
  end.

(** *** float64

    IEEE 754 binary64 as the Standard Library specifies it: [spec_float]
    with 53 bits of precision and exponents below 1024.  Every operation
    gives the exact result rounded to nearest, ties to even. *)
Definition float64 : Type := spec_float.

Definition fmul : float64 -> float64 -> float64 := SFmul 53 1024.
Definition fadd : float64 -> float64 -> float64 := SFadd 53 1024.

(** [x > y]: false when either is NaN. *)
Definition fgt (x y : float64) : bool := SFltb y x.

(** [float64(n)] for an [int] or a [time.Duration]. *)
Definition float64_of_int (n : Z) : float64 := binary_normalize 53 1024 n 0 false.

(** [math.Pow(2, float64(k))] for an [int] [k]: the power of two, exact as
    long as a float64 holds it, [+Inf] from 2^1024 on and 0 below 2^-1074. *)
Definition Pow2 (k : Z) : float64 := SFldexp 53 1024 (SFone 53 1024) k.

(** The constant [0.5]. *)
Definition half : float64 := S754_finite false 4503599627370496 (-53).

(** The rational number a finite float stands for (0 for the others). *)
Definition val (x : float64) : Q :=
  match x with
  | S754_finite s m e => (inject_Z (cond_Zopp s (Zpos m)) * Qpower 2 e)%Q
  | _ => 0%Q
  end.

(** The integer part of a finite float: its fraction is discarded. *)
Definition truncate (x : float64) : option Z :=
  match x with
  | S754_zero _ => Some 0
  | S754_finite s m e =>
      Some (cond_Zopp s (if 0 <=? e then Zpos m * 2 ^ e else Zpos m / 2 ^ (- e)))
  | _ => None
  end.

(** [int64(x)] and [time.Duration(x)] for a float64: the integer part when
    int64 holds it.  For the other values (a NaN, an infinity, a number out
    of range) the language leaves the result to the implementation:
    [indefinite] is what the platform answers (on amd64, MinInt64). *)
Definition int64_of_float64 (indefinite : float64 -> Z) (x : float64) : Z :=
  match truncate x with
  | Some z => if (minInt64 <=? z) && (z <=? maxInt64) then z else wrap64 (indefinite x)
  | None => wrap64 (indefinite x)
  end.

End Go.

(** ** encoding/json: the text of a JSON value

    The scanner and the parser of [encoding/json], written out after the
    grammar the package documents: [parse] gives the value a text stands
    for, or [None] where [json.Unmarshal] reports a syntax error. *)

Module Json.

(** A JSON text as [encoding/json] reads it.  A number keeps no value
    here: the struct it is decoded into has string fields only. *)
#[local] Unset Elimination Schemes.
Inductive value :=
| JNull
| JBool (b : bool)
| JNumber
| JString (s : string)
| JArray (elems : list value)
| JObject (members : list (string * value)).
#[local] Set Elimination Schemes.

(** ** Strings: escapes and UTF-8 *)

Definition code (c : ascii) : N := N_of_ascii c.

Definition hexval (c : ascii) : option N :=
  let n := code c in
  if ((48 <=? n) && (n <=? 57))%N then Some (n - 48)%N
  else if ((97 <=? n) && (n <=? 102))%N then Some (n - 87)%N
  else if ((65 <=? n) && (n <=? 70))%N then Some (n - 55)%N
  else None.

Definition hex4 (a b c d : ascii) : option N :=
  match hexval a, hexval b, hexval c, hexval d with
  | Some x, Some y, Some z, Some w => Some (((x * 16 + y) * 16 + z) * 16 + w)%N
  | _, _, _, _ => None
  end.

Definition byte_of (n : N) : ascii := ascii_of_N n.

(** [utf8.EncodeRune] for a code point that is not a surrogate. *)
Definition encodeRune (r : N) : string :=
  if (r <? 128)%N then String (byte_of r) ""
  else if (r <? 2048)%N then
    String (byte_of (192 + r / 64)) (String (byte_of (128 + r mod 64)) "")
  else if (r <? 65536)%N then
    String (byte_of (224 + r / 4096))
      (String (byte_of (128 + (r / 64) mod 64)) (String (byte_of (128 + r mod 64)) ""))
  else
    String (byte_of (240 + r / 262144))
      (String (byte_of (128 + (r / 4096) mod 64))
         (String (byte_of (128 + (r / 64) mod 64)) (String (byte_of (128 + r mod 64)) ""))).

(** U+FFFD, which replaces what cannot be decoded. *)
Definition replacement : string := encodeRune 65533.

Definition is_cont (c : ascii) : bool := ((128 <=? code c) && (code c <=? 191))%N.

Definition in_range (lo hi : N) (c : ascii) : bool := ((lo <=? code c) && (code c <=? hi))%N.

(** The number of bytes of the UTF-8 sequence [s] starts with, as
    [utf8.DecodeRune] accepts it; 0 when the first byte starts no valid
    sequence. *)
Definition utf8_width (s : string) : nat :=
  match s with
  | String c0 (String c1 rest) =>
      if in_range 194 223 c0 then (if is_cont c1 then 2 else 0)
      else
        match rest with
        | String c2 rest' =>
            let second3 :=
              if N.eqb (code c0) 224 then in_range 160 191 c1
              else if N.eqb (code c0) 237 then in_range 128 159 c1
              else is_cont c1 in
            if in_range 224 239 c0 then (if second3 && is_cont c2 then 3 else 0)
            else
              match rest' with
              | String c3 _ =>
                  let second4 :=
                    if N.eqb (code c0) 240 then in_range 144 191 c1
                    else if N.eqb (code c0) 244 then in_range 128 143 c1
                    else is_cont c1 in
                  if in_range 240 244 c0
                  then (if second4 && is_cont c2 && is_cont c3 then 4 else 0)
                  else 0
              | _ => 0
              end
        | _ => 0
        end
  | _ => 0
  end%nat.

(** The body of a string literal with its escapes replaced and its bytes
    made valid UTF-8, as [unquote] leaves it.  The scanner has accepted the
    literal: an escape it would refuse is skipped here. *)
Fixpoint unquote (s : string) : string :=
  match s with
  | "" => ""
  | String c rest =>
      if Ascii.eqb c "\" then
        match rest with
        | String e rest1 =>
            if Ascii.eqb e "u" then
              match rest1 with
              | String h1 (String h2 (String h3 (String h4 rest2))) =>
                  match hex4 h1 h2 h3 h4 with
                  | Some r =>
                      if ((55296 <=? r) && (r <? 57344))%N then
                        (* a surrogate: a pair with the escape that follows,
                           or the replacement character *)
                        match rest2 with
                        | String b (String u (String g1 (String g2 (String g3 (String g4 rest3))))) =>
                            match (if Ascii.eqb b "\" && Ascii.eqb u "u"
                                   then hex4 g1 g2 g3 g4 else None) with
                            | Some r2 =>
                                if ((r <? 56320) && (56320 <=? r2) && (r2 <? 57344))%N
                                then encodeRune (65536 + (r - 55296) * 1024 + (r2 - 56320))
                                       ++ unquote rest3
                                else replacement ++ unquote rest2
                            | None => replacement ++ unquote rest2
                            end
                        | _ => replacement ++ unquote rest2
                        end
                      else encodeRune r ++ unquote rest2
                  | None => unquote rest2
                  end
              | _ => ""
              end
            else
              let plain (x : ascii) := String x (unquote rest1) in
              if Ascii.eqb e "b" then plain (byte_of 8)
              else if Ascii.eqb e "f" then plain (byte_of 12)
              else if Ascii.eqb e "n" then plain (byte_of 10)
              else if Ascii.eqb e "r" then plain (byte_of 13)
              else if Ascii.eqb e "t" then plain (byte_of 9)
              else plain e
        | "" => ""
        end
      else if (code c <? 128)%N then String c (unquote rest)
      else
        match utf8_width s, rest with
        | 2%nat, String c1 rest2 => String c (String c1 (unquote rest2))
        | 3%nat, String c1 (String c2 rest3) =>
            String c (String c1 (String c2 (unquote rest3)))
        | 4%nat, String c1 (String c2 (String c3 rest4)) =>
            String c (String c1 (String c2 (String c3 (unquote rest4))))
        | _, _ => replacement ++ unquote rest
        end
  end.


(** ** The scanner: tokens *)

Inductive token :=
| TLBrace | TRBrace | TLBracket | TRBracket | TColon | TComma
| TString (s : string) | TNumber | TTrue | TFalse | TNull.

(** Where the scanner is inside a number. *)
Inductive numstate :=
| NNeg | NZero | NInt | NDot | NFrac | NExp | NExpSign | NExpDigits.

Inductive lexstate :=
| LIdle
| LString (rev_raw : list ascii)
| LEscape (rev_raw : list ascii)
| LUnicode (rev_raw : list ascii) (pending : nat)
| LNumber (st : numstate)
| LLiteral (rest : string) (t : token).

Definition is_space (c : ascii) : bool :=
  Ascii.eqb c " " || N.eqb (code c) 9 || N.eqb (code c) 10 || N.eqb (code c) 13.

Definition is_digit (c : ascii) : bool := in_range 48 57 c.
Definition is_digit19 (c : ascii) : bool := in_range 49 57 c.

Definition string_of_rev (rev_raw : list ascii) : string :=
  string_of_list_ascii (rev rev_raw).

(** A byte between two tokens. *)
Definition idle_step (c : ascii) : option (lexstate * list token) :=
  if is_space c then Some (LIdle, [])
  else if Ascii.eqb c "{" then Some (LIdle, [TLBrace])
  else if Ascii.eqb c "}" then Some (LIdle, [TRBrace])
  else if Ascii.eqb c "[" then Some (LIdle, [TLBracket])
  else if Ascii.eqb c "]" then Some (LIdle, [TRBracket])
  else if Ascii.eqb c ":" then Some (LIdle, [TColon])
  else if Ascii.eqb c "," then Some (LIdle, [TComma])
  else if N.eqb (code c) 34 then Some (LString [], [])
  else if Ascii.eqb c "-" then Some (LNumber NNeg, [])
  else if Ascii.eqb c "0" then Some (LNumber NZero, [])
  else if is_digit19 c then Some (LNumber NInt, [])
  else if Ascii.eqb c "t" then Some (LLiteral "rue" TTrue, [])
  else if Ascii.eqb c "f" then Some (LLiteral "alse" TFalse, [])
  else if Ascii.eqb c "n" then Some (LLiteral "ull" TNull, [])
  else None.

(** A byte inside a number: the next state, [None] when the byte cannot
    follow, and whether the number may end before the byte. *)
Definition number_step (st : numstate) (c : ascii) : option numstate :=
  let is_e := Ascii.eqb c "e" || Ascii.eqb c "E" in
  match st with
  | NNeg => if Ascii.eqb c "0" then Some NZero
            else if is_digit19 c then Some NInt else None
  | NZero => if Ascii.eqb c "." then Some NDot else if is_e then Some NExp else None
  | NInt => if is_digit c then Some NInt
            else if Ascii.eqb c "." then Some NDot else if is_e then Some NExp else None
  | NDot => if is_digit c then Some NFrac else None
  | NFrac => if is_digit c then Some NFrac else if is_e then Some NExp else None
  | NExp => if Ascii.eqb c "+" || Ascii.eqb c "-" then Some NExpSign
            else if is_digit c then Some NExpDigits else None
  | NExpSign => if is_digit c then Some NExpDigits else None
  | NExpDigits => if is_digit c then Some NExpDigits else None
  end.

Definition number_complete (st : numstate) : bool :=
  match st with
  | NZero | NInt | NFrac | NExpDigits => true
  | _ => false
  end.

Definition is_escape (c : ascii) : bool :=
  N.eqb (code c) 34 || Ascii.eqb c "\" || Ascii.eqb c "/" || Ascii.eqb c "b"
  || Ascii.eqb c "f" || Ascii.eqb c "n" || Ascii.eqb c "r" || Ascii.eqb c "t".

Definition lex_step (st : lexstate) (c : ascii) : option (lexstate * list token) :=
  match st with
  | LIdle => idle_step c
  | LString raw =>
      if N.eqb (code c) 34 then Some (LIdle, [TString (unquote (string_of_rev raw))])
      else if Ascii.eqb c "\" then Some (LEscape (c :: raw), [])
      else if (code c <? 32)%N then None
      else Some (LString (c :: raw), [])
  | LEscape raw =>
      if is_escape c then Some (LString (c :: raw), [])
      else if Ascii.eqb c "u" then Some (LUnicode (c :: raw) 4, [])
      else None
  | LUnicode raw pending =>
      match hexval c, pending with
      | Some _, S O => Some (LString (c :: raw), [])
      | Some _, S pending1 => Some (LUnicode (c :: raw) pending1, [])
      | _, _ => None
      end
  | LNumber n =>
      match number_step n c with
      | Some n' => Some (LNumber n', [])
      | None =>
          if number_complete n then
            match idle_step c with
            | Some (st', toks) => Some (st', TNumber :: toks)
            | None => None
            end
          else None
      end
  | LLiteral rest t =>
      match rest with
      | String x rest' =>
          if Ascii.eqb c x
          then (match rest' with
                | "" => Some (LIdle, [t])
                | _ => Some (LLiteral rest' t, [])
                end)
          else None
      | "" => None
      end
  end.

Fixpoint lex_from (st : lexstate) (s : string) : option (list token) :=
  match s with
  | "" =>
      match st with
      | LIdle => Some []
      | LNumber n => if number_complete n then Some [TNumber] else None
      | _ => None
      end
  | String c rest =>
      match lex_step st c with
      | Some (st', toks) =>
          match lex_from st' rest with
          | Some more => Some (toks ++ more)%list
          | None => None
          end
      | None => None
      end
  end.

Definition lex (s : string) : option (list token) := lex_from LIdle s.

(** ** The parser: values *)

(** An array or an object that is still open. *)
Inductive frame :=
| FArray (rev_elems : list value)
| FObject (rev_members : list (string * value)) (key : option string).

Inductive expect :=
| ExpValue | ExpValueOrEnd | ExpKeyOrEnd | ExpKey | ExpColon | ExpCommaOrEnd
| Done (v : value).

Definition maxNestingDepth : N := 10000.

(** A value is complete: it is the text, or it goes into the innermost
    open array or object. *)
Definition complete (v : value) (stack : list frame) : option (expect * list frame) :=
  match stack with
  | [] => Some (Done v, [])
  | FArray elems :: stack' => Some (ExpCommaOrEnd, FArray (v :: elems) :: stack')
  | FObject ms (Some k) :: stack' =>
      Some (ExpCommaOrEnd, FObject ((k, v) :: ms) None :: stack')
  | FObject _ None :: _ => None
  end.

Definition open (f : frame) (stack : list frame) : option (list frame) :=
  if (maxNestingDepth <? N.of_nat (S (List.length stack)))%N then None
  else Some (f :: stack).

Definition parse_step (e : expect) (stack : list frame) (t : token)
    : option (expect * list frame) :=
  let value_start :=
    match t with
    | TString s => complete (JString s) stack
    | TNumber => complete JNumber stack
    | TTrue => complete (JBool true) stack
    | TFalse => complete (JBool false) stack
    | TNull => complete JNull stack
    | TLBracket =>
        match open (FArray []) stack with
        | Some stack' => Some (ExpValueOrEnd, stack')
        | None => None
        end
    | TLBrace =>
        match open (FObject [] None) stack with
        | Some stack' => Some (ExpKeyOrEnd, stack')
        | None => None
        end
    | _ => None
    end in
  let close_array :=
    match stack with
    | FArray elems :: stack' => complete (JArray (rev elems)) stack'
    | _ => None
    end in
  let close_object :=
    match stack with
    | FObject ms None :: stack' => complete (JObject (rev ms)) stack'
    | _ => None
    end in
  let key :=
    match t, stack with
    | TString k, FObject ms None :: stack' => Some (ExpColon, FObject ms (Some k) :: stack')
    | _, _ => None
    end in
  match e with
  | ExpValue => value_start
  | ExpValueOrEnd => match t with TRBracket => close_array | _ => value_start end
  | ExpKeyOrEnd => match t with TRBrace => close_object | _ => key end
  | ExpKey => key
  | ExpColon => match t with TColon => Some (ExpValue, stack) | _ => None end
  | ExpCommaOrEnd =>
      match t, stack with
      | TComma, FArray _ :: _ => Some (ExpValue, stack)
      | TComma, FObject _ None :: _ => Some (ExpKey, stack)
      | TRBracket, _ => close_array
      | TRBrace, _ => close_object
      | _, _ => None
      end
  | Done _ => None
  end.

Fixpoint parse_tokens (e : expect) (stack : list frame) (toks : list token)
    : option value :=
  match toks with
  | [] => match e with Done v => Some v | _ => None end
  | t :: toks' =>
      match parse_step e stack t with
      | Some (e', stack') => parse_tokens e' stack' toks'
      | None => None
      end
  end.

(** A JSON text, or [None] where [encoding/json] reports a syntax error. *)
Definition parse (s : string) : option value :=
  match lex s with
  | Some toks => parse_tokens ExpValue [] toks
  | None => None
  end.



(** ** Field names *)

(** [foldName] on a key, as far as a comparison with the folded name of a
    field of ASCII letters can tell: ASCII letters are put in upper case, the
    long s (U+017F) folds to S and the Kelvin sign (U+212A) to K; every other
    rune folds to a rune outside ASCII and is left as it is. *)
Fixpoint foldName (s : string) : string :=
  match s with
  | "" => ""
  | String c rest =>
      if in_range 97 122 c then String (byte_of (code c - 32)) (foldName rest)
      else
        match rest with
        | String c1 rest1 =>
            if N.eqb (code c) 197 && N.eqb (code c1) 191 then String "S" (foldName rest1)
            else
              match rest1 with
              | String c2 rest2 =>
                  if N.eqb (code c) 226 && N.eqb (code c1) 132 && N.eqb (code c2) 170
                  then String "K" (foldName rest2)
                  else String c (foldName rest)
              | "" => String c (foldName rest)
              end
        | "" => String c ""
        end
  end.

(** The key of a member names the field: exactly, or up to case. *)
Definition names (key field : string) : bool :=
  String.eqb key field || String.eqb (foldName key) (foldName field).

End Json.

(** ** The error values of the package *)

(** [APIError] of the errors file. *)
Record APIError := mkAPIError {
  StatusCode : Z;
  Message : string;
  RawBody : list byte;
}.

(** The Go [error] values the executor can return: an [*APIError], an
    error of a library (transport, [io], [encoding/json]) wrapped by
    [fmt.Errorf("<phase>: %w", err)], or the error of the context. *)
Inductive lib_error := LibError (what : string).

Inductive ctx_error := Canceled | DeadlineExceeded.

Inductive error :=
| ErrAPI (e : APIError)
| ErrWrapped (phase : string) (cause : lib_error)
| ErrContext (e : ctx_error).

Definition is_api_error (e : error) : bool :=
  match e with ErrAPI _ => true | _ => false end.

(** The anonymous struct [newAPIError] decodes the body into. *)
Record errResp := mkErrResp {
  errResp_Message : string;
  errResp_Error : string;
}.

Definition zeroErrResp : errResp := {| errResp_Message := ""; errResp_Error := "" |}.

(** What [json.Unmarshal] does with a member that goes to a string field:
    a string is stored, [null] leaves the field as it is, anything else is
    a type error, which the decoder remembers while it goes on. *)
Definition storeString (cur : string) (v : Json.value) : string * bool :=
  match v with
  | Json.JString s => (s, false)
  | Json.JNull => (cur, false)
  | _ => (cur, true)
  end.

(** The members of the object, in their order, into the struct: a member
    goes to the field its key names (tags [message] and [error]), the others
    are skipped.  The boolean tells whether a type error was met. *)
Fixpoint decodeMembers (ms : list (string * Json.value)) (p : errResp) (bad : bool)
    : errResp * bool :=
  match ms with
  | [] => (p, bad)
  | (k, v) :: ms' =>
      if Json.names k "message" then
        let '(s, e) := storeString (errResp_Message p) v in
        decodeMembers ms' {| errResp_Message := s; errResp_Error := errResp_Error p |}
          (bad || e)
      else if Json.names k "error" then
        let '(s, e) := storeString (errResp_Error p) v in
        decodeMembers ms' {| errResp_Message := errResp_Message p; errResp_Error := s |}
          (bad || e)
      else decodeMembers ms' p bad
  end.

(** [json.Unmarshal(body, &errResp)]: a text that is not valid JSON is a
    syntax error and leaves the struct untouched; an object fills the
    fields; [null] does nothing; any other value is a type error. *)
Definition json_Unmarshal_errResp (body : list byte) : errResp * option lib_error :=
  match Json.parse (string_of_list_byte body) with
  | None => (zeroErrResp, Some (LibError "json: syntax error"))
  | Some (Json.JObject ms) =>
      let '(p, bad) := decodeMembers ms zeroErrResp false in
      (p, if bad then Some (LibError "json: cannot unmarshal into Go struct field")
          else None)
  | Some Json.JNull => (zeroErrResp, None)
  | Some _ => (zeroErrResp, Some (LibError "json: cannot unmarshal into Go value"))
  end.


(** ** retry.go: configuration, hint and delay *)

Record retryConfig := mkRetryConfig {
  maxRetries : Z;
  initialDelay : Z;      (* time.Duration, in nanoseconds *)
  maxDelay : Z;
}.

Record retryHint := mkRetryHint {
  retryAfter : string;
}.

Definition Second : Z := 1000000000.
Definition Millisecond : Z := 1000000.

(** The exponential branch of [calculateDelay], in float64 as the code
    computes it: the backoff and its cap, ... *)
Definition backoffOf (r : retryConfig) (attempt : Z) : Go.float64 :=
  let backoff := Go.fmul (Go.float64_of_int (initialDelay r)) (Go.Pow2 attempt) in
  if Go.fgt backoff (Go.float64_of_int (maxDelay r))
  then Go.float64_of_int (maxDelay r) else backoff.

(** ... the jitter, [u] being the value drawn by [rand.Float64()] ... *)
Definition jitterOf (r : retryConfig) (attempt : Z) (u : Go.float64) : Go.float64 :=
  Go.fmul (backoffOf r attempt) (Go.fadd Go.half (Go.fmul u Go.half)).

(** ... and the conversion [time.Duration(jitter)]. *)
Definition exponentialDelay (r : retryConfig) (attempt : Z) (u : Go.float64)
    (indefinite : Go.float64 -> Z) : Z :=
  Go.int64_of_float64 indefinite (jitterOf r attempt u).

(** [retryConfig.calculateDelay]. *)
Definition calculateDelay (r : retryConfig) (attempt : Z)
    (hint : option retryHint) (u : Go.float64) (indefinite : Go.float64 -> Z) : Z :=
  let fallthrough := exponentialDelay r attempt u indefinite in
  match hint with
  | Some h =>
      if String.eqb (retryAfter h) "" then fallthrough
      else match Go.Atoi (retryAfter h) with
           | Some seconds => Go.wrap64 (seconds * Second)
           | None => fallthrough
           end
  | None => fallthrough
  end.

(** [isRetryable] of client.go. *)
Definition isRetryable (statusCode : Z) : bool :=
  (statusCode =? 429) || (500 <=? statusCode).

(** ** client.go: the client and the dispatch of one request *)

Record Client := mkClient {
  apiKey : string;
  baseURL : string;
  retry : option retryConfig;
}.

(** What [httpClient.Do] hands back when it succeeds: the status code, the
    value of [resp.Header.Get("Retry-After")] (empty when the header is
    absent) and the outcome of [io.ReadAll(resp.Body)]. *)
Record Response := mkResponse {
  resp_StatusCode : Z;
  resp_RetryAfter : string;
  resp_Body : list byte;
  resp_ReadErr : option lib_error;
}.

(** The world around one logical call.  [server k] is the outcome of the
    [k]-th call of [httpClient.Do]; [ctx_done k] tells which branch the
    [select] after the [k]-th attempt takes ([Some e]: [ctx.Done()] fired and
    [ctx.Err()] is [e]; [None]: the timer fired); [rand k] is the value
    [rand.Float64()] returns in the [k]-th call of [calculateDelay];
    [indefinite] is what the platform makes of a float64 that
    [time.Duration] cannot hold. *)
Record Env := mkEnv {
  server : nat -> lib_error + Response;
  ctx_done : nat -> option ctx_error;
  rand : nat -> Go.float64;
  indefinite : Go.float64 -> Z;
}.

Section Executor.

(** [encoding/json]: decoding into the anonymous struct of [newAPIError]
    (from its zero value) and into the value [result] points to.  Both
    return the value as the decoder left it and the decoder's error. *)
Variable Target : Type.
Variable unmarshal_errResp : list byte -> errResp * option lib_error.
Variable unmarshal_target : list byte -> Target -> Target * option lib_error.

(** [newAPIError] of the errors file. *)
Definition newAPIError (statusCode : Z) (body : list byte) : APIError :=
  let '(parsed, err) := unmarshal_errResp body in
  let message :=
    match err with
    | None =>
        if negb (String.eqb (errResp_Message parsed) "") then errResp_Message parsed
        else if negb (String.eqb (errResp_Error parsed) "") then errResp_Error parsed
        else ""
    | Some _ => ""
    end in
  let message :=
    if String.eqb message "" then string_of_list_byte body else message in
  {| StatusCode := statusCode; Message := message; RawBody := body |}.

(** The error a dispatch answered by a non-2xx response becomes. *)
Definition apiErrorOf (o : lib_error + Response) : option error :=
  match o with
  | inr resp => Some (ErrAPI (newAPIError (resp_StatusCode resp) (resp_Body resp)))
  | inl _ => None
  end.

(** The state one logical call threads through its attempts: how many
    times the transport was called, the delays waited out so far (latest
    first) and the decode target ([None] when [result] is nil). *)
Record State := mkState {
  dispatched : nat;
  slept : list Z;
  target : option Target;
}.

Definition initial (result : option Target) : State :=
  {| dispatched := 0; slept := []; target := result |}.

Definition sent (st : State) : State :=
  {| dispatched := S (dispatched st); slept := slept st; target := target st |}.

Definition decoded (st : State) (t : Target) : State :=
  {| dispatched := dispatched st; slept := slept st; target := Some t |}.

Definition waited (st : State) (delay : Z) : State :=
  {| dispatched := dispatched st; slept := delay :: slept st; target := target st |}.

(** The decoding step shared by both closures of [do]. *)
Definition decodeInto (body : list byte) (st : State) : State * option error :=
  match target st with
  | Some t =>
      let '(t', err) := unmarshal_target body t in
      match err with
      | Some e => (decoded st t', Some (ErrWrapped "decoding response" e))
      | None => (decoded st t', None)
      end
  | None => (st, None)
  end.

(** The closure [execute] of [do]: one dispatch, no hint. *)
Definition execute (env : Env) (st : State) : State * option error :=
  let st1 := sent st in
  match server env (dispatched st) with
  | inl e => (st1, Some (ErrWrapped "executing request" e))
  | inr resp =>
      match resp_ReadErr resp with
      | Some e => (st1, Some (ErrWrapped "reading response" e))
      | None =>
          if (resp_StatusCode resp <? 200) || (300 <=? resp_StatusCode resp)
          then (st1, Some (ErrAPI (newAPIError (resp_StatusCode resp) (resp_Body resp))))
          else decodeInto (resp_Body resp) st1
      end
  end.

(** The closure [do] passes to the retry loop: one dispatch, with the
    hint of a retryable status. *)
Definition attemptWithHint (env : Env) (st : State)
    : State * option retryHint * option error :=
  let st1 := sent st in
  match server env (dispatched st) with
  | inl e => (st1, None, Some (ErrWrapped "executing request" e))
  | inr resp =>
      match resp_ReadErr resp with
      | Some e => (st1, None, Some (ErrWrapped "reading response" e))
      | None =>
          if (resp_StatusCode resp <? 200) || (300 <=? resp_StatusCode resp)
          then
            let apiErr := ErrAPI (newAPIError (resp_StatusCode resp) (resp_Body resp)) in
            if isRetryable (resp_StatusCode resp)
            then (st1, Some {| retryAfter := resp_RetryAfter resp |}, Some apiErr)
            else (st1, None, Some apiErr)
          else
            let '(st2, err) := decodeInto (resp_Body resp) st1 in (st2, None, err)
      end
  end.

(** [retryConfig.do]: the body of the [for attempt := range
    r.maxRetries + 1] loop, with [iters] iterations left.  The bound is an
    [int] sum: it wraps around for the one value MaxInt64. *)
Fixpoint retryLoop (r : retryConfig) (env : Env)
    (fn : State -> State * option retryHint * option error)
    (iters : nat) (attempt : nat) (lastErr : option error) (st : State)
    : State * option error :=
  match iters with
  | O => (st, lastErr)
  | S iters' =>
      let '(st1, hint, err) := fn st in
      match err with
      | None => (st1, None)
      | Some e =>
          match hint with
          | None => (st1, Some e)
          | Some h =>
              if Z.of_nat attempt =? maxRetries r then (st1, Some e)
              else
                let delay := calculateDelay r (Z.of_nat attempt) (Some h)
                               (rand env attempt) (indefinite env) in
                match ctx_done env attempt with
                | Some ce => (st1, Some (ErrContext ce))
                | None => retryLoop r env fn iters' (S attempt) (Some e) (waited st1 delay)
                end
          end
      end
  end.

Definition retryConfig_do (r : retryConfig) (env : Env)
    (fn : State -> State * option retryHint * option error) (st : State)
    : State * option error :=
  retryLoop r env fn (Z.to_nat (Go.wrap64 (maxRetries r + 1))) 0 None st.

(** [Client.do]. *)
Definition do (c : Client) (env : Env) (result : option Target)
    : State * option error :=
  match retry c with
  | Some r => retryConfig_do r env (attemptWithHint env) (initial result)
  | None => execute env (initial result)
  end.

End Executor.

Arguments dispatched {Target} _.
Arguments slept {Target} _.
Arguments target {Target} _.
Arguments initial {Target} _.
Arguments sent {Target} _.
Arguments decoded {Target} _ _.
Arguments waited {Target} _ _.
Arguments decodeInto {Target} _ _ _.
Arguments execute {Target} _ _ _ _.
Arguments attemptWithHint {Target} _ _ _ _.
Arguments retryLoop {Target} _ _ _ _ _ _ _.
Arguments retryConfig_do {Target} _ _ _ _.
Arguments do {Target} _ _ _ _ _.

(** ** client.go: building the request URL *)

(** [url.Values] is [map[string][]string]. *)
Abbreviation Values := (gmap string (list string)).

(** [Values.Set]: the key is bound to the one value, whatever it was bound
    to before. *)
Definition Values_Set (v : Values) (key value : string) : Values :=
  <[key := [value]]> v.

(** The keys of the map in the order [for k := range v] yields them: the
    Go runtime picks the order, [shuffle] stands for its choice. *)
Definition rangeKeys (shuffle : list string -> list string) (v : Values)
    : list string :=
  shuffle (elements (dom v)).

(** The pairs [Values.Encode] writes for one key: its values in their
    order. *)
Definition pairsOfKey (v : Values) (k : string) : list (string * string) :=
  (λ x, (k, x)) <$> default [] (v !! k).

(** The (key, value) pairs in the order [Values.Encode] writes them: the
    keys sorted by [slices.Sort], then the values of each key. *)
Definition sortedPairs (keys : list string) (v : Values) : list (string * string) :=
  merge_sort String.le keys ≫= pairsOfKey v.

(** The order of two pairs by their keys. *)
Definition keyLe (a b : string * string) : Prop := String.le a.1 b.1.

(** One parameter as it stands in a query string. *)
Definition encodePair (kv : string * string) : string :=
  (Go.QueryEscape kv.1 ++ "=" ++ Go.QueryEscape kv.2)%string.

(** One turn of the inner loop of [Values.Encode] on its buffer. *)
Definition writePair (buf : string) (kv : string * string) : string :=
  ((if String.eqb buf "" then buf else buf ++ "&") ++ encodePair kv)%string.

(** [Values.Encode]. *)
Definition Values_Encode (shuffle : list string -> list string) (v : Values)
    : string :=
  fold_left writePair (sortedPairs (rangeKeys shuffle v) v) "".

(** The parameters as [buildURL] leaves them: the caller's map (or a fresh
    one for nil) with [apiKey] set. *)
Definition withKey (c : Client) (params : option Values) : Values :=
  Values_Set (default ∅ params) "apiKey" (apiKey c).

(** The pairs of the query string of the request, in the order written. *)
Definition queryPairs (c : Client) (shuffle : list string -> list string)
    (params : option Values) : list (string * string) :=
  sortedPairs (rangeKeys shuffle (withKey c params)) (withKey c params).

Definition queryString (c : Client) (shuffle : list string -> list string)
    (params : option Values) : string :=
  Values_Encode shuffle (withKey c params).

(** [Client.buildURL].  It returns the URL; the second component is the
    caller's map after the call, which [params.Set] has written to. *)
Definition buildURL (c : Client) (shuffle : list string -> list string)
    (path : string) (params : option Values) : string * Values :=
  ((baseURL c ++ path ++ "?" ++ queryString c shuffle params)%string,
   withKey c params).

(** ** map_matching.go: the response of batch-result polling *)

Definition is_space (b : byte) : bool :=
  Byte.eqb b Byte.x20 || Byte.eqb b Byte.x09 || Byte.eqb b Byte.x0a
  || Byte.eqb b Byte.x0d.

(** [bytes_trimLeft]. *)
Fixpoint bytes_trimLeft (data : list byte) : list byte :=
  match data with
  | [] => []
  | b :: rest => if is_space b then bytes_trimLeft rest else data
  end.

(** A run of white space. *)
Definition spaces (ws : list byte) : Prop := Forall (fun b => is_space b = true) ws.

Section Batch.

(** The [Address] struct of the geocoding file; only its type matters. *)
Variable Address : Type.

(** [Results] is a slice: [None] is the nil slice. *)
Record BatchResultResponse := mkBatch {
  ID : string;
  Status : string;
  Results : option (list Address);
  Raw : list byte;
}.

Definition zeroBatch : BatchResultResponse :=
  {| ID := ""; Status := ""; Results := None; Raw := [] |}.

(** [encoding/json]: decoding into [&r.Results], and into a zero-valued
    [struct{ alias }], whose fields are those of [BatchResultResponse]. *)
Variable unmarshal_results :
  list byte -> option (list Address) -> option (list Address) * option lib_error.
Variable unmarshal_alias : list byte -> BatchResultResponse * option lib_error.

(** [BatchResultResponse.UnmarshalJSON]: the receiver after the call and
    the error returned. *)
Definition UnmarshalJSON (r : BatchResultResponse) (data : list byte)
    : BatchResultResponse * option lib_error :=
  let r1 := {| ID := ID r; Status := Status r; Results := Results r; Raw := data |} in
  match bytes_trimLeft data with
  | Byte.x5b :: _ =>
      let '(res, err) := unmarshal_results data (Results r1) in
      ({| ID := ID r1; Status := Status r1; Results := res; Raw := Raw r1 |}, err)
  | _ =>
      let '(obj, err) := unmarshal_alias data in
      match err with
      | Some e => (r1, Some e)
      | None =>
          ({| ID := ID obj; Status := Status obj; Results := Results r1; Raw := Raw r1 |},
           None)
      end
  end.

End Batch.

Arguments ID {Address} _.
Arguments Status {Address} _.
Arguments Results {Address} _.
Arguments Raw {Address} _.
Arguments zeroBatch {Address}.
Arguments UnmarshalJSON {Address} _ _ _ _.


(** ** Vocabulary of the retry policy *)

(** A dispatch outcome that is a retryable failure: a response was read
    and its status is one [isRetryable] accepts. *)
Definition retryableOutcome (o : lib_error + Response) : bool :=
  match o with
  | inl _ => false
  | inr resp =>
      match resp_ReadErr resp with
      | Some _ => false
      | None => isRetryable (resp_StatusCode resp)
      end
  end.

(** The number of consecutive retryable failures the server answers with
    from dispatch [from] on, counted up to [limit]. *)
Fixpoint leadingRetryable (env : Env) (from limit : nat) : nat :=
  match limit with
  | O => O
  | S limit' =>
      if retryableOutcome (server env from)
      then S (leadingRetryable env (S from) limit')
      else O
  end.

(** The 5xx class of HTTP status codes. *)
Definition is5xx (code : Z) : Prop := 500 <= code <= 599.

(** The capped backoff as the specification writes it:
    min(D * 2^k, maxDelay). *)
Definition cappedBackoff (r : retryConfig) (k : Z) : Q :=
  Qmin (inject_Z (initialDelay r) * Qpower 2 k) (inject_Z (maxDelay r)).

(** A retry-after text that reads as a non-negative integer. *)
Definition nonNegativeInteger (ra : string) : Prop :=
  exists n : Z, 0 <= n /\ Go.Atoi ra = Some n.

(** ** Vocabulary of the error body *)

(** The value the members of an object give the field [name], from [cur]:
    the string of the last member that names the field and holds a
    string. *)
Definition fieldFrom (name : string) (ms : list (string * Json.value)) (cur : string)
    : string :=
  fold_left (fun cur kv =>
               if Json.names kv.1 name
               then match kv.2 with Json.JString s => s | _ => cur end
               else cur) ms cur.

Definition fieldOf (name : string) (ms : list (string * Json.value)) : string :=
  fieldFrom name ms "".

(** A member names one of the two fields and holds neither a string nor
    [null]. *)
Definition mistyped (ms : list (string * Json.value)) : bool :=
  existsb (fun kv =>
             (Json.names kv.1 "message" || Json.names kv.1 "error")
             && match kv.2 with Json.JString _ | Json.JNull => false | _ => true end) ms.

(** ** Vocabulary of float64 *)

(** A float that is zero or a positive finite number of the format. *)
Definition finite_nonneg (x : Go.float64) : Prop :=
  match x with
  | S754_zero _ => True
  | S754_finite false m e => bounded 53 1024 m e = true
  | _ => False
  end.

(** A value [rand.Float64] can return: a float of [0,1). *)
Definition unitInterval (u : Go.float64) : Prop :=
  finite_nonneg u /\ (Go.val u < 1)%Q.

(** The float made of a rounded mantissa [m1], at most 2^53, and its
    exponent. *)
Definition pack (s : bool) (m1 E : Z) : spec_float :=
  if m1 =? 0 then S754_zero s
  else if m1 =? 2 ^ 53 then
    (if E + 1 <=? 971 then S754_finite s 4503599627370496 (E + 1) else S754_infinity s)
  else if E <=? 971 then S754_finite s (Z.to_pos m1) E else S754_infinity s.

(** [r] is a rounding of the positive number [x]: it is of the format or
    the infinity, and it is on the same side of every float of the format
    as [x] is. *)
Definition rounds_to (x : Q) (r : Go.float64) : Prop :=
  (finite_nonneg r \/ r = S754_infinity false)
  /\ (forall my ey, bounded 53 1024 my ey = true ->
        (Go.val (S754_finite false my ey) <= x)%Q ->
        r = S754_infinity false \/ (Go.val (S754_finite false my ey) <= Go.val r)%Q)
  /\ (forall my ey, bounded 53 1024 my ey = true ->
        (x <= Go.val (S754_finite false my ey))%Q ->
        finite_nonneg r /\ (Go.val r <= Go.val (S754_finite false my ey))%Q).

(** The hint the closure of [do] builds from a dispatch outcome, and the
    delay the loop computes after attempt [i] from it. *)
Definition hintOf (o : lib_error + Response) : retryHint :=
  match o with
  | inr resp => {| retryAfter := resp_RetryAfter resp |}
  | inl _ => {| retryAfter := "" |}
  end.

Definition delayAfter (r : retryConfig) (env : Env) (i : nat) : Z :=
  calculateDelay r (Z.of_nat i) (Some (hintOf (server env i))) (rand env i)
    (indefinite env).

(** ** client.go: options and construction *)

(** [strings.TrimRight(s, cutset)] for a cutset of ASCII bytes: the longest
    run of bytes of the cutset at the end of [s] is removed. *)
Definition in_cutset (c : ascii) (cutset : string) : bool :=
  existsb (Ascii.eqb c) (list_ascii_of_string cutset).

Fixpoint TrimRight (s cutset : string) : string :=
  match s with
  | EmptyString => EmptyString
  | String c s' =>
      match TrimRight s' cutset with
      | EmptyString =>
          if in_cutset c cutset then EmptyString else String c EmptyString
      | t => String c t
      end
  end.

Definition defaultBaseURL : string := "https://api.geoapify.com".

(** [Option] is a function that updates the client it is given: here, the
    client after the call.  The
    HTTP client [WithHTTPClient] sets is the transport, an input of the
    model, so that option has no counterpart. *)
Definition Option : Type := Client -> Client.

(** [WithBaseURL]. *)
Definition WithBaseURL (url : string) : Option :=
  fun client =>
    {| apiKey := apiKey client; baseURL := TrimRight url "/"; retry := retry client |}.

(** [WithRetry] of retry.go. *)
Definition WithRetry (maxRetries initialDelay maxDelay : Z) : Option :=
  fun c =>
    {| apiKey := apiKey c; baseURL := baseURL c;
       retry := Some {| maxRetries := maxRetries; initialDelay := initialDelay;
                        maxDelay := maxDelay |} |}.

(** [NewClient]: the options are applied in the order given. *)
Definition NewClient (key : string) (opts : list Option) : Client :=
  fold_left (fun c opt => opt c) opts
    {| apiKey := key; baseURL := defaultBaseURL; retry := None |}.

(** The options the package offers on this model of the client. *)
Inductive packageOption : Option -> Prop :=
| option_base_url (url : string) : packageOption (WithBaseURL url)
| option_retry (m i d : Z) : packageOption (WithRetry m i d).

Definition isWithRetry (opt : Option) : Prop :=
  exists m i d, opt = WithRetry m i d.

(** The last byte of a string, if any. *)
Fixpoint lastByte (s : string) : option ascii :=
  match s with
  | EmptyString => None
  | String c EmptyString => Some c
  | String _ s' => lastByte s'
  end.

(** [n] slashes. *)
Fixpoint slashes (n : nat) : string :=
  match n with
  | O => EmptyString
  | S n' => String "/" (slashes n')
  end.

(** ** The errors file: [Error] and [IsAPIError] *)

(** The verb [%d] of [fmt] on an [int]. *)
Definition formatInt (n : Z) : string := NilZero.string_of_int (Z.to_int n).

(** [APIError.Error]. *)
Definition APIError_Error (e : APIError) : string :=
  if negb (String.eqb (Message e) "")
  then ("geoapify: API error " ++ formatInt (StatusCode e) ++ ": " ++ Message e)%string
  else ("geoapify: API error " ++ formatInt (StatusCode e))%string.

(** Error values as a caller of the package holds them: an [*APIError],
    an error wrapping another one with the verb [%w] of [fmt.Errorf], or an
    error of another type that wraps nothing. *)
Inductive goError :=
| EAPI (a : APIError)
| EWrap (text : string) (inner : goError)
| EOther (text : string).

(** The error value the executor's [error] is. *)
Definition errorValue (e : error) : goError :=
  match e with
  | ErrAPI a => EAPI a
  | ErrWrapped phase (LibError what) => EWrap phase (EOther what)
  | ErrContext Canceled => EOther "context canceled"
  | ErrContext DeadlineExceeded => EOther "context deadline exceeded"
  end.

(** [errors.As(err, &apiErr)] for a target of type [*APIError]: the chain
    of wrapped errors is walked from the outside. *)
Fixpoint errorsAs (e : goError) : option APIError :=
  match e with
  | EAPI a => Some a
  | EWrap _ inner => errorsAs inner
  | EOther _ => None
  end.

(** [IsAPIError]: [Some a] stands for [(a, true)], [None] for
    [(nil, false)]; a nil error is [None]. *)
Definition IsAPIError (err : option goError) : option APIError :=
  match err with
  | Some e => errorsAs e
  | None => None
  end.

(** [fmt.Errorf] with [%w], applied once per text, the first text
    outermost. *)
Definition wrapAll (texts : list string) (e : goError) : goError :=
  fold_right EWrap e texts.

(** ** client.go: [doGet] and [doPost] *)

(** The request handed to [do]: method, URL, the Content-Type header
    ([""] when not set) and the body, a reader over the JSON text:
    [req_Body] is what the reader still holds ([None]: no body). *)
Record Request := mkRequest {
  req_Method : string;
  req_URL : string;
  req_Body : option (list byte);
  req_ContentType : string;
}.

(** The world around [doGet] and [doPost]: what the transport answers to
    the [k]-th dispatch of a request and how many bytes of its body that
    dispatch reads, the context, the random source and the platform as in
    [Env], the order the runtime iterates over the parameters in, and the
    error, if any, of [http.NewRequestWithContext] for a method and a
    URL. *)
Record Wire := mkWire {
  roundTrip : Request -> nat -> lib_error + Response;
  bodyRead : Request -> nat -> nat;
  wire_done : nat -> option ctx_error;
  wire_rand : nat -> Go.float64;
  wire_indefinite : Go.float64 -> Z;
  wire_shuffle : list string -> list string;
  newRequestErr : string -> string -> option lib_error;
}.

(** The request after [n] bytes of its body were read. *)
Definition drained (n : nat) (req : Request) : Request :=
  {| req_Method := req_Method req; req_URL := req_URL req;
     req_Body := drop n <$> req_Body req; req_ContentType := req_ContentType req |}.

(** [do] hands the same [*http.Request] to every dispatch: the [k]-th one
    finds the body reader where the dispatches before it left it. *)
Fixpoint requestAt (w : Wire) (req : Request) (k : nat) : Request :=
  match k with
  | O => req
  | S k' => drained (bodyRead w (requestAt w req k') k') (requestAt w req k')
  end.

Definition envFor (w : Wire) (req : Request) : Env :=
  {| server := fun k => roundTrip w (requestAt w req k) k;
     ctx_done := wire_done w; rand := wire_rand w;
     indefinite := wire_indefinite w |}.

Section Calls.

Variable Target : Type.
Variable unmarshal_errResp : list byte -> errResp * option lib_error.
Variable unmarshal_target : list byte -> Target -> Target * option lib_error.

(** What a call leaves behind: the state and the error of [do], the
    caller's parameter map after the call (nil stays nil), and the request
    that was built, if one was. *)
Record Call := mkCall {
  call_state : State Target;
  call_err : option error;
  call_params : option Values;
  call_request : option Request;
}.

(** [Client.doGet]. *)
Definition doGet (c : Client) (w : Wire) (path : string) (params : option Values)
    (result : option Target) : Call :=
  let '(reqURL, written) := buildURL c (wire_shuffle w) path params in
  let after := (fun _ => written) <$> params in
  match newRequestErr w "GET" reqURL with
  | Some e =>
      {| call_state := initial result;
         call_err := Some (ErrWrapped "creating request" e);
         call_params := after; call_request := None |}
  | None =>
      let req := {| req_Method := "GET"; req_URL := reqURL;
                    req_Body := None; req_ContentType := "" |} in
      let '(st, err) := do unmarshal_errResp unmarshal_target c (envFor w req) result in
      {| call_state := st; call_err := err;
         call_params := after; call_request := Some req |}
  end.

(** [json.Marshal] of the body of a POST. *)
Variable Body : Type.
Variable json_Marshal : Body -> list byte * option lib_error.

(** [Client.doPost]. *)
Definition doPost (c : Client) (w : Wire) (path : string) (params : option Values)
    (body : Body) (result : option Target) : Call :=
  let '(reqURL, written) := buildURL c (wire_shuffle w) path params in
  let after := (fun _ => written) <$> params in
  let '(jsonBody, merr) := json_Marshal body in
  match merr with
  | Some e =>
      {| call_state := initial result;
         call_err := Some (ErrWrapped "marshaling request body" e);
         call_params := after; call_request := None |}
  | None =>
      match newRequestErr w "POST" reqURL with
      | Some e =>
          {| call_state := initial result;
             call_err := Some (ErrWrapped "creating request" e);
             call_params := after; call_request := None |}
      | None =>
          let req := {| req_Method := "POST"; req_URL := reqURL;
                        req_Body := Some jsonBody;
                        req_ContentType := "application/json" |} in
          let '(st, err) := do unmarshal_errResp unmarshal_target c (envFor w req) result in
          {| call_state := st; call_err := err;
             call_params := after; call_request := Some req |}
      end
  end.

End Calls.

Arguments call_state {Target} _.
Arguments call_err {Target} _.
Arguments call_params {Target} _.
Arguments call_request {Target} _.
Arguments doGet {Target} _ _ _ _ _ _ _.
Arguments doPost {Target} _ _ {Body} _ _ _ _ _ _ _.

(** A client whose policy, if it has one, has a budget that is not
    negative (and for which [maxRetries + 1] does not wrap around). *)
Definition soundPolicy (c : Client) : Prop :=
  match retry c with
  | Some r => 0 <= maxRetries r < Go.maxInt64
  | None => True
  end.

(** A client whose policy, if it has one, has a budget that is an
    [int]. *)
Definition typedPolicy (c : Client) : Prop :=
  match retry c with
  | Some r => Go.minInt64 <= maxRetries r <= Go.maxInt64
  | None => True
  end.

(** ** The batch geocoding builders *)

Record BatchGeocodingService := mkBatchGeocodingService {
  bgs_client : Client;
}.

(** [BatchResultRequest] and its builder methods. *)
Record BatchResultRequest := mkBatchResultRequest {
  brr_client : Client;
  brr_path : string;
  brr_jobID : string;
  brr_format : string;
}.

Definition GetForwardResult (s : BatchGeocodingService) (jobID : string)
    : BatchResultRequest :=
  {| brr_client := bgs_client s; brr_path := "/v1/batch/geocode/search";
     brr_jobID := jobID; brr_format := "" |}.

Definition GetReverseResult (s : BatchGeocodingService) (jobID : string)
    : BatchResultRequest :=
  {| brr_client := bgs_client s; brr_path := "/v1/batch/geocode/reverse";
     brr_jobID := jobID; brr_format := "" |}.

Definition BatchResultRequest_WithFormat (v : string) (r : BatchResultRequest)
    : BatchResultRequest :=
  {| brr_client := brr_client r; brr_path := brr_path r;
     brr_jobID := brr_jobID r; brr_format := v |}.

(** The parameters [BatchResultRequest.Do] builds. *)
Definition BatchResultRequest_params (r : BatchResultRequest) : Values :=
  let params := Values_Set ∅ "id" (brr_jobID r) in
  if negb (String.eqb (brr_format r) "")
  then Values_Set params "format" (brr_format r)
  else params.

(** [BatchForwardRequest] and its builder methods. *)
Record BatchForwardRequest := mkBatchForwardRequest {
  bfr_client : Client;
  bfr_addresses : list string;
  bfr_locType : string;
  bfr_lang : string;
  bfr_filters : list string;
  bfr_biases : list string;
}.

Definition SubmitForward (s : BatchGeocodingService) (addresses : list string)
    : BatchForwardRequest :=
  {| bfr_client := bgs_client s; bfr_addresses := addresses;
     bfr_locType := ""; bfr_lang := ""; bfr_filters := []; bfr_biases := [] |}.

Definition BatchForwardRequest_WithType (t : string) (r : BatchForwardRequest)
    : BatchForwardRequest :=
  {| bfr_client := bfr_client r; bfr_addresses := bfr_addresses r;
     bfr_locType := t; bfr_lang := bfr_lang r;
     bfr_filters := bfr_filters r; bfr_biases := bfr_biases r |}.

Definition BatchForwardRequest_WithLang (v : string) (r : BatchForwardRequest)
    : BatchForwardRequest :=
  {| bfr_client := bfr_client r; bfr_addresses := bfr_addresses r;
     bfr_locType := bfr_locType r; bfr_lang := v;
     bfr_filters := bfr_filters r; bfr_biases := bfr_biases r |}.

Definition BatchForwardRequest_WithFilter (filters : list string)
    (r : BatchForwardRequest) : BatchForwardRequest :=
  {| bfr_client := bfr_client r; bfr_addresses := bfr_addresses r;
     bfr_locType := bfr_locType r; bfr_lang := bfr_lang r;
     bfr_filters := (bfr_filters r ++ filters)%list; bfr_biases := bfr_biases r |}.

Definition BatchForwardRequest_WithBias (biases : list string)
    (r : BatchForwardRequest) : BatchForwardRequest :=
  {| bfr_client := bfr_client r; bfr_addresses := bfr_addresses r;
     bfr_locType := bfr_locType r; bfr_lang := bfr_lang r;
     bfr_filters := bfr_filters r; bfr_biases := (bfr_biases r ++ biases)%list |}.

(** The parameters [BatchForwardRequest.Do] builds. *)
Definition BatchForwardRequest_params (r : BatchForwardRequest) : Values :=
  let params : Values := ∅ in
  let params :=
    if negb (String.eqb (bfr_locType r) "")
    then Values_Set params "type" (bfr_locType r) else params in
  let params :=
    if negb (String.eqb (bfr_lang r) "")
    then Values_Set params "lang" (bfr_lang r) else params in
  let params :=
    if (0 <? length (bfr_filters r))%nat
    then Values_Set params "filter" (Go.join "|" (bfr_filters r)) else params in
  let params :=
    if (0 <? length (bfr_biases r))%nat
    then Values_Set params "bias" (Go.join "|" (bfr_biases r)) else params in
  params.

(** The calls a caller chains on the builder of a forward job. *)
Inductive forwardStep :=
| SetType (t : string)
| SetLang (v : string)
| AddFilter (filters : list string)
| AddBias (biases : list string).

Definition applyForwardStep (r : BatchForwardRequest) (s : forwardStep)
    : BatchForwardRequest :=
  match s with
  | SetType t => BatchForwardRequest_WithType t r
  | SetLang v => BatchForwardRequest_WithLang v r
  | AddFilter fs => BatchForwardRequest_WithFilter fs r
  | AddBias bs => BatchForwardRequest_WithBias bs r
  end.

(** All filters (biases) given along a chain of calls, in order, and the
    last type (language) set. *)
Definition filtersGiven (steps : list forwardStep) : list string :=
  concat (map (fun s => match s with AddFilter fs => fs | _ => [] end) steps).

Definition biasesGiven (steps : list forwardStep) : list string :=
  concat (map (fun s => match s with AddBias bs => bs | _ => [] end) steps).

Definition lastTypeSet (steps : list forwardStep) : string :=
  fold_left (fun acc s => match s with SetType t => t | _ => acc end) steps "".

Definition lastLangSet (steps : list forwardStep) : string :=
  fold_left (fun acc s => match s with SetLang v => v | _ => acc end) steps "".

Section BatchCalls.

Variable Target : Type.
Variable unmarshal_errResp : list byte -> errResp * option lib_error.
Variable unmarshal_target : list byte -> Target -> Target * option lib_error.

(** What a [Do] method returns from the call it made: a nil result with
    the error, or the result with a nil error. *)
Definition returned (call : Call Target) : option Target * option error :=
  match call_err call with
  | Some e => (None, Some e)
  | None => (target (call_state call), None)
  end.

(** The call of [doGet] in [BatchResultRequest.Do]; [zero] is the
    zero-valued response the method declares as the decode target. *)
Definition BatchResultRequest_call (r : BatchResultRequest) (w : Wire)
    (zero : Target) : Call Target :=
  doGet unmarshal_errResp unmarshal_target (brr_client r) w (brr_path r)
    (Some (BatchResultRequest_params r)) (Some zero).

(** [BatchResultRequest.Do]. *)
Definition BatchResultRequest_Do (r : BatchResultRequest) (w : Wire)
    (zero : Target) : option Target * option error :=
  returned (BatchResultRequest_call r w zero).

(** [json.Marshal] of the addresses, the body of a forward job. *)
Variable marshal_addresses : list string -> list byte * option lib_error.

(** The call of [doPost] in [BatchForwardRequest.Do]. *)
Definition BatchForwardRequest_call (r : BatchForwardRequest) (w : Wire)
    (zero : Target) : Call Target :=
  doPost unmarshal_errResp unmarshal_target marshal_addresses (bfr_client r) w
    "/v1/batch/geocode/search" (Some (BatchForwardRequest_params r))
    (bfr_addresses r) (Some zero).

(** [BatchForwardRequest.Do]. *)
Definition BatchForwardRequest_Do (r : BatchForwardRequest) (w : Wire)
    (zero : Target) : option Target * option error :=
  returned (BatchForwardRequest_call r w zero).

End BatchCalls.

Arguments returned {Target} _.
Arguments BatchResultRequest_call {Target} _ _ _ _ _.
Arguments BatchResultRequest_Do {Target} _ _ _ _ _.
Arguments BatchForwardRequest_call {Target} _ _ _ _ _ _.
Arguments BatchForwardRequest_Do {Target} _ _ _ _ _ _.

(** ** Fixtures: the servers and decoders of the test-suite *)

Module Fixtures.

(** The double quote, and the JSON object with one string field. *)
Definition dq : string := String (ascii_of_nat 34) EmptyString.

Definition json_field (k v : string) : string :=
  ("{" ++ dq ++ k ++ dq ++ ":" ++ dq ++ v ++ dq ++ "}")%string.

Definition body_of (s : string) : list byte := list_byte_of_string s.

Definition body_is (body : list byte) (s : string) : bool :=
  String.eqb (string_of_list_byte body) s.

(** The decoder of the error body. *)
Definition unmarshal_errResp : list byte -> errResp * option lib_error :=
  json_Unmarshal_errResp.

(** An error body whose [message] is a string and whose [error] is a
    number. *)
Definition body_mistyped : list byte :=
  body_of ("{" ++ dq ++ "message" ++ dq ++ ":" ++ dq ++ "m" ++ dq ++ ","
           ++ dq ++ "error" ++ dq ++ ":123}")%string.

(** The decode target of the end-to-end scenario: a struct with the one
    field [ok]. *)
Definition body_ok : list byte := body_of ("{" ++ dq ++ "ok" ++ dq ++ ":true}")%string.

Definition unmarshal_target (body : list byte) (t : bool) : bool * option lib_error :=
  if body_is body (string_of_list_byte body_ok) then (true, None)
  else (t, Some (LibError "invalid character")).

Definition respond (code : Z) (retry_after : string) (body : list byte)
    : lib_error + Response :=
  inr {| resp_StatusCode := code; resp_RetryAfter := retry_after;
         resp_Body := body; resp_ReadErr := None |}.

Definition never_cancelled : nat -> option ctx_error := fun _ => None.

(** A random source that always draws 0. *)
Definition no_jitter : nat -> Go.float64 := fun _ => S754_zero false.

(** The draw 0.25. *)
Definition quarter : Go.float64 := S754_finite false 4503599627370496 (-54).

(** The conversion of amd64: the integer indefinite value. *)
Definition amd64 : Go.float64 -> Z := fun _ => Go.minInt64.

(** The policy of the README: three retries, 500ms doubling up to 10s. *)
Definition readme : retryConfig :=
  {| maxRetries := 3; initialDelay := 500 * Millisecond; maxDelay := 10 * Second |}.

(** A server that answers every request the same way. *)
Definition always (code : Z) (body : list byte) : Env :=
  {| server := fun _ => respond code "" body;
     ctx_done := never_cancelled; rand := no_jitter; indefinite := amd64 |}.

(** 429 twice, then 200 with the body [body_ok]. *)
Definition flaky : Env :=
  {| server := fun k => if (k <? 2)%nat
                        then respond 429 "" (body_of "slow down")
                        else respond 200 "" body_ok;
     ctx_done := never_cancelled; rand := no_jitter; indefinite := amd64 |}.

(** Always 500, and the caller cancels during the wait after attempt [k]. *)
Definition cancelled_at (k : nat) : Env :=
  {| server := fun _ => respond 500 "" (body_of "boom");
     ctx_done := fun i => if (i =? k)%nat then Some Canceled else None;
     rand := no_jitter; indefinite := amd64 |}.

Definition policy (n : Z) : retryConfig :=
  {| maxRetries := n; initialDelay := 100 * Millisecond; maxDelay := 10 * Second |}.

Definition client (r : option retryConfig) : Client :=
  {| apiKey := "test-key"; baseURL := "https://api.example.com"; retry := r |}.

End Fixtures.

(** ** map_matching.go: the map matching builder *)

Section MapMatching.

(** [MapMatchingWaypoint]; only its type matters here. *)
Variable Waypoint : Type.

Record MapMatchingRequest := mkMapMatchingRequest {
  mmr_client : Client;
  mmr_waypoints : list Waypoint;
  mmr_mode : string;
}.

(** The body of the request, [mapMatchingBody]. *)
Record mapMatchingBody := mkMapMatchingBody {
  mmb_Mode : string;
  mmb_Waypoints : list Waypoint;
}.

(** [MapMatchingService.Match], for the service of a client. *)
Definition Match (client : Client) : MapMatchingRequest :=
  {| mmr_client := client; mmr_waypoints := []; mmr_mode := "" |}.

Definition MapMatchingRequest_Waypoints (waypoints : list Waypoint)
    (r : MapMatchingRequest) : MapMatchingRequest :=
  {| mmr_client := mmr_client r; mmr_waypoints := waypoints; mmr_mode := mmr_mode r |}.

Definition MapMatchingRequest_WithMode (mode : string) (r : MapMatchingRequest)
    : MapMatchingRequest :=
  {| mmr_client := mmr_client r; mmr_waypoints := mmr_waypoints r; mmr_mode := mode |}.

Variable Target : Type.
Variable unmarshal_errResp : list byte -> errResp * option lib_error.
Variable unmarshal_target : list byte -> Target -> Target * option lib_error.
Variable marshal_body : mapMatchingBody -> list byte * option lib_error.

(** The call of [doPost] in [MapMatchingRequest.Do]. *)
Definition MapMatchingRequest_call (r : MapMatchingRequest) (w : Wire)
    (zero : Target) : Call Target :=
  doPost unmarshal_errResp unmarshal_target marshal_body (mmr_client r) w
    "/v1/mapmatching" None
    {| mmb_Mode := mmr_mode r; mmb_Waypoints := mmr_waypoints r |} (Some zero).

(** [MapMatchingRequest.Do]. *)
Definition MapMatchingRequest_Do (r : MapMatchingRequest) (w : Wire)
    (zero : Target) : option Target * option error :=
  returned (MapMatchingRequest_call r w zero).

End MapMatching.

Arguments mmr_client {Waypoint} _.
Arguments mmr_waypoints {Waypoint} _.
Arguments mmr_mode {Waypoint} _.
Arguments mmb_Mode {Waypoint} _.
Arguments mmb_Waypoints {Waypoint} _.
Arguments Match {Waypoint} _.
Arguments MapMatchingRequest_Waypoints {Waypoint} _ _.
Arguments MapMatchingRequest_WithMode {Waypoint} _ _.
Arguments MapMatchingRequest_call {Waypoint Target} _ _ _ _ _ _.
Arguments MapMatchingRequest_Do {Waypoint Target} _ _ _ _ _ _.

(** The pair a key contributes to a query string when its value is set. *)
Definition optionalPair (k v : string) (set : bool) : list (string * string) :=
  if set then [(k, v)] else [].

(** ** Samples for the builders *)

Module Samples.

Definition service : BatchGeocodingService :=
  {| bgs_client := Fixtures.client None |}.

(** A transport that reads the body it sends and answers 200 with the
    body [Fixtures.body_ok] to every request, and a runtime that iterates in
    the order of the keys. *)
Definition wire : Wire :=
  {| roundTrip := fun _ _ => Fixtures.respond 200 "" Fixtures.body_ok;
     bodyRead := fun req _ => List.length (default [] (req_Body req));
     wire_done := Fixtures.never_cancelled;
     wire_rand := Fixtures.no_jitter;
     wire_indefinite := Fixtures.amd64;
     wire_shuffle := fun l => l;
     newRequestErr := fun _ _ => None |}.

(** [json.Marshal] on a list of plain strings (no byte that JSON escapes). *)
Definition marshal_addresses (addresses : list string) : list byte * option lib_error :=
  (Fixtures.body_of
     ("[" ++ Go.join "," (map (fun a => Fixtures.dq ++ a ++ Fixtures.dq) addresses) ++ "]")%string,
   None).

(** A waypoint reduced to its timestamp, and [json.Marshal] on the body of
    a map matching request reduced to its mode. *)
Definition marshal_mode (b : mapMatchingBody string) : list byte * option lib_error :=
  (Fixtures.body_of (Fixtures.json_field "mode" (mmb_Mode b)), None).

End Samples.

(** * Properties *)

(** ** 64-bit integers *)

Lemma wrap64_in_range (z : Z) :
  Go.minInt64 <= z <= Go.maxInt64 -> Go.wrap64 z = z.
Proof.
  unfold Go.wrap64, Go.minInt64, Go.maxInt64. intros H.
  rewrite Z.mod_small; lia.
Qed.

(** ** Classification of a response and the error it becomes *)

Section ExecutorFacts.

Variable Target : Type.
Variable unmarshal_errResp : list byte -> errResp * option lib_error.
Variable unmarshal_target : list byte -> Target -> Target * option lib_error.

Local Abbreviation newAPIError' := (newAPIError unmarshal_errResp).
Local Abbreviation execute' := (execute unmarshal_errResp unmarshal_target).
Local Abbreviation attempt' := (attemptWithHint unmarshal_errResp unmarshal_target).
Local Abbreviation decodeInto' := (decodeInto unmarshal_target).

Lemma newAPIError_StatusCode code body :
  StatusCode (newAPIError' code body) = code.
Proof. unfold newAPIError. destruct (unmarshal_errResp body); reflexivity. Qed.

Lemma newAPIError_RawBody code body :
  RawBody (newAPIError' code body) = body.
Proof. unfold newAPIError. destruct (unmarshal_errResp body); reflexivity. Qed.

Lemma decodeInto_nil body st :
  target st = None -> decodeInto' body st = (st, None).
Proof. unfold decodeInto. intros ->. reflexivity. Qed.

Lemma decodeInto_some body st t :
  target st = Some t ->
  decodeInto' body st =
    (decoded st (unmarshal_target body t).1,
     ErrWrapped "decoding response" <$> (unmarshal_target body t).2).
Proof.
  unfold decodeInto. intros ->.
  destruct (unmarshal_target body t) as [t' [e|]]; reflexivity.
Qed.

Lemma decodeInto_not_api body st e :
  (decodeInto' body st).2 = Some e -> is_api_error e = false.
Proof.
  unfold decodeInto. destruct (target st) as [t|]; [|discriminate].
  destruct (unmarshal_target body t) as [t' [d|]]; simpl; [|discriminate].
  intros [= <-]. reflexivity.
Qed.

Lemma in_2xx_test (code : Z) :
  (code <? 200) || (300 <=? code) = false <-> 200 <= code < 300.
Proof. rewrite orb_false_iff, Z.ltb_ge, Z.leb_gt. lia. Qed.

(** One dispatch, in either closure of [do]: a response whose status code
    is in [200,300) sends the body to the decoder when a target was supplied,
    any other status code yields the [APIError] built by [newAPIError]. *)
Lemma closures_classification (env : Env) (st : State Target) (resp : Response) :
  server env (dispatched st) = inr resp ->
  resp_ReadErr resp = None ->
  (200 <= resp_StatusCode resp < 300 ->
     execute' env st = decodeInto' (resp_Body resp) (sent st)
     /\ attempt' env st = ((execute' env st).1, None, (execute' env st).2)
     /\ (target st = None -> execute' env st = (sent st, None))
     /\ (forall t, target st = Some t ->
           execute' env st =
             (decoded (sent st) (unmarshal_target (resp_Body resp) t).1,
              ErrWrapped "decoding response" <$> (unmarshal_target (resp_Body resp) t).2))
     /\ (forall e, (execute' env st).2 = Some e -> is_api_error e = false))
  /\ (~ 200 <= resp_StatusCode resp < 300 ->
      exists a : APIError,
        execute' env st = (sent st, Some (ErrAPI a))
        /\ (attempt' env st).2 = Some (ErrAPI a)
        /\ (attempt' env st).1.1 = sent st
        /\ a = newAPIError' (resp_StatusCode resp) (resp_Body resp)
        /\ StatusCode a = resp_StatusCode resp
        /\ RawBody a = resp_Body resp).
Proof.
  intros Hsrv Hread. split.
  - intros Hin. apply in_2xx_test in Hin.
    assert (Hex : execute' env st = decodeInto' (resp_Body resp) (sent st)).
    { unfold execute. rewrite Hsrv, Hread, Hin. reflexivity. }
    repeat split.
    + exact Hex.
    + unfold attemptWithHint. rewrite Hsrv, Hread, Hin, Hex.
      destruct (decodeInto' _ _); reflexivity.
    + intros Hnil. rewrite Hex. apply decodeInto_nil. exact Hnil.
    + intros t Ht. rewrite Hex. apply decodeInto_some. exact Ht.
    + intros e. rewrite Hex. apply decodeInto_not_api.
  - intros Hout.
    assert (Htest : (resp_StatusCode resp <? 200) || (300 <=? resp_StatusCode resp) = true).
    { destruct ((resp_StatusCode resp <? 200) || (300 <=? resp_StatusCode resp)) eqn:E;
        [reflexivity | apply in_2xx_test in E; contradiction]. }
    exists (newAPIError' (resp_StatusCode resp) (resp_Body resp)).
    unfold execute, attemptWithHint. rewrite Hsrv, Hread, Htest.
    repeat split.
    + destruct (isRetryable _); reflexivity.
    + destruct (isRetryable _); reflexivity.
    + apply newAPIError_StatusCode.
    + apply newAPIError_RawBody.
Qed.

(** The message of the error, for any decoder: the decoded [message] field
    when the decoder reports no error and the field is not empty; else the
    decoded [error] field when it is not empty; else, and whenever the
    decoder reports an error, the body as text. *)
Lemma newAPIError_message (code : Z) (body : list byte) :
  let parsed := (unmarshal_errResp body).1 in
  let err := (unmarshal_errResp body).2 in
  (err = None -> errResp_Message parsed <> "" ->
     Message (newAPIError' code body) = errResp_Message parsed)
  /\ (err = None -> errResp_Message parsed = "" -> errResp_Error parsed <> "" ->
     Message (newAPIError' code body) = errResp_Error parsed)
  /\ (err = None -> errResp_Message parsed = "" -> errResp_Error parsed = "" ->
     Message (newAPIError' code body) = string_of_list_byte body)
  /\ (err <> None ->
     Message (newAPIError' code body) = string_of_list_byte body).
Proof.
  unfold newAPIError. destruct (unmarshal_errResp body) as [p e]. simpl.
  repeat split.
  - intros -> Hm. apply String.eqb_neq in Hm. simpl. rewrite Hm. simpl.
    rewrite Hm. reflexivity.
  - intros -> Hm He. apply String.eqb_neq in He. simpl.
    rewrite Hm. simpl. rewrite He. simpl. rewrite He. reflexivity.
  - intros -> Hm He. simpl. rewrite Hm, He. reflexivity.
  - intros Hne. destruct e as [e|]; [reflexivity | contradiction].
Qed.

End ExecutorFacts.

(** ** The message of an error body *)

(** No key names both fields. *)
Lemma names_one_field (k : string) :
  Json.names k "message" = true -> Json.names k "error" = false.
Proof.
  unfold Json.names. rewrite !orb_true_iff, orb_false_iff, !String.eqb_eq, !String.eqb_neq.
  change (Json.foldName "message") with "MESSAGE".
  change (Json.foldName "error") with "ERROR".
  intros [->|H]; [split; discriminate|].
  split; [intros ->; discriminate H | rewrite H; discriminate].
Qed.

(** The decoder leaves in each field the string of the last member that
    names it and holds one, and reports a type error when a member that
    names a field holds something else than a string or [null]. *)
Lemma decodeMembers_spec (ms : list (string * Json.value)) :
  forall p bad,
    decodeMembers ms p bad
    = ({| errResp_Message := fieldFrom "message" ms (errResp_Message p);
          errResp_Error := fieldFrom "error" ms (errResp_Error p) |},
       bad || mistyped ms).
Proof.
  induction ms as [|[k v] ms IH]; intros p bad.
  - simpl. rewrite orb_false_r. destruct p; reflexivity.
  - cbn [decodeMembers fieldFrom fold_left mistyped existsb fst snd].
    destruct (Json.names k "message") eqn:Hm.
    + rewrite (names_one_field k Hm).
      destruct v; cbn [storeString orb andb]; rewrite IH; cbn [errResp_Message errResp_Error];
        f_equal; rewrite ?orb_false_r, ?orb_true_r, ?orb_assoc; reflexivity.
    + destruct (Json.names k "error") eqn:He.
      * destruct v; cbn [storeString orb andb]; rewrite IH;
          cbn [errResp_Message errResp_Error];
          f_equal; rewrite ?orb_false_r, ?orb_true_r, ?orb_assoc; reflexivity.
      * cbn [orb andb]. rewrite IH. reflexivity.
Qed.

Lemma json_Unmarshal_object (body : list byte) (ms : list (string * Json.value)) :
  Json.parse (string_of_list_byte body) = Some (Json.JObject ms) ->
  json_Unmarshal_errResp body
  = ({| errResp_Message := fieldOf "message" ms; errResp_Error := fieldOf "error" ms |},
     if mistyped ms
     then Some (LibError "json: cannot unmarshal into Go struct field") else None).
Proof.
  intros Hp. unfold json_Unmarshal_errResp. rewrite Hp, decodeMembers_spec. reflexivity.
Qed.

(** C2, as stated, fails: the body [{"message":"m","error":123}] is a JSON
    object with the non-empty string field [message], yet the message of the
    error is the whole body: [json.Unmarshal] reports the number it cannot
    store in [error], and [newAPIError] uses the fields only when the
    decoder reports nothing. *)
Lemma C2_message_priority_counterexample :
  ~ (forall (code : Z) (body : list byte) (ms : list (string * Json.value)) (m : string),
       Json.parse (string_of_list_byte body) = Some (Json.JObject ms) ->
       In ("message", Json.JString m) ms -> m <> "" ->
       Message (newAPIError json_Unmarshal_errResp code body) = m).
Proof.
  intros H.
  specialize (H 400 Fixtures.body_mistyped
                [("message", Json.JString "m"); ("error", Json.JNumber)] "m"
                eq_refl ltac:(left; reflexivity) ltac:(discriminate)).
  vm_compute in H. discriminate H.
Qed.

(** C2, amended.  When the body is a JSON object in which every member
    named [message] or [error] (up to case) is a string or [null], the
    message of the error is the [message] field if it is not empty, else the
    [error] field if it is not empty, else the body as text; a field holds
    the string of the last member that names it.  In every other case (a
    member of these names that holds a number, a boolean, an array or an
    object; a JSON value that is not an object; a body that is not JSON) the
    message is the body as text. *)
Theorem C2_message_priority (code : Z) (body : list byte) :
  let a := newAPIError json_Unmarshal_errResp code body in
  let text := string_of_list_byte body in
  (forall ms,
     Json.parse text = Some (Json.JObject ms) -> mistyped ms = false ->
     (fieldOf "message" ms <> "" -> Message a = fieldOf "message" ms)
     /\ (fieldOf "message" ms = "" -> fieldOf "error" ms <> "" ->
         Message a = fieldOf "error" ms)
     /\ (fieldOf "message" ms = "" -> fieldOf "error" ms = "" -> Message a = text))
  /\ (forall ms,
        Json.parse text = Some (Json.JObject ms) -> mistyped ms = true ->
        Message a = text)
  /\ (forall v,
        Json.parse text = Some v -> (forall ms, v <> Json.JObject ms) -> Message a = text)
  /\ (Json.parse text = None -> Message a = text).
Proof.
  cbv zeta. split; [|split; [|split]].
  - intros ms Hp Hty. unfold newAPIError.
    rewrite (json_Unmarshal_object body ms Hp), Hty.
    cbn [errResp_Message errResp_Error Message].
    split; [|split].
    + intros Hm. apply String.eqb_neq in Hm. rewrite Hm. cbn [negb]. rewrite Hm. reflexivity.
    + intros Hm He. apply String.eqb_neq in He. rewrite Hm. cbn [String.eqb negb].
      rewrite He. cbn [negb]. rewrite He. reflexivity.
    + intros Hm He. rewrite Hm, He. reflexivity.
  - intros ms Hp Hty. unfold newAPIError.
    rewrite (json_Unmarshal_object body ms Hp), Hty. reflexivity.
  - intros v Hp Hno. unfold newAPIError, json_Unmarshal_errResp. rewrite Hp.
    destruct v; try reflexivity. exfalso. eapply Hno. reflexivity.
  - intros Hp. unfold newAPIError, json_Unmarshal_errResp. rewrite Hp. reflexivity.
Qed.

(** C2 on the bodies of the test-suite: a [message] field, an [error]
    field, and plain text. *)
Lemma C2_message_priority_witness :
  Message (newAPIError json_Unmarshal_errResp 429
             (Fixtures.body_of (Fixtures.json_field "message" "Rate limit exceeded")))
  = "Rate limit exceeded"
  /\ Message (newAPIError json_Unmarshal_errResp 404
                (Fixtures.body_of (Fixtures.json_field "error" "Not found")))
     = "Not found"
  /\ Message (newAPIError json_Unmarshal_errResp 500
                (Fixtures.body_of "Something went wrong"))
     = "Something went wrong".
Proof.
  split; [|split].
  - destruct (C2_message_priority 429
                (Fixtures.body_of (Fixtures.json_field "message" "Rate limit exceeded")))
      as (Hobj & _).
    destruct (Hobj [("message", Json.JString "Rate limit exceeded")] eq_refl eq_refl)
      as (Hm & _).
    apply Hm. discriminate.
  - destruct (C2_message_priority 404
                (Fixtures.body_of (Fixtures.json_field "error" "Not found")))
      as (Hobj & _).
    destruct (Hobj [("error", Json.JString "Not found")] eq_refl eq_refl) as (_ & He & _).
    apply He; [reflexivity | discriminate].
  - destruct (C2_message_priority 500 (Fixtures.body_of "Something went wrong"))
      as (_ & _ & _ & Hno).
    apply Hno. reflexivity.
Defined.

(** ** The retry loop *)

Section RetryFacts.

Variable Target : Type.
Variable unmarshal_errResp : list byte -> errResp * option lib_error.
Variable unmarshal_target : list byte -> Target -> Target * option lib_error.

Local Abbreviation newAPIError' := (newAPIError unmarshal_errResp).
Local Abbreviation execute' := (execute unmarshal_errResp unmarshal_target).
Local Abbreviation attempt' := (attemptWithHint unmarshal_errResp unmarshal_target).
Local Abbreviation do' := (do unmarshal_errResp unmarshal_target).
Local Abbreviation apiErrorOf' := (apiErrorOf unmarshal_errResp).

Lemma isRetryable_not_2xx code :
  isRetryable code = true -> (code <? 200) || (300 <=? code) = true.
Proof. unfold isRetryable. lia. Qed.

Lemma execute_dispatched env (st : State Target) :
  dispatched (execute' env st).1 = S (dispatched st).
Proof.
  unfold execute, decodeInto.
  destruct (server env (dispatched st)) as [e|resp]; [reflexivity|].
  destruct (resp_ReadErr resp); [reflexivity|].
  destruct (_ || _); [reflexivity|]. simpl.
  destruct (target st) as [t|]; [|reflexivity].
  destruct (unmarshal_target _ t) as [t' [d|]]; reflexivity.
Qed.

Lemma attempt_retryable env (st : State Target) :
  retryableOutcome (server env (dispatched st)) = true ->
  exists resp,
    server env (dispatched st) = inr resp
    /\ attempt' env st =
         (sent st, Some {| retryAfter := resp_RetryAfter resp |},
          apiErrorOf' (server env (dispatched st))).
Proof.
  unfold retryableOutcome, attemptWithHint.
  destruct (server env (dispatched st)) as [e|resp]; [discriminate|].
  destruct (resp_ReadErr resp); [discriminate|]. intros Hr.
  exists resp. rewrite Hr, (isRetryable_not_2xx _ Hr). split; reflexivity.
Qed.

Lemma attempt_not_retryable env (st : State Target) :
  retryableOutcome (server env (dispatched st)) = false ->
  attempt' env st = ((execute' env st).1, None, (execute' env st).2).
Proof.
  unfold retryableOutcome, attemptWithHint, execute.
  destruct (server env (dispatched st)) as [e|resp]; [reflexivity|].
  destruct (resp_ReadErr resp); [reflexivity|]. intros ->.
  destruct (_ || _); [reflexivity|].
  destruct (decodeInto _ _ _); reflexivity.
Qed.

Lemma retryLoop_stops r env n a lastErr (st : State Target) :
  retryableOutcome (server env (dispatched st)) = false ->
  retryLoop r env (attempt' env) (S n) a lastErr st = execute' env st.
Proof.
  intros Hnr. simpl. rewrite (attempt_not_retryable _ _ Hnr).
  destruct (execute' env st) as [st1 [e|]]; reflexivity.
Qed.

Lemma retryLoop_exhausted r env n a lastErr (st : State Target) :
  retryableOutcome (server env (dispatched st)) = true ->
  Z.of_nat a = maxRetries r ->
  retryLoop r env (attempt' env) (S n) a lastErr st
  = (sent st, apiErrorOf' (server env (dispatched st))).
Proof.
  intros Hr Ha. simpl.
  destruct (attempt_retryable _ _ Hr) as (resp & Hsrv & ->).
  rewrite Hsrv. simpl. apply Z.eqb_eq in Ha. rewrite Ha. reflexivity.
Qed.

Lemma retryLoop_cancelled r env n a lastErr (st : State Target) ce :
  retryableOutcome (server env (dispatched st)) = true ->
  Z.of_nat a <> maxRetries r ->
  ctx_done env a = Some ce ->
  retryLoop r env (attempt' env) (S n) a lastErr st
  = (sent st, Some (ErrContext ce)).
Proof.
  intros Hr Ha Hc. simpl.
  destruct (attempt_retryable _ _ Hr) as (resp & Hsrv & ->).
  rewrite Hsrv. simpl. apply Z.eqb_neq in Ha. rewrite Ha, Hc. reflexivity.
Qed.

Lemma retryLoop_retries r env n a lastErr (st : State Target) :
  retryableOutcome (server env (dispatched st)) = true ->
  Z.of_nat a <> maxRetries r ->
  ctx_done env a = None ->
  exists h,
    retryLoop r env (attempt' env) (S n) a lastErr st
    = retryLoop r env (attempt' env) n (S a)
        (apiErrorOf' (server env (dispatched st)))
        (waited (sent st)
           (calculateDelay r (Z.of_nat a) (Some h) (rand env a) (indefinite env))).
Proof.
  intros Hr Ha Hc. simpl.
  destruct (attempt_retryable _ _ Hr) as (resp & Hsrv & ->).
  exists {| retryAfter := resp_RetryAfter resp |}.
  rewrite Hsrv. simpl. apply Z.eqb_neq in Ha. rewrite Ha, Hc. reflexivity.
Qed.

(** [k] retryable failures in a row, each wait running to its end, take the
    loop [k] iterations further. *)
Lemma retryLoop_through r env k :
  forall n a lastErr (st : State Target),
    dispatched st = a ->
    (forall i, (a <= i < a + k)%nat ->
       retryableOutcome (server env i) = true
       /\ ctx_done env i = None /\ Z.of_nat i <> maxRetries r) ->
    exists st' lastErr',
      retryLoop r env (attempt' env) (k + n) a lastErr st
      = retryLoop r env (attempt' env) n (a + k) lastErr' st'
      /\ dispatched st' = (a + k)%nat
      /\ target st' = target st
      /\ length (slept st') = (length (slept st) + k)%nat.
Proof.
  induction k as [|k IH]; intros n a lastErr st Hd Hall.
  - exists st, lastErr. rewrite !Nat.add_0_r. auto.
  - destruct (Hall a ltac:(lia)) as (Hr & Hc & Hne).
    rewrite <- Hd in Hr.
    destruct (retryLoop_retries r env (k + n) a lastErr st Hr Hne Hc) as [h Hstep].
    change (S k + n)%nat with (S (k + n)). rewrite Hstep.
    destruct (IH n (S a) (apiErrorOf' (server env (dispatched st)))
                (waited (sent st)
                   (calculateDelay r (Z.of_nat a) (Some h) (rand env a)
                      (indefinite env))))
      as (st' & e' & Hrun & Hd' & Ht' & Hs').
    + simpl. rewrite Hd. reflexivity.
    + intros i Hi. apply Hall. lia.
    + exists st', e'. rewrite Hrun.
      replace (a + S k)%nat with (S a + k)%nat by lia.
      repeat split; [exact Hd' | exact Ht' | rewrite Hs'; simpl; lia].
Qed.

Lemma leadingRetryable_bound env a n : (leadingRetryable env a n <= n)%nat.
Proof.
  revert a. induction n as [|n IH]; intros a; simpl; [lia|].
  destruct (retryableOutcome _); [specialize (IH (S a))|]; lia.
Qed.

Lemma leadingRetryable_exact env f :
  forall a n,
    (forall i, (a <= i < a + f)%nat -> retryableOutcome (server env i) = true) ->
    retryableOutcome (server env (a + f)) = false ->
    leadingRetryable env a n = Nat.min f n.
Proof.
  induction f as [|f IH]; intros a n Hall Hstop.
  - rewrite Nat.add_0_r in Hstop. destruct n; simpl; [reflexivity|].
    rewrite Hstop. reflexivity.
  - destruct n; simpl; [reflexivity|].
    rewrite (Hall a) by lia. f_equal. apply IH.
    + intros i Hi. apply Hall. lia.
    + replace (S a + f)%nat with (a + S f)%nat by lia. exact Hstop.
Qed.

Lemma leadingRetryable_all env :
  (forall i, retryableOutcome (server env i) = true) ->
  forall a n, leadingRetryable env a n = n.
Proof.
  intros Hall a n. revert a. induction n as [|n IH]; intros a; simpl; [reflexivity|].
  rewrite Hall, IH. reflexivity.
Qed.

(** With no cancellation, the loop dispatches once, and once more for each
    leading retryable failure it still has an iteration for. *)
Lemma retryLoop_attempts r env :
  (forall i, ctx_done env i = None) ->
  forall n a lastErr (st : State Target),
    dispatched st = a ->
    Z.of_nat (a + n) = maxRetries r ->
    dispatched (retryLoop r env (attempt' env) (S n) a lastErr st).1
    = (a + 1 + leadingRetryable env a n)%nat.
Proof.
  intros Hctx. induction n as [|n IH]; intros a lastErr st Hd Hmax.
  - destruct (retryableOutcome (server env (dispatched st))) eqn:Hr.
    + rewrite retryLoop_exhausted by (trivial; lia). simpl. lia.
    + rewrite retryLoop_stops by trivial. rewrite execute_dispatched. simpl. lia.
  - destruct (retryableOutcome (server env (dispatched st))) eqn:Hr.
    + destruct (retryLoop_retries r env (S n) a lastErr st Hr ltac:(lia) (Hctx a))
        as [h ->].
      rewrite IH; [|simpl; lia|lia].
      simpl. rewrite <- Hd, Hr. lia.
    + rewrite retryLoop_stops by trivial. rewrite execute_dispatched.
      simpl. rewrite <- Hd, Hr. lia.
Qed.

Lemma do_with_policy c r env result :
  retry c = Some r ->
  0 <= maxRetries r < Go.maxInt64 ->
  do' c env result
  = retryLoop r env (attempt' env) (S (Z.to_nat (maxRetries r))) 0 None (initial result).
Proof.
  unfold do, retryConfig_do. intros -> HN.
  rewrite wrap64_in_range by (unfold Go.minInt64, Go.maxInt64 in *; lia).
  replace (Z.to_nat (maxRetries r + 1)) with (S (Z.to_nat (maxRetries r))) by lia.
  reflexivity.
Qed.

Lemma do_without_policy c env result :
  retry c = None -> do' c env result = execute' env (initial result).
Proof. unfold do. intros ->. reflexivity. Qed.

(** C3, amended. Under a policy with [maxRetries = N >= 0] (below
    MaxInt64, so that N + 1 is an [int]), and as long as the
    caller does not cancel during a wait, one logical call dispatches
    1 + min(f, N) times, [f] being the number of consecutive retryable
    failures the server answers with: [f] failures followed by a success or
    a permanent failure stop the call at that dispatch, a server that
    always fails retryably is asked N + 1 times.  Without a policy there is
    exactly one dispatch. *)
Theorem C3_attempt_count (c : Client) (r : retryConfig) (env : Env)
    (result : option Target) :
  retry c = Some r ->
  0 <= maxRetries r < Go.maxInt64 ->
  (forall i, ctx_done env i = None) ->
  let N := Z.to_nat (maxRetries r) in
  let attempts := dispatched (do' c env result).1 in
  attempts = (1 + leadingRetryable env 0 N)%nat
  /\ (forall f : nat,
        (forall i, (i < f)%nat -> retryableOutcome (server env i) = true) ->
        retryableOutcome (server env f) = false ->
        attempts = (1 + Nat.min f N)%nat)
  /\ ((forall i, retryableOutcome (server env i) = true) ->
        attempts = (N + 1)%nat)
  /\ (forall c0, retry c0 = None -> dispatched (do' c0 env result).1 = 1%nat).
Proof.
  intros Hc HN Hctx N attempts.
  assert (Hcount : attempts = (1 + leadingRetryable env 0 N)%nat).
  { unfold attempts. rewrite (do_with_policy _ _ _ _ Hc HN). fold N.
    rewrite (retryLoop_attempts r env Hctx N 0%nat); [reflexivity|reflexivity|].
    unfold N. lia. }
  repeat split.
  - exact Hcount.
  - intros f Hall Hstop. rewrite Hcount. f_equal.
    apply leadingRetryable_exact; [intros i Hi; apply Hall; lia | exact Hstop].
  - intros Hall. rewrite Hcount, leadingRetryable_all by exact Hall. lia.
  - intros c0 Hc0. rewrite (do_without_policy _ _ _ Hc0). apply execute_dispatched.
Qed.

(** C4. A failed dispatch is retryable exactly when its status is 429 or
    at least 500: among the status codes of HTTP (below 600) these are 429
    and the 5xx class.  When the first dispatch ends in anything but a
    retryable failure (a 4xx status other than 429, a transport, read or
    decode error) the logical call is over after that one attempt, whatever
    the retry budget, and returns what the single dispatch returned. *)
Theorem C4_retryable_classification (c : Client) (r : retryConfig) (env : Env)
    (result : option Target) :
  retry c = Some r ->
  0 <= maxRetries r < Go.maxInt64 ->
  (forall code, isRetryable code = true <-> code = 429 \/ 500 <= code)
  /\ (forall code, code < 600 ->
        (isRetryable code = true <-> code = 429 \/ is5xx code))
  /\ (retryableOutcome (server env 0) = false ->
        do' c env result = execute' env (initial result)
        /\ dispatched (do' c env result).1 = 1%nat)
  /\ (forall resp,
        server env 0 = inr resp -> resp_ReadErr resp = None ->
        400 <= resp_StatusCode resp < 500 -> resp_StatusCode resp <> 429 ->
        do' c env result
        = (sent (initial result),
           Some (ErrAPI (newAPIError' (resp_StatusCode resp) (resp_Body resp)))))
  /\ (forall e,
        server env 0 = inl e ->
        do' c env result
        = (sent (initial result), Some (ErrWrapped "executing request" e))).
Proof.
  intros Hc HN.
  assert (Hstop : retryableOutcome (server env 0) = false ->
                  do' c env result = execute' env (initial result)).
  { intros Hnr. rewrite (do_with_policy _ _ _ _ Hc HN).
    apply retryLoop_stops. exact Hnr. }
  repeat split.
  - unfold isRetryable. lia.
  - unfold isRetryable. lia.
  - unfold isRetryable, is5xx. lia.
  - unfold isRetryable, is5xx. lia.
  - apply Hstop. assumption.
  - rewrite Hstop by assumption. apply execute_dispatched.
  - intros resp Hsrv Hread Hcode Hne. rewrite Hstop.
    + unfold execute. simpl. rewrite Hsrv, Hread.
      replace ((resp_StatusCode resp <? 200) || (300 <=? resp_StatusCode resp))
        with true by lia.
      reflexivity.
    + unfold retryableOutcome. rewrite Hsrv, Hread. unfold isRetryable. lia.
  - intros e Hsrv. rewrite Hstop.
    + unfold execute. simpl. rewrite Hsrv. reflexivity.
    + unfold retryableOutcome. rewrite Hsrv. reflexivity.
Qed.

(** C9. When the wait after a retryable failure ends because the caller's
    context is done (and the budget would have allowed another attempt),
    the logical call returns the error of the context, which is not an
    [APIError] and not the error of the last response, and the transport is
    not called again. *)
Theorem C9_cancellation_during_wait (c : Client) (r : retryConfig) (env : Env)
    (result : option Target) (k : nat) (ce : ctx_error) :
  retry c = Some r ->
  Z.of_nat k < maxRetries r < Go.maxInt64 ->
  (forall i, (i <= k)%nat -> retryableOutcome (server env i) = true) ->
  (forall i, (i < k)%nat -> ctx_done env i = None) ->
  ctx_done env k = Some ce ->
  (do' c env result).2 = Some (ErrContext ce)
  /\ is_api_error (ErrContext ce) = false
  /\ Some (ErrContext ce) <> apiErrorOf' (server env k)
  /\ dispatched (do' c env result).1 = S k
  /\ target (do' c env result).1 = result.
Proof.
  intros Hc Hk Hall Hwait Hdone.
  rewrite (do_with_policy _ _ _ _ Hc) by lia.
  replace (S (Z.to_nat (maxRetries r)))
    with (k + S (Z.to_nat (maxRetries r) - k))%nat by lia.
  destruct (retryLoop_through r env k (S (Z.to_nat (maxRetries r) - k)) 0%nat None
              (initial result) eq_refl)
    as (st' & e' & -> & Hd' & Ht' & _).
  { intros i Hi. repeat split; [apply Hall | apply Hwait |]; lia. }
  simpl in Hd'.
  rewrite (retryLoop_cancelled r env _ k e' st' ce);
    [| rewrite Hd'; apply Hall; lia | lia | exact Hdone].
  repeat split.
  - destruct (server env k); discriminate.
  - simpl. rewrite Hd'. reflexivity.
  - simpl. exact Ht'.
Qed.

End RetryFacts.

(** C3 on the end-to-end scenario: 429 twice, then 200, with five retries
    allowed, takes three dispatches. *)
Lemma C3_attempt_count_witness :
  dispatched
    (do Fixtures.unmarshal_errResp Fixtures.unmarshal_target
        (Fixtures.client (Some (Fixtures.policy 5))) Fixtures.flaky (Some false)).1
  = 3%nat.
Proof.
  destruct (C3_attempt_count bool Fixtures.unmarshal_errResp Fixtures.unmarshal_target
              (Fixtures.client (Some (Fixtures.policy 5))) (Fixtures.policy 5)
              Fixtures.flaky (Some false) eq_refl ltac:(vm_compute; split; [discriminate | reflexivity])
              (fun _ => eq_refl)) as (H & _).
  exact H.
Defined.

(** C3, as stated, fails, in two ways.  A wait that the caller cancels ends
    the call: with three retries allowed and a server that always answers
    500, a cancellation during the first wait leaves one dispatch, where one
    observed failure gives 1 + min(1, 3) = 2.  And for N = MaxInt64 the bound
    N + 1 of the loop wraps around: nothing is dispatched at all.  Here [f]
    counts the consecutive retryable failures the call observed: the
    failures go on up to [f], and either the answer after them is not a
    retryable failure or the call dispatched only [f] times. *)
Lemma C3_attempt_count_counterexample :
  ~ (forall (c : Client) (r : retryConfig) (env : Env) (result : option bool) (f : nat),
       retry c = Some r -> 0 <= maxRetries r < Go.maxInt64 ->
       (forall i, (i < f)%nat -> retryableOutcome (server env i) = true) ->
       (retryableOutcome (server env f) = false
        \/ f = dispatched
                 (do Fixtures.unmarshal_errResp Fixtures.unmarshal_target c env result).1) ->
       dispatched (do Fixtures.unmarshal_errResp Fixtures.unmarshal_target c env result).1
       = (1 + Nat.min f (Z.to_nat (maxRetries r)))%nat)
  /\ ~ (forall (c : Client) (r : retryConfig) (env : Env) (result : option bool) (f : nat),
       retry c = Some r -> 0 <= maxRetries r ->
       (forall i, ctx_done env i = None) ->
       (forall i, (i < f)%nat -> retryableOutcome (server env i) = true) ->
       (retryableOutcome (server env f) = false
        \/ f = dispatched
                 (do Fixtures.unmarshal_errResp Fixtures.unmarshal_target c env result).1) ->
       dispatched (do Fixtures.unmarshal_errResp Fixtures.unmarshal_target c env result).1
       = (1 + Nat.min f (Z.to_nat (maxRetries r)))%nat).
Proof.
  split; intros H.
  - specialize (H (Fixtures.client (Some (Fixtures.policy 3))) (Fixtures.policy 3)
                  (Fixtures.cancelled_at 0) (Some false) 1%nat eq_refl).
    assert (Hd : dispatched
                   (do Fixtures.unmarshal_errResp Fixtures.unmarshal_target
                       (Fixtures.client (Some (Fixtures.policy 3)))
                       (Fixtures.cancelled_at 0) (Some false)).1 = 1%nat)
      by (vm_compute; reflexivity).
    rewrite Hd in H.
    assert (Habs : 1%nat = (1 + Nat.min 1 (Z.to_nat (maxRetries (Fixtures.policy 3))))%nat).
    { apply H.
      - vm_compute. split; [discriminate | reflexivity].
      - intros i Hi. reflexivity.
      - right. reflexivity. }
    vm_compute in Habs. discriminate Habs.
  - specialize (H (Fixtures.client (Some (Fixtures.policy Go.maxInt64)))
                  (Fixtures.policy Go.maxInt64)
                  (Fixtures.always 500 (Fixtures.body_of "boom")) (Some false) 0%nat eq_refl).
    assert (Hd : dispatched
                   (do Fixtures.unmarshal_errResp Fixtures.unmarshal_target
                       (Fixtures.client (Some (Fixtures.policy Go.maxInt64)))
                       (Fixtures.always 500 (Fixtures.body_of "boom")) (Some false)).1
                 = 0%nat) by (vm_compute; reflexivity).
    rewrite Hd, Nat.min_0_l in H.
    assert (Habs : 0%nat = (1 + 0)%nat).
    { apply H.
      - vm_compute. discriminate.
      - intros i. reflexivity.
      - intros i Hi. lia.
      - right. reflexivity. }
    discriminate Habs.
Qed.

(** C4 on a server that always answers 401: one dispatch, and the error of
    that response, with three retries allowed. *)
Lemma C4_retryable_classification_witness :
  do Fixtures.unmarshal_errResp Fixtures.unmarshal_target
     (Fixtures.client (Some (Fixtures.policy 3)))
     (Fixtures.always 401 (Fixtures.body_of (Fixtures.json_field "message" "Invalid key")))
     (Some false)
  = ({| dispatched := 1; slept := []; target := Some false |},
     Some (ErrAPI {| StatusCode := 401; Message := "Invalid key";
                     RawBody := Fixtures.body_of (Fixtures.json_field "message" "Invalid key") |})).
Proof.
  destruct (C4_retryable_classification bool Fixtures.unmarshal_errResp
              Fixtures.unmarshal_target
              (Fixtures.client (Some (Fixtures.policy 3))) (Fixtures.policy 3)
              (Fixtures.always 401 (Fixtures.body_of (Fixtures.json_field "message" "Invalid key")))
              (Some false) eq_refl ltac:(vm_compute; split; [discriminate | reflexivity]))
    as (_ & _ & _ & H & _).
  rewrite (H _ eq_refl eq_refl ltac:(vm_compute; split; [discriminate | reflexivity]) ltac:(simpl; lia)).
  reflexivity.
Defined.

(** C9 on a server that always answers 500 while the caller cancels during
    the second wait: two dispatches, and [context.Canceled]. *)
Lemma C9_cancellation_during_wait_witness :
  (do Fixtures.unmarshal_errResp Fixtures.unmarshal_target
      (Fixtures.client (Some (Fixtures.policy 3))) (Fixtures.cancelled_at 1) (Some false)).2
  = Some (ErrContext Canceled)
  /\ dispatched
       (do Fixtures.unmarshal_errResp Fixtures.unmarshal_target
           (Fixtures.client (Some (Fixtures.policy 3))) (Fixtures.cancelled_at 1) (Some false)).1
     = 2%nat.
Proof.
  destruct (C9_cancellation_during_wait bool Fixtures.unmarshal_errResp
              Fixtures.unmarshal_target
              (Fixtures.client (Some (Fixtures.policy 3))) (Fixtures.policy 3)
              (Fixtures.cancelled_at 1) (Some false) 1%nat Canceled eq_refl
              ltac:(vm_compute; split; reflexivity) (fun _ _ => eq_refl))
    as (H1 & _ & _ & H2 & _).
  - intros i Hi. destruct i as [|i]; [reflexivity | lia].
  - reflexivity.
  - split; [exact H1 | exact H2].
Defined.

(** ** The delay between two attempts *)

(** *** Powers of two *)

Lemma Qpow2_pos (e : Z) : (0 < Qpower 2 e)%Q.
Proof. apply Qpower_0_lt. reflexivity. Qed.

Lemma Qpow2_add (a b : Z) : (Qpower 2 (a + b) == Qpower 2 a * Qpower 2 b)%Q.
Proof. apply Qpower_plus. discriminate. Qed.

Lemma Qpow2_Z (k : Z) : 0 <= k -> (Qpower 2 k == inject_Z (2 ^ k))%Q.
Proof. intros Hk. symmetry. apply (Zpower_Qpower 2 k Hk). Qed.

Lemma dyadic_shift (m e c : Z) :
  c <= e -> (inject_Z m * Qpower 2 e == inject_Z (m * 2 ^ (e - c)) * Qpower 2 c)%Q.
Proof.
  intros Hc. replace e with ((e - c) + c) at 1 by lia.
  rewrite Qpow2_add, (Qpow2_Z (e - c)) by lia.
  rewrite inject_Z_mult. ring.
Qed.

Lemma dyadic_le (m1 m2 c : Z) :
  (inject_Z m1 * Qpower 2 c <= inject_Z m2 * Qpower 2 c)%Q <-> m1 <= m2.
Proof.
  pose proof (Qpow2_pos c) as Hp. rewrite Zle_Qle. split; intros H.
  - apply Qmult_le_r in H; assumption.
  - apply Qmult_le_r; assumption.
Qed.

Lemma dyadic_lt (m1 m2 c : Z) :
  (inject_Z m1 * Qpower 2 c < inject_Z m2 * Qpower 2 c)%Q <-> m1 < m2.
Proof.
  pose proof (Qpow2_pos c) as Hp. rewrite Zlt_Qlt. split; intros H.
  - apply Qmult_lt_r in H; assumption.
  - apply Qmult_lt_r; assumption.
Qed.

Lemma pow2_pos (k : Z) : 0 <= k -> 0 < 2 ^ k.
Proof. intros. apply Z.pow_pos_nonneg; lia. Qed.

Lemma pow2_succ (k : Z) : 0 <= k -> 2 ^ (k + 1) = 2 * 2 ^ k.
Proof. intros. rewrite Z.pow_add_r by lia. lia. Qed.

Lemma pow2_le (a b : Z) : 0 <= a <= b -> 2 ^ a <= 2 ^ b.
Proof. intros. apply Z.pow_le_mono_r; lia. Qed.

Lemma pow2_lt (a b : Z) : 0 <= a < b -> 2 ^ a < 2 ^ b.
Proof. intros. apply Z.pow_lt_mono_r; lia. Qed.

(** *** The number of digits *)

Lemma digits2_pos_bounds (p : positive) :
  2 ^ (Zpos (digits2_pos p) - 1) <= Zpos p < 2 ^ Zpos (digits2_pos p).
Proof.
  induction p as [p IH|p IH|]; simpl digits2_pos.
  - rewrite Pos2Z.inj_succ.
    replace (Z.succ (Zpos (digits2_pos p)) - 1) with ((Zpos (digits2_pos p) - 1) + 1) by lia.
    replace (Z.succ (Zpos (digits2_pos p))) with (Zpos (digits2_pos p) + 1) by lia.
    rewrite !pow2_succ by lia. lia.
  - rewrite Pos2Z.inj_succ.
    replace (Z.succ (Zpos (digits2_pos p)) - 1) with ((Zpos (digits2_pos p) - 1) + 1) by lia.
    replace (Z.succ (Zpos (digits2_pos p))) with (Zpos (digits2_pos p) + 1) by lia.
    rewrite !pow2_succ by lia. lia.
  - simpl. lia.
Qed.

Lemma digits2_pos_unique (p : positive) (d : Z) :
  2 ^ (d - 1) <= Zpos p < 2 ^ d -> 1 <= d -> Zpos (digits2_pos p) = d.
Proof.
  intros [Hlo Hhi] Hd. pose proof (digits2_pos_bounds p) as [Blo Bhi].
  destruct (Z_lt_le_dec (Zpos (digits2_pos p)) d) as [Hlt|Hge].
  - pose proof (pow2_le (Zpos (digits2_pos p)) (d - 1) ltac:(lia)). lia.
  - destruct (Z_lt_le_dec d (Zpos (digits2_pos p))) as [Hlt|Hle]; [|lia].
    pose proof (pow2_le d (Zpos (digits2_pos p) - 1) ltac:(lia)). lia.
Qed.

(** *** Shifting right *)

Lemma iter_pos_nat {A : Type} (f : A -> A) (p : positive) (x : A) :
  SpecFloat.iter_pos f p x = Nat.iter (Pos.to_nat p) f x.
Proof.
  revert x. induction p as [p IH|p IH|]; intros x; simpl SpecFloat.iter_pos.
  - rewrite !IH. rewrite Pos2Nat.inj_xI.
    replace (S (2 * Pos.to_nat p))%nat with (Pos.to_nat p + (Pos.to_nat p + 1))%nat by lia.
    rewrite !Nat.iter_add. reflexivity.
  - rewrite !IH. rewrite Pos2Nat.inj_xO.
    replace (2 * Pos.to_nat p)%nat with (Pos.to_nat p + Pos.to_nat p)%nat by lia.
    rewrite Nat.iter_add. reflexivity.
  - reflexivity.
Qed.

Lemma shr_1_m (mrs : shr_record) :
  0 <= shr_m mrs -> shr_m (shr_1 mrs) = shr_m mrs / 2.
Proof.
  destruct mrs as [m r s]. simpl. intros Hm.
  destruct m as [|[p|p|]|p]; cbn [shr_m shr_1]; try lia.
  - reflexivity.
  - apply Z.div_unique with 1; lia.
  - apply Z.div_unique with 0; lia.
  - reflexivity.
Qed.

Lemma shr_1_exact (mrs : shr_record) :
  0 <= shr_m mrs -> shr_m mrs mod 2 = 0 ->
  shr_r mrs = false -> shr_s mrs = false ->
  shr_r (shr_1 mrs) = false /\ shr_s (shr_1 mrs) = false.
Proof.
  destruct mrs as [m r s]. simpl. intros Hm Hmod -> ->.
  destruct m as [|[p|p|]|p]; cbn [shr_r shr_s shr_1 orb];
    try (split; reflexivity); try lia.
  - exfalso. replace (Zpos p~1) with (1 + Zpos p * 2) in Hmod by lia.
    rewrite Z.mod_add in Hmod by lia. discriminate Hmod.
  - discriminate Hmod.
Qed.

Lemma iter_shr_1 (M : Z) (k : nat) :
  0 <= M ->
  let mrs := Nat.iter k shr_1 {| shr_m := M; shr_r := false; shr_s := false |} in
  shr_m mrs = M / 2 ^ Z.of_nat k
  /\ (M mod 2 ^ Z.of_nat k = 0 -> shr_r mrs = false /\ shr_s mrs = false).
Proof.
  intros HM. induction k as [|k IH].
  - simpl. rewrite Z.div_1_r. auto.
  - cbv zeta in *. destruct IH as [IHm IHx].
    change (Nat.iter (S k) shr_1 ?x) with (shr_1 (Nat.iter k shr_1 x)).
    set (mrs := Nat.iter k shr_1 _) in *.
    assert (Hpos : 0 < 2 ^ Z.of_nat k) by (apply pow2_pos; lia).
    assert (Hm0 : 0 <= shr_m mrs) by (rewrite IHm; apply Z.div_pos; lia).
    rewrite Nat2Z.inj_succ. unfold Z.succ. rewrite pow2_succ by lia.
    split.
    + rewrite shr_1_m by exact Hm0. rewrite IHm.
      rewrite Z.div_div by lia. f_equal. lia.
    + intros Hmod.
      assert (Hk : M mod 2 ^ Z.of_nat k = 0).
      { apply Z.mod_divide in Hmod; [|lia]. apply Z.mod_divide; [lia|].
        destruct Hmod as [c Hc]. exists (c * 2). lia. }
      destruct (IHx Hk) as [Hr Hs].
      apply shr_1_exact; try assumption.
      rewrite IHm.
      apply Z.mod_divide in Hmod; [|lia]. destruct Hmod as [c Hc].
      replace M with ((c * 2) * 2 ^ Z.of_nat k) by lia.
      rewrite Z.div_mul by lia. apply Z.mod_mul. lia.
Qed.

(** [shr] on an exact record: the mantissa is divided, and the location
    is exact when the division is. *)
Lemma shr_exact (M e n : Z) :
  0 <= M -> 0 <= n ->
  let res := shr {| shr_m := M; shr_r := false; shr_s := false |} e n in
  snd res = e + n
  /\ shr_m (fst res) = M / 2 ^ n
  /\ (M mod 2 ^ n = 0 -> loc_of_shr_record (fst res) = loc_Exact).
Proof.
  intros HM Hn. destruct n as [|p|p]; [| |lia]; cbv zeta.
  - simpl. rewrite Z.div_1_r, Z.add_0_r. auto.
  - unfold shr. cbn [fst snd]. rewrite iter_pos_nat.
    pose proof (iter_shr_1 M (Pos.to_nat p) HM) as H. cbv zeta in H.
    rewrite positive_nat_Z in H. destruct H as [Hm Hx].
    split; [reflexivity|]. split; [exact Hm|].
    intros Hmod. destruct (Hx Hmod) as [Hr Hs].
    destruct (Nat.iter _ _ _) as [m r s]. simpl in *. subst r s. reflexivity.
Qed.

Lemma round_nearest_even_bounds (q : Z) (l : location) :
  q <= round_nearest_even q l <= q + 1.
Proof.
  destruct l as [|[| |]]; simpl; try lia. destruct (Z.even q); lia.
Qed.

(** *** Rounding a mantissa and an exponent to a float *)

Lemma fexp_eq (e : Z) : fexp 53 1024 e = Z.max (e - 53) (-1074).
Proof. reflexivity. Qed.

Lemma Zdigits2_small (m1 : Z) :
  0 < m1 < 2 ^ 53 -> Zdigits2 m1 <= 53.
Proof.
  intros [Hlo Hhi]. destruct m1 as [|p|p]; try lia. simpl.
  pose proof (digits2_pos_bounds p) as [Blo _].
  destruct (Z_le_gt_dec (Zpos (digits2_pos p)) 53) as [H|H]; [exact H|].
  pose proof (pow2_le 53 (Zpos (digits2_pos p) - 1) ltac:(lia)). lia.
Qed.

Lemma shr_nonpos (mrs : shr_record) (e n : Z) : n <= 0 -> shr mrs e n = (mrs, e).
Proof. destruct n; try reflexivity. lia. Qed.

Lemma finish_pack (s : bool) (m1 E : Z) :
  0 <= m1 <= 2 ^ 53 -> -1074 <= E ->
  (let '(mrs, e2) := shr_fexp 53 1024 m1 E loc_Exact in
   match shr_m mrs with
   | Z0 => S754_zero s
   | Zpos m => if e2 <=? 1024 - 53 then S754_finite s m e2 else S754_infinity s
   | Zneg _ => S754_nan
   end) = pack s m1 E.
Proof.
  intros Hm HE. unfold pack, shr_fexp. rewrite fexp_eq. simpl shr_record_of_loc.
  destruct (Z.eqb_spec m1 0) as [->|Hne0].
  - simpl Zdigits2. rewrite shr_nonpos by lia. reflexivity.
  - destruct (Z.eqb_spec m1 (2 ^ 53)) as [->|Hne].
    + change (Zdigits2 (2 ^ 53)) with 54.
      replace (Z.max (54 + E - 53) (-1074) - E) with 1 by lia.
      reflexivity.
    + pose proof (Zdigits2_small m1 ltac:(lia)) as Hd.
      rewrite shr_nonpos by lia. simpl shr_m.
      destruct m1 as [|p|p]; try lia. reflexivity.
Qed.

Lemma binary_round_aux_pack (s : bool) (m : positive) (e : Z) :
  let E := fexp 53 1024 (Zpos (digits2_pos m) + e) in
  e <= E ->
  exists m1 : Z,
    Zpos m / 2 ^ (E - e) <= m1 <= Zpos m / 2 ^ (E - e) + 1
    /\ (Zpos m mod 2 ^ (E - e) = 0 -> m1 = Zpos m / 2 ^ (E - e))
    /\ m1 <= 2 ^ 53
    /\ binary_round_aux 53 1024 s (Zpos m) e loc_Exact = pack s m1 E.
Proof.
  intros E HE.
  pose proof (shr_exact (Zpos m) e (E - e) ltac:(lia) ltac:(lia)) as H.
  cbv zeta in H.
  unfold binary_round_aux, shr_fexp at 1. simpl shr_record_of_loc. simpl Zdigits2.
  fold E.
  destruct (shr {| shr_m := Zpos m; shr_r := false; shr_s := false |} e (E - e))
    as [mrs' e'] eqn:Hshr.
  cbn [fst snd] in H. destruct H as (He' & Hq & Hexact).
  replace e' with E by lia.
  set (q := Zpos m / 2 ^ (E - e)) in *.
  set (m1 := round_nearest_even (shr_m mrs') (loc_of_shr_record mrs')).
  assert (Hpow : 0 < 2 ^ (E - e)) by (apply pow2_pos; lia).
  assert (Hq0 : 0 <= q) by (apply Z.div_pos; lia).
  assert (Hqlt : q < 2 ^ 53).
  { apply Z.div_lt_upper_bound; [lia|].
    pose proof (digits2_pos_bounds m) as [_ Bhi].
    unfold E in *. rewrite fexp_eq in *.
    rewrite <- Z.pow_add_r by lia.
    eapply Z.lt_le_trans; [exact Bhi|]. apply pow2_le. lia. }
  assert (Hm1 : q <= m1 <= q + 1).
  { unfold m1. rewrite Hq. apply round_nearest_even_bounds. }
  exists m1. split; [exact Hm1|]. split.
  { intros Hmod. unfold m1. rewrite (Hexact Hmod), Hq. reflexivity. }
  split; [lia|].
  apply finish_pack; [lia|]. unfold E. rewrite fexp_eq. lia.
Qed.

(** *** Bounds on the rounded value *)

Lemma Qpow2_le (a b : Z) : a <= b -> (Qpower 2 a <= Qpower 2 b)%Q.
Proof.
  intros Hab. replace b with ((b - a) + a) by lia.
  rewrite Qpow2_add, (Qpow2_Z (b - a)) by lia.
  pose proof (Qpow2_pos a) as Hp.
  pose proof (pow2_pos (b - a) ltac:(lia)) as Hz.
  assert (H1 : (1 <= inject_Z (2 ^ (b - a)))%Q).
  { change 1%Q with (inject_Z 1). rewrite <- Zle_Qle. lia. }
  rewrite <- (Qmult_1_l (Qpower 2 a)) at 1.
  apply Qmult_le_compat_r; [exact H1 | apply Qlt_le_weak, Hp].
Qed.

Lemma dyadic_pow (k c : Z) :
  0 <= k -> (Qpower 2 (k + c) == inject_Z (2 ^ k) * Qpower 2 c)%Q.
Proof. intros Hk. rewrite Qpow2_add, (Qpow2_Z k Hk). reflexivity. Qed.

Lemma dyadic_below (M d e : Z) :
  0 <= d -> M < 2 ^ d -> (inject_Z M * Qpower 2 e < Qpower 2 (d + e))%Q.
Proof. intros Hd HM. rewrite (dyadic_pow d e Hd). apply dyadic_lt. exact HM. Qed.

Lemma dyadic_above (M d e : Z) :
  1 <= d -> 2 ^ (d - 1) <= M -> (Qpower 2 (d - 1 + e) <= inject_Z M * Qpower 2 e)%Q.
Proof. intros Hd HM. rewrite (dyadic_pow (d - 1) e) by lia. apply dyadic_le. exact HM. Qed.

(** A larger dyadic number has no fewer digits before the binary point. *)
Lemma magnitude_mono (M1 d1 e1 M2 d2 e2 : Z) :
  1 <= d1 -> 0 <= d2 ->
  2 ^ (d1 - 1) <= M1 -> M2 < 2 ^ d2 ->
  (inject_Z M1 * Qpower 2 e1 <= inject_Z M2 * Qpower 2 e2)%Q ->
  d1 + e1 <= d2 + e2.
Proof.
  intros Hd1 Hd2 H1 H2 Hle.
  destruct (Z_le_gt_dec (d1 + e1) (d2 + e2)) as [H|H]; [exact H|exfalso].
  pose proof (dyadic_above M1 d1 e1 Hd1 H1) as Ha.
  pose proof (dyadic_below M2 d2 e2 Hd2 H2) as Hb.
  pose proof (Qpow2_le (d2 + e2) (d1 - 1 + e1) ltac:(lia)) as Hc.
  lra.
Qed.

Section RoundBounds.

(** The exact number [M * 2^e], its [d] digits, the exponent [E] of its
    format and the mantissa [m1] it is rounded to. *)
Variables M d e E m1 : Z.
Hypothesis Hd : 1 <= d.
Hypothesis HM : 2 ^ (d - 1) <= M < 2 ^ d.
Hypothesis HE : E = Z.max (d + e - 53) (-1074).
Hypothesis HeE : e <= E.
Hypothesis Hm1 : M / 2 ^ (E - e) <= m1 <= M / 2 ^ (E - e) + 1.
Hypothesis Hexact : M mod 2 ^ (E - e) = 0 -> m1 = M / 2 ^ (E - e).

Lemma normal_quotient : -1074 < E -> 2 ^ 52 <= M / 2 ^ (E - e).
Proof.
  intros Hn. assert (Hn' : E - e = d - 53) by lia. rewrite Hn'.
  apply Z.div_le_lower_bound; [apply pow2_pos; lia|].
  rewrite <- Z.pow_add_r by lia. replace (d - 53 + 52) with (d - 1) by lia. lia.
Qed.

Lemma quotient_small : M / 2 ^ (E - e) < 2 ^ 53.
Proof.
  apply Z.div_lt_upper_bound; [apply pow2_pos; lia|].
  rewrite <- Z.pow_add_r by lia.
  eapply Z.lt_le_trans; [apply HM|]. apply pow2_le. lia.
Qed.

(** A float [my * 2^ey] of the format, with [dy] digits. *)
Variables my dy ey : Z.
Hypothesis Hdy : 1 <= dy.
Hypothesis Hmy : 2 ^ (dy - 1) <= my < 2 ^ dy.
Hypothesis Hey : ey = Z.max (dy + ey - 53) (-1074).

Lemma round_lower :
  (inject_Z my * Qpower 2 ey <= inject_Z M * Qpower 2 e)%Q ->
  (inject_Z my * Qpower 2 ey <= inject_Z m1 * Qpower 2 E)%Q.
Proof.
  intros Hle.
  pose proof (magnitude_mono my dy ey M d e Hdy ltac:(lia) ltac:(lia) ltac:(lia) Hle) as Hmag.
  assert (HeyE : ey <= E) by lia.
  destruct (Z.eq_dec ey E) as [Heq|Hne].
  - rewrite Heq in *. apply dyadic_le.
    rewrite (dyadic_shift my E e HeE) in Hle. apply dyadic_le in Hle.
    assert (my <= M / 2 ^ (E - e)).
    { apply Z.div_le_lower_bound; [apply pow2_pos; lia | lia]. }
    lia.
  - assert (Hn : -1074 < E) by lia.
    pose proof (normal_quotient Hn) as Hq.
    pose proof (dyadic_below my dy ey ltac:(lia) ltac:(lia)) as Hb.
    pose proof (Qpow2_le (dy + ey) (52 + E) ltac:(lia)) as Hc.
    rewrite (dyadic_pow 52 E) in Hc by lia.
    assert (Hd' : (inject_Z (2 ^ 52) * Qpower 2 E <= inject_Z m1 * Qpower 2 E)%Q)
      by (apply dyadic_le; lia).
    lra.
Qed.

Lemma round_upper :
  (inject_Z M * Qpower 2 e <= inject_Z my * Qpower 2 ey)%Q ->
  (inject_Z m1 * Qpower 2 E <= inject_Z my * Qpower 2 ey)%Q
  /\ E <= ey /\ (m1 = 2 ^ 53 -> E < ey).
Proof.
  intros Hle.
  pose proof (magnitude_mono M d e my dy ey Hd ltac:(lia) ltac:(lia) ltac:(lia) Hle) as Hmag.
  assert (HEey : E <= ey) by lia.
  pose proof quotient_small as Hqs.
  destruct (Z.eq_dec E ey) as [Heq|Hne].
  - rewrite <- Heq in *.
    rewrite (dyadic_shift my E e HeE) in Hle. apply dyadic_le in Hle.
    assert (Hpow : 0 < 2 ^ (E - e)) by (apply pow2_pos; lia).
    assert (Hq : M / 2 ^ (E - e) <= my).
    { apply Z.div_le_upper_bound; lia. }
    assert (Hm1' : m1 <= my).
    { destruct (Z.eq_dec (M / 2 ^ (E - e)) my) as [Hqe|Hqn]; [|lia].
      assert (Hmod : M mod 2 ^ (E - e) = 0).
      { pose proof (Z.div_mod M (2 ^ (E - e)) ltac:(lia)) as Hdm.
        pose proof (Z.mod_pos_bound M (2 ^ (E - e)) Hpow) as Hmb.
        rewrite Hqe in Hdm. lia. }
      rewrite (Hexact Hmod). lia. }
    split; [apply dyadic_le; exact Hm1'|]. split; [lia|].
    intros ->. assert (dy <= 53) by lia.
    pose proof (pow2_le dy 53 ltac:(lia)). lia.
  - assert (Hn : -1074 < ey) by lia.
    assert (Hdy53 : dy = 53) by lia.
    assert (Hmy52 : 2 ^ 52 <= my) by (rewrite Hdy53 in Hmy; simpl in Hmy; lia).
    pose proof (dyadic_above my dy ey Hdy ltac:(lia)) as Ha.
    pose proof (Qpow2_le (53 + E) (dy - 1 + ey) ltac:(lia)) as Hc.
    rewrite (dyadic_pow 53 E) in Hc by lia.
    assert (Hd' : (inject_Z m1 * Qpower 2 E <= inject_Z (2 ^ 53) * Qpower 2 E)%Q)
      by (apply dyadic_le; lia).
    split; [lra|]. split; [lia|]. intros _. lia.
Qed.

End RoundBounds.

(** *** Floats of the format *)

Lemma bounded_inv (m : positive) (e : Z) :
  bounded 53 1024 m e = true ->
  e = Z.max (Zpos (digits2_pos m) + e - 53) (-1074) /\ e <= 971.
Proof.
  unfold bounded, canonical_mantissa. rewrite fexp_eq.
  intros H. apply andb_prop in H as [H1 H2].
  apply Z.eqb_eq in H1. apply Z.leb_le in H2. simpl in H2. lia.
Qed.

Lemma bounded_intro (m : positive) (e : Z) :
  e = Z.max (Zpos (digits2_pos m) + e - 53) (-1074) -> e <= 971 ->
  bounded 53 1024 m e = true.
Proof.
  intros H1 H2. unfold bounded, canonical_mantissa. rewrite fexp_eq.
  apply andb_true_intro. split; [apply Z.eqb_eq; lia | apply Z.leb_le; simpl; lia].
Qed.

Lemma val_finite (m : positive) (e : Z) :
  Go.val (S754_finite false m e) = (inject_Z (Zpos m) * Qpower 2 e)%Q.
Proof. reflexivity. Qed.

Lemma val_pos (m : positive) (e : Z) : (0 < Go.val (S754_finite false m e))%Q.
Proof.
  rewrite val_finite. apply Qmult_lt_0_compat; [|apply Qpow2_pos].
  change 0%Q with (inject_Z 0). rewrite <- Zlt_Qlt. lia.
Qed.

Lemma val_nonneg (x : Go.float64) : finite_nonneg x -> (0 <= Go.val x)%Q.
Proof.
  destruct x as [s|s| |[|] m e]; simpl; try contradiction; intros _;
    [apply Qle_refl|]. apply Qlt_le_weak, (val_pos m e).
Qed.

Lemma pack_props (m1 E : Z) :
  0 <= m1 <= 2 ^ 53 -> -1074 <= E -> (-1074 < E -> 2 ^ 52 <= m1) ->
  (pack false m1 E = S754_infinity false
   /\ (971 < E \/ (m1 = 2 ^ 53 /\ 971 < E + 1)))
  \/ (finite_nonneg (pack false m1 E)
      /\ (Go.val (pack false m1 E) == inject_Z m1 * Qpower 2 E)%Q).
Proof.
  intros Hm HE Hn. unfold pack.
  destruct (Z.eqb_spec m1 0) as [->|Hne0].
  - right. split; [exact I|]. simpl. ring.
  - destruct (Z.eqb_spec m1 (2 ^ 53)) as [->|Hne].
    + destruct (Z.leb_spec (E + 1) 971) as [Hle|Hgt].
      * right. split.
        -- simpl. apply bounded_intro; [|exact Hle].
           change (Zpos (digits2_pos 4503599627370496)) with 53. lia.
        -- rewrite val_finite.
           replace (E + 1) with (1 + E) by lia.
           rewrite (dyadic_pow 1 E) by lia.
           rewrite Qmult_assoc, <- inject_Z_mult. reflexivity.
      * left. split; [reflexivity | lia].
    + destruct (Z.leb_spec E 971) as [Hle|Hgt].
      * right. destruct m1 as [|p|p]; try lia. simpl Z.to_pos. split.
        -- simpl. apply bounded_intro; [|exact Hle].
           destruct (Z.eq_dec E (-1074)) as [->|HnE].
           ++ pose proof (Zdigits2_small (Zpos p) ltac:(lia)) as Hd. simpl in Hd. lia.
           ++ rewrite (digits2_pos_unique p 53); [lia | simpl; lia | lia].
        -- rewrite val_finite. reflexivity.
      * left. split; [reflexivity | lia].
Qed.

Lemma binary_round_aux_rounds (m : positive) (e : Z) :
  e <= fexp 53 1024 (Zpos (digits2_pos m) + e) ->
  rounds_to (inject_Z (Zpos m) * Qpower 2 e)
            (binary_round_aux 53 1024 false (Zpos m) e loc_Exact).
Proof.
  intros HeE.
  destruct (binary_round_aux_pack false m e HeE) as (m1 & Hm1 & Hexact & Hm1le & ->).
  set (d := Zpos (digits2_pos m)) in *.
  set (E := fexp 53 1024 (d + e)) in *.
  assert (HE : E = Z.max (d + e - 53) (-1074)) by (unfold E; apply fexp_eq).
  pose proof (digits2_pos_bounds m) as HM. fold d in HM.
  assert (Hd : 1 <= d) by (unfold d; lia).
  assert (Hq0 : 0 <= Zpos m / 2 ^ (E - e)).
  { apply Z.div_pos; [lia | apply pow2_pos; lia]. }
  assert (Hnorm : -1074 < E -> 2 ^ 52 <= m1).
  { intros Hn. pose proof (normal_quotient (Zpos m) d e E Hd HM HE HeE Hn). lia. }
  pose proof (pack_props m1 E ltac:(lia) ltac:(lia) Hnorm) as Hpack.
  split; [|split].
  - destruct Hpack as [[-> _] | [Hfin _]]; [right; reflexivity | left; exact Hfin].
  - intros my ey Hb Hle.
    destruct Hpack as [[-> _] | [_ Hval]]; [left; reflexivity | right].
    rewrite Hval. destruct (bounded_inv my ey Hb) as [Hey _].
    pose proof (digits2_pos_bounds my) as Hmy.
    apply (round_lower (Zpos m) d e E m1 Hd HM HE HeE Hm1
             (Zpos my) (Zpos (digits2_pos my)) ey ltac:(lia) Hmy Hey).
    exact Hle.
  - intros my ey Hb Hle.
    destruct (bounded_inv my ey Hb) as [Hey Hey971].
    pose proof (digits2_pos_bounds my) as Hmy.
    destruct (round_upper (Zpos m) d e E m1 Hd HM HE HeE Hm1 Hexact
                (Zpos my) (Zpos (digits2_pos my)) ey ltac:(lia) Hmy Hey Hle)
      as (Hup & HEey & H53).
    destruct Hpack as [[_ Hover] | [Hfin Hval]].
    + exfalso. destruct Hover as [Hover | [Heq Hover]]; [lia|].
      specialize (H53 Heq). lia.
    + split; [exact Hfin|]. rewrite Hval. exact Hup.
Qed.

Lemma rounds_to_ext (x x' : Q) (r : Go.float64) :
  (x == x')%Q -> rounds_to x r -> rounds_to x' r.
Proof.
  intros Heq (H1 & H2 & H3). split; [exact H1|]. split.
  - intros my ey Hb Hle. apply (H2 my ey Hb). rewrite Heq. exact Hle.
  - intros my ey Hb Hle. apply (H3 my ey Hb). rewrite Heq. exact Hle.
Qed.

Lemma iter_xO (m d : positive) : Zpos (Pos.iter xO m d) = Zpos m * 2 ^ Zpos d.
Proof.
  induction d as [|d IH] using Pos.peano_ind.
  - simpl. lia.
  - rewrite Pos.iter_succ, Pos2Z.inj_xO, IH, Pos2Z.inj_succ.
    unfold Z.succ. rewrite pow2_succ by lia. lia.
Qed.

Lemma shl_align_spec (mx : positive) (ex ex' : Z) :
  let res := shl_align mx ex ex' in
  snd res = Z.min ex ex' /\ Zpos (fst res) = Zpos mx * 2 ^ (ex - snd res).
Proof.
  unfold shl_align. destruct (ex' - ex) as [|d|d] eqn:Hd; cbn [fst snd].
  - split; [lia|]. rewrite Z.sub_diag. simpl. lia.
  - split; [lia|]. rewrite Z.sub_diag. simpl. lia.
  - split; [lia|]. rewrite iter_xO. f_equal. f_equal. lia.
Qed.

Lemma digits2_pos_shift (m m' : positive) (k : Z) :
  0 <= k -> Zpos m' = Zpos m * 2 ^ k ->
  Zpos (digits2_pos m') = Zpos (digits2_pos m) + k.
Proof.
  intros Hk Hm'. pose proof (digits2_pos_bounds m) as [Blo Bhi].
  pose proof (pow2_pos k Hk) as Hp.
  apply digits2_pos_unique; [|lia]. rewrite Hm'.
  replace (Zpos (digits2_pos m) + k - 1) with ((Zpos (digits2_pos m) - 1) + k) by lia.
  rewrite !Z.pow_add_r by lia. split; nia.
Qed.

Lemma binary_round_rounds (m : positive) (e : Z) :
  rounds_to (inject_Z (Zpos m) * Qpower 2 e) (binary_round 53 1024 false m e).
Proof.
  unfold binary_round.
  pose proof (shl_align_spec m e (fexp 53 1024 (Zpos (digits2_pos m) + e))) as H.
  cbv zeta in H.
  destruct (shl_align m e (fexp 53 1024 (Zpos (digits2_pos m) + e))) as [mz ez].
  cbn [fst snd] in H. destruct H as [Hez Hmz].
  assert (Hk : 0 <= e - ez) by lia.
  pose proof (digits2_pos_shift m mz (e - ez) Hk Hmz) as Hdig.
  apply (rounds_to_ext (inject_Z (Zpos mz) * Qpower 2 ez)).
  - rewrite Hmz. symmetry. apply dyadic_shift. lia.
  - apply binary_round_aux_rounds. rewrite Hdig.
    replace (Zpos (digits2_pos m) + (e - ez) + ez) with (Zpos (digits2_pos m) + e) by lia.
    lia.
Qed.

(** *** Conversion of a positive integer *)

Lemma float64_of_int_rounds (n : Z) :
  0 < n -> rounds_to (inject_Z n) (Go.float64_of_int n).
Proof.
  intros Hn. destruct n as [|p|p]; try lia.
  unfold Go.float64_of_int, binary_normalize.
  apply (rounds_to_ext (inject_Z (Zpos p) * Qpower 2 0)).
  - simpl Qpower. ring.
  - apply binary_round_rounds.
Qed.

(** *** Multiplication *)

Lemma digits2_pos_mul (mx my : positive) :
  Zpos (digits2_pos mx) + Zpos (digits2_pos my) - 1 <= Zpos (digits2_pos (mx * my)).
Proof.
  pose proof (digits2_pos_bounds mx) as [Xlo _].
  pose proof (digits2_pos_bounds my) as [Ylo _].
  pose proof (digits2_pos_bounds (mx * my)) as [_ Phi].
  set (dx := Zpos (digits2_pos mx)) in *. set (dy := Zpos (digits2_pos my)) in *.
  set (d := Zpos (digits2_pos (mx * my))) in *.
  assert (Hdx : 1 <= dx) by (unfold dx; lia).
  assert (Hdy : 1 <= dy) by (unfold dy; lia).
  assert (Hd : 1 <= d) by (unfold d; lia).
  destruct (Z_le_gt_dec (dx + dy - 1) d) as [H|H]; [exact H|exfalso].
  pose proof (pow2_le d (dx + dy - 2) ltac:(lia)) as Hle.
  replace (dx + dy - 2) with ((dx - 1) + (dy - 1)) in Hle by lia.
  rewrite Z.pow_add_r in Hle by lia.
  rewrite Pos2Z.inj_mul in Phi.
  pose proof (pow2_pos (dx - 1) ltac:(lia)). pose proof (pow2_pos (dy - 1) ltac:(lia)).
  nia.
Qed.

Lemma fmul_rounds (x y : Go.float64) :
  finite_nonneg x -> finite_nonneg y ->
  (0 < Go.val x)%Q -> (0 < Go.val y)%Q ->
  rounds_to (Go.val x * Go.val y) (Go.fmul x y).
Proof.
  intros Hx Hy Hxp Hyp.
  destruct x as [sx|sx| |[|] mx ex]; simpl in Hx; try contradiction;
    [exfalso; simpl in Hxp; lra|].
  destruct y as [sy|sy| |[|] my ey]; simpl in Hy; try contradiction;
    [exfalso; simpl in Hyp; lra|].
  unfold Go.fmul, SFmul. simpl xorb.
  apply (rounds_to_ext (inject_Z (Zpos (mx * my)) * Qpower 2 (ex + ey))).
  - rewrite !val_finite, Pos2Z.inj_mul, inject_Z_mult, Qpow2_add. ring.
  - apply binary_round_aux_rounds. rewrite fexp_eq.
    destruct (bounded_inv mx ex Hx) as [Hex _].
    destruct (bounded_inv my ey Hy) as [Hey _].
    pose proof (digits2_pos_mul mx my). lia.
Qed.

Lemma fmul_zero_l (x y : Go.float64) :
  finite_nonneg x -> finite_nonneg y -> (Go.val x == 0)%Q ->
  finite_nonneg (Go.fmul x y) /\ (Go.val (Go.fmul x y) == 0)%Q.
Proof.
  intros Hx Hy Hz.
  destruct x as [sx|sx| |[|] mx ex]; simpl in Hx; try contradiction.
  - destruct y as [sy|sy| |[|] my ey]; simpl in Hy; try contradiction;
      simpl; split; try exact I; reflexivity.
  - exfalso. pose proof (val_pos mx ex). lra.
Qed.

Lemma fmul_zero_r (x y : Go.float64) :
  finite_nonneg x -> finite_nonneg y -> (Go.val y == 0)%Q ->
  finite_nonneg (Go.fmul x y) /\ (Go.val (Go.fmul x y) == 0)%Q.
Proof.
  intros Hx Hy Hz.
  destruct y as [sy|sy| |[|] my ey]; simpl in Hy; try contradiction.
  - destruct x as [sx|sx| |[|] mx ex]; simpl in Hx; try contradiction;
      simpl; split; try exact I; reflexivity.
  - exfalso. pose proof (val_pos my ey). lra.
Qed.

(** *** Addition *)

Lemma fadd_rounds (x y : Go.float64) :
  finite_nonneg x -> finite_nonneg y ->
  (0 < Go.val x)%Q -> (0 < Go.val y)%Q ->
  rounds_to (Go.val x + Go.val y) (Go.fadd x y).
Proof.
  intros Hx Hy Hxp Hyp.
  destruct x as [sx|sx| |[|] mx ex]; simpl in Hx; try contradiction;
    [exfalso; simpl in Hxp; lra|].
  destruct y as [sy|sy| |[|] my ey]; simpl in Hy; try contradiction;
    [exfalso; simpl in Hyp; lra|].
  unfold Go.fadd, SFadd. cbn [cond_Zopp].
  pose proof (shl_align_spec mx ex (Z.min ex ey)) as Hsx.
  pose proof (shl_align_spec my ey (Z.min ex ey)) as Hsy.
  cbv zeta in Hsx, Hsy.
  destruct (shl_align mx ex (Z.min ex ey)) as [mx' ex'].
  destruct (shl_align my ey (Z.min ex ey)) as [my' ey'].
  cbn [fst snd] in *. destruct Hsx as [Hex' Hmx']. destruct Hsy as [Hey' Hmy'].
  assert (Hex'' : ex' = Z.min ex ey) by lia.
  assert (Hey'' : ey' = Z.min ex ey) by lia.
  change (Zpos mx' + Zpos my') with (Zpos (mx' + my')).
  unfold binary_normalize.
  apply (rounds_to_ext (inject_Z (Zpos (mx' + my')) * Qpower 2 (Z.min ex ey))).
  - rewrite !val_finite, Pos2Z.inj_add, inject_Z_plus, Hmx', Hmy'.
    rewrite (dyadic_shift (Zpos mx) ex (Z.min ex ey)) by lia.
    rewrite (dyadic_shift (Zpos my) ey (Z.min ex ey)) by lia.
    rewrite Hex'', Hey''. ring.
  - apply binary_round_rounds.
Qed.

Lemma fadd_zero_r (x y : Go.float64) :
  finite_nonneg x -> finite_nonneg y -> (0 < Go.val x)%Q -> (Go.val y == 0)%Q ->
  Go.fadd x y = x.
Proof.
  intros Hx Hy Hxp Hz.
  destruct x as [sx|sx| |[|] mx ex]; simpl in Hx; try contradiction;
    [exfalso; simpl in Hxp; lra|].
  destruct y as [sy|sy| |[|] my ey]; simpl in Hy; try contradiction.
  - reflexivity.
  - exfalso. pose proof (val_pos my ey). lra.
Qed.

(** *** Comparison *)

Lemma canonical_lt (m1 : positive) (e1 : Z) (m2 : positive) (e2 : Z) :
  bounded 53 1024 m1 e1 = true -> bounded 53 1024 m2 e2 = true -> e1 < e2 ->
  (Go.val (S754_finite false m1 e1) < Go.val (S754_finite false m2 e2))%Q.
Proof.
  intros H1 H2 Hlt. rewrite !val_finite.
  destruct (bounded_inv m1 e1 H1) as [He1 _].
  destruct (bounded_inv m2 e2 H2) as [He2 _].
  pose proof (digits2_pos_bounds m1) as [_ B1].
  pose proof (digits2_pos_bounds m2) as [B2 _].
  pose proof (dyadic_below (Zpos m1) (Zpos (digits2_pos m1)) e1 ltac:(lia) B1) as Ha.
  pose proof (dyadic_above (Zpos m2) (Zpos (digits2_pos m2)) e2 ltac:(lia) B2) as Hb.
  pose proof (Qpow2_le (Zpos (digits2_pos m1) + e1) (Zpos (digits2_pos m2) - 1 + e2)
                ltac:(lia)) as Hc.
  lra.
Qed.

Lemma fgt_spec (x y : Go.float64) :
  finite_nonneg x -> finite_nonneg y ->
  (Go.fgt x y = true <-> (Go.val y < Go.val x)%Q).
Proof.
  intros Hx Hy. unfold Go.fgt, SFltb.
  destruct x as [sx|sx| |[|] mx ex]; simpl in Hx; try contradiction;
    destruct y as [sy|sy| |[|] my ey]; simpl in Hy; try contradiction.
  - simpl. split; [discriminate | intros H; lra].
  - simpl SFcompare. cbv iota. pose proof (val_pos my ey) as Hp.
    simpl (Go.val (S754_zero sx)). split; [discriminate | intros H; lra].
  - simpl SFcompare. cbv iota. pose proof (val_pos mx ex) as Hp.
    simpl (Go.val (S754_zero sy)). split; [intros _; exact Hp | reflexivity].
  - simpl SFcompare. destruct (Z.compare_spec ey ex) as [Heq|Hlt|Hgt].
    + subst ey. rewrite !val_finite, dyadic_lt.
      rewrite Pos.compare_cont_spec. simpl Pos.switch_Eq.
      destruct (Pos.compare_spec my mx) as [E|E|E]; split; try discriminate; try lia;
        intros _; try reflexivity; lia.
    + split; [intros _; apply canonical_lt; assumption | reflexivity].
    + pose proof (canonical_lt mx ex my ey Hx Hy Hgt). split; [discriminate | intros H'; lra].
Qed.

Lemma fgt_infinity (y : Go.float64) :
  finite_nonneg y -> Go.fgt (S754_infinity false) y = true.
Proof.
  destruct y as [sy|sy| |[|] my ey]; simpl; try contradiction; reflexivity.
Qed.

(** *** Powers of two *)

Lemma Pow2_pack (k : Z) :
  -1022 <= k -> Go.Pow2 k = pack false (2 ^ 52) (k - 52).
Proof.
  intros Hk. unfold Go.Pow2.
  change (SFone 53 1024) with (S754_finite false 4503599627370496 (-52)).
  unfold SFldexp, binary_round.
  change (Zpos (digits2_pos 4503599627370496)) with 53.
  pose proof (shl_align_spec 4503599627370496 (-52 + k) (fexp 53 1024 (53 + (-52 + k)))) as H.
  cbv zeta in H.
  destruct (shl_align 4503599627370496 (-52 + k) (fexp 53 1024 (53 + (-52 + k)))) as [mz ez].
  cbn [fst snd] in H. rewrite fexp_eq in H. destruct H as [Hez Hmz].
  assert (Hez' : ez = k - 52) by lia. clear Hez. subst ez.
  replace (-52 + k - (k - 52)) with 0 in Hmz by lia.
  assert (Hmz' : mz = 4503599627370496%positive) by (simpl in Hmz; lia). subst mz.
  assert (HeE : k - 52 <= fexp 53 1024 (Zpos (digits2_pos 4503599627370496) + (k - 52))).
  { change (Zpos (digits2_pos 4503599627370496)) with 53. rewrite fexp_eq. lia. }
  destruct (binary_round_aux_pack false 4503599627370496 (k - 52) HeE)
    as (m1 & _ & Hexact & _ & ->).
  change (Zpos (digits2_pos 4503599627370496)) with 53 in *. rewrite fexp_eq in *.
  replace (Z.max (53 + (k - 52) - 53) (-1074)) with (k - 52) in * by lia.
  rewrite Z.sub_diag in Hexact. rewrite Hexact by reflexivity. reflexivity.
Qed.

Lemma Pow2_finite (k : Z) :
  -1022 <= k <= 1023 ->
  Go.Pow2 k = S754_finite false 4503599627370496 (k - 52)
  /\ bounded 53 1024 4503599627370496 (k - 52) = true
  /\ (Go.val (Go.Pow2 k) == Qpower 2 k)%Q.
Proof.
  intros Hk. rewrite Pow2_pack by lia. unfold pack.
  change (2 ^ 52 =? 0) with false. change (2 ^ 52 =? 2 ^ 53) with false. cbv iota.
  destruct (Z.leb_spec (k - 52) 971) as [_|H]; [|lia].
  change (Z.to_pos (2 ^ 52)) with 4503599627370496%positive.
  split; [reflexivity|]. split.
  - apply bounded_intro; [|lia]. change (Zpos (digits2_pos 4503599627370496)) with 53. lia.
  - rewrite val_finite. replace k with (52 + (k - 52)) at 2 by lia.
    rewrite (dyadic_pow 52 (k - 52)) by lia. reflexivity.
Qed.

Lemma Pow2_infinity (k : Z) : 1024 <= k -> Go.Pow2 k = S754_infinity false.
Proof.
  intros Hk. rewrite Pow2_pack by lia. unfold pack.
  change (2 ^ 52 =? 0) with false. change (2 ^ 52 =? 2 ^ 53) with false. cbv iota.
  destruct (Z.leb_spec (k - 52) 971) as [H|_]; [lia | reflexivity].
Qed.

(** *** The delay computation *)

Lemma bounded_normal (m : positive) (e : Z) :
  Zpos (digits2_pos m) = 53 -> -1074 <= e <= 971 -> bounded 53 1024 m e = true.
Proof. intros Hd He. apply bounded_intro; lia. Qed.

Lemma bounded_digits (m : positive) (e : Z) :
  bounded 53 1024 m e = true -> -1074 < e -> Zpos (digits2_pos m) = 53.
Proof. intros Hb He. destruct (bounded_inv m e Hb) as [H _]. lia. Qed.

(** Every integer of [1, 2^53] is a float: a mantissa of 53 digits and an
    exponent. *)
Lemma canonical_of_int (D : Z) :
  1 <= D <= 2 ^ 53 ->
  exists (m : positive) (e : Z),
    Zpos (digits2_pos m) = 53 /\ -52 <= e <= 1
    /\ (inject_Z D == inject_Z (Zpos m) * Qpower 2 e)%Q.
Proof.
  intros HD. destruct D as [|p|p]; try lia.
  pose proof (digits2_pos_bounds p) as [Blo Bhi].
  set (d := Zpos (digits2_pos p)) in *.
  assert (Hd1 : 1 <= d) by (unfold d; lia).
  destruct (Z_le_gt_dec d 53) as [Hd|Hd].
  - exists (Z.to_pos (Zpos p * 2 ^ (53 - d))), (d - 53).
    pose proof (pow2_pos (53 - d) ltac:(lia)) as Hp.
    assert (Hm : Zpos (Z.to_pos (Zpos p * 2 ^ (53 - d))) = Zpos p * 2 ^ (53 - d)).
    { apply Z2Pos.id. lia. }
    split.
    { rewrite (digits2_pos_shift p _ (53 - d) ltac:(lia) Hm). fold d. lia. }
    split; [lia|].
    rewrite Hm.
    transitivity (inject_Z (Zpos p) * Qpower 2 0)%Q; [simpl Qpower; ring|].
    rewrite (dyadic_shift (Zpos p) 0 (d - 53)) by lia.
    replace (0 - (d - 53)) with (53 - d) by lia. reflexivity.
  - assert (Hp : Zpos p = 2 ^ 53).
    { pose proof (pow2_le 53 (d - 1) ltac:(lia)). lia. }
    exists 4503599627370496%positive, 1. split; [reflexivity|]. split; [lia|].
    rewrite Hp. reflexivity.
Qed.

(** The conversion of an integer of [0, 2^53] is exact. *)
Lemma float64_of_int_exact (n : Z) :
  0 <= n <= 2 ^ 53 ->
  finite_nonneg (Go.float64_of_int n) /\ (Go.val (Go.float64_of_int n) == inject_Z n)%Q.
Proof.
  intros Hn. destruct (Z.eq_dec n 0) as [->|Hne].
  - split; [exact I | reflexivity].
  - destruct (canonical_of_int n ltac:(lia)) as (m & e & Hd & He & Hv).
    pose proof (bounded_normal m e Hd ltac:(lia)) as Hb.
    destruct (float64_of_int_rounds n ltac:(lia)) as (_ & Hlo & Hup).
    destruct (Hup m e Hb) as [Hfin Hle]; [rewrite val_finite, Hv; apply Qle_refl|].
    split; [exact Hfin|].
    destruct (Hlo m e Hb) as [Hinf | Hge]; [rewrite val_finite, Hv; apply Qle_refl | |].
    + rewrite Hinf in Hfin. contradiction.
    + rewrite val_finite in Hle, Hge. rewrite <- Hv in Hle, Hge. lra.
Qed.

Lemma finite_nonneg_pos (x : Go.float64) :
  finite_nonneg x -> (0 < Go.val x)%Q ->
  exists m e, x = S754_finite false m e /\ bounded 53 1024 m e = true.
Proof.
  destruct x as [s|s| |[|] m e]; simpl; try contradiction; intros H Hp.
  - exfalso. lra.
  - exists m, e. split; [reflexivity | exact H].
Qed.

Lemma inject_Z_pow2 (k : Z) : 0 <= k -> (inject_Z (2 ^ k) == Qpower 2 k)%Q.
Proof. intros Hk. symmetry. apply Qpow2_Z. exact Hk. Qed.

Section Backoff.

Variable r : retryConfig.
Variable k : Z.
Hypothesis Hk : 0 <= k.
Hypothesis HD : 0 <= initialDelay r <= 2 ^ 53.
Hypothesis HM : 0 <= maxDelay r <= 2 ^ 53.
Hypothesis Hzero : initialDelay r = 0 -> k < 1024.

(** The product [float64(initialDelay) * math.Pow(2, attempt)]: the exact
    product, or a float above every duration the cap can be. *)
Lemma product_value :
  let p := Go.fmul (Go.float64_of_int (initialDelay r)) (Go.Pow2 k) in
  (finite_nonneg p /\ (Go.val p == inject_Z (initialDelay r * 2 ^ k))%Q)
  \/ (2 ^ 53 < initialDelay r * 2 ^ k
      /\ (p = S754_infinity false
          \/ finite_nonneg p /\ (inject_Z (2 ^ 53) < Go.val p)%Q)).
Proof.
  intros p. subst p.
  destruct (float64_of_int_exact (initialDelay r) HD) as [Hfin Hval].
  destruct (Z.eq_dec (initialDelay r) 0) as [H0|Hne].
  - left. destruct (Pow2_finite k ltac:(lia)) as (Hpow & Hb & _).
    rewrite H0 in *. rewrite Hpow. split; [exact I|]. simpl. reflexivity.
  - assert (Hpos : (0 < Go.val (Go.float64_of_int (initialDelay r)))%Q).
    { rewrite Hval. change 0%Q with (inject_Z 0). rewrite <- Zlt_Qlt. lia. }
    destruct (canonical_of_int (initialDelay r) ltac:(lia)) as (m & e & Hd & He & Hv).
    pose proof (pow2_pos k Hk) as Hpk.
    destruct (Z_le_gt_dec k 1023) as [Hsmall|Hbig].
    + destruct (Pow2_finite k ltac:(lia)) as (Hpow & Hb & Hpv).
      assert (Hrounds : rounds_to (inject_Z (Zpos m) * Qpower 2 (e + k))
                          (Go.fmul (Go.float64_of_int (initialDelay r)) (Go.Pow2 k))).
      { apply (rounds_to_ext (Go.val (Go.float64_of_int (initialDelay r))
                              * Go.val (Go.Pow2 k))).
        - rewrite Hval, Hpv, Hv, Qpow2_add. ring.
        - apply fmul_rounds; try assumption.
          + rewrite Hpow. exact Hb.
          + rewrite Hpv. apply Qpow2_pos. }
      assert (Hexactv : (inject_Z (initialDelay r * 2 ^ k)
                         == inject_Z (Zpos m) * Qpower 2 (e + k))%Q).
      { rewrite inject_Z_mult, Hv, inject_Z_pow2, Qpow2_add by lia. ring. }
      destruct Hrounds as (Hshape & Hlo & Hup).
      destruct (Z_le_gt_dec (e + k) 971) as [Hin|Hout].
      * left. pose proof (bounded_normal m (e + k) Hd ltac:(lia)) as Hbk.
        destruct (Hup m (e + k) Hbk) as [Hf Hle]; [rewrite val_finite; apply Qle_refl|].
        split; [exact Hf|].
        destruct (Hlo m (e + k) Hbk) as [Hinf | Hge]; [rewrite val_finite; apply Qle_refl| |].
        -- rewrite Hinf in Hf. contradiction.
        -- rewrite val_finite in Hle, Hge. rewrite Hexactv. lra.
      * right.
        pose proof (bounded_normal m 971 Hd ltac:(lia)) as Hb971.
        pose proof (digits2_pos_bounds m) as [Bm _]. rewrite Hd in Bm.
        assert (Hbig : (inject_Z (2 ^ 53) < inject_Z (Zpos m) * Qpower 2 971)%Q).
        { rewrite (dyadic_shift (Zpos m) 971 0) by lia. simpl (Qpower 2 0).
          rewrite Qmult_1_r, <- Zlt_Qlt.
          pose proof (pow2_lt 1 (971 - 0) ltac:(lia)) as Hp. simpl (2 ^ 1) in Hp.
          simpl (53 - 1) in Bm. nia. }
        assert (Hmono : (inject_Z (Zpos m) * Qpower 2 971
                         <= inject_Z (Zpos m) * Qpower 2 (e + k))%Q).
        { apply Qmult_le_l; [change 0%Q with (inject_Z 0); rewrite <- Zlt_Qlt; lia|].
          apply Qpow2_le. lia. }
        split.
        { rewrite Zlt_Qlt, Hexactv. lra. }
        destruct Hshape as [Hf|Hinf]; [|left; exact Hinf].
        destruct (Hlo m 971 Hb971) as [Hinf | Hge]; [rewrite val_finite; exact Hmono| |].
        -- left. exact Hinf.
        -- right. split; [exact Hf|]. rewrite val_finite in Hge. lra.
    + right. rewrite (Pow2_infinity k ltac:(lia)).
      destruct (finite_nonneg_pos _ Hfin Hpos) as (mx & ex & -> & _).
      split; [|left; reflexivity].
      pose proof (pow2_lt 53 k ltac:(lia)). nia.
Qed.

End Backoff.

(** The backoff before jitter is exactly min(D * 2^k, maxDelay). *)
Lemma backoffOf_value (r : retryConfig) (k : Z) :
  0 <= k ->
  0 <= initialDelay r <= 2 ^ 53 ->
  0 <= maxDelay r <= 2 ^ 53 ->
  (initialDelay r = 0 -> k < 1024) ->
  finite_nonneg (backoffOf r k)
  /\ (Go.val (backoffOf r k) == inject_Z (Z.min (initialDelay r * 2 ^ k) (maxDelay r)))%Q.
Proof.
  intros Hk HD HM Hzero. unfold backoffOf.
  destruct (float64_of_int_exact (maxDelay r) HM) as [Hcf Hcv].
  destruct (product_value r k Hk HD Hzero) as [[Hpf Hpv] | [Hbig Hp]].
  - destruct (Go.fgt _ _) eqn:Hgt.
    + apply fgt_spec in Hgt; [|assumption|assumption].
      rewrite Hpv, Hcv, <- Zlt_Qlt in Hgt.
      split; [exact Hcf|]. rewrite Hcv, Z.min_r by lia. reflexivity.
    + split; [exact Hpf|]. rewrite Hpv.
      assert (Hle : initialDelay r * 2 ^ k <= maxDelay r).
      { destruct (Z_le_gt_dec (initialDelay r * 2 ^ k) (maxDelay r)) as [H|H]; [exact H|].
        exfalso. assert (Hgt' : Go.fgt (Go.fmul (Go.float64_of_int (initialDelay r)) (Go.Pow2 k))
                                  (Go.float64_of_int (maxDelay r)) = true).
        { apply fgt_spec; [assumption|assumption|]. rewrite Hpv, Hcv, <- Zlt_Qlt. lia. }
        congruence. }
      rewrite Z.min_l by lia. reflexivity.
  - assert (Hgt : Go.fgt (Go.fmul (Go.float64_of_int (initialDelay r)) (Go.Pow2 k))
                    (Go.float64_of_int (maxDelay r)) = true).
    { destruct Hp as [-> | [Hpf Hpv]].
      - apply fgt_infinity. exact Hcf.
      - apply fgt_spec; [assumption|assumption|]. rewrite Hcv.
        assert (inject_Z (maxDelay r) <= inject_Z (2 ^ 53))%Q by (rewrite <- Zle_Qle; lia).
        lra. }
    rewrite Hgt. split; [exact Hcf|]. rewrite Hcv, Z.min_r by lia. reflexivity.
Qed.

Lemma half_bounded : bounded 53 1024 4503599627370496 (-53) = true.
Proof. reflexivity. Qed.

Lemma one_bounded : bounded 53 1024 4503599627370496 (-52) = true.
Proof. reflexivity. Qed.

Lemma val_half : (Go.val Go.half == 1 # 2)%Q.
Proof. reflexivity. Qed.

Lemma val_one : (Go.val (S754_finite false 4503599627370496 (-52)) == 1)%Q.
Proof. reflexivity. Qed.

(** The factor [0.5 + rand.Float64()*0.5] is a float of [0.5, 1]. *)
Lemma jitter_factor (u : Go.float64) :
  unitInterval u ->
  let f := Go.fadd Go.half (Go.fmul u Go.half) in
  finite_nonneg f /\ ((1 # 2) <= Go.val f <= 1)%Q.
Proof.
  intros [Hu Hu1] f. subst f.
  pose proof (val_nonneg u Hu) as Hu0.
  assert (Hhalf : finite_nonneg Go.half) by exact half_bounded.
  assert (Hhp : (0 < Go.val Go.half)%Q) by (rewrite val_half; reflexivity).
  assert (Ht : finite_nonneg (Go.fmul u Go.half)
               /\ (0 <= Go.val (Go.fmul u Go.half) <= 1 # 2)%Q).
  { destruct (Qlt_le_dec 0 (Go.val u)) as [Hpos|Hz].
    - destruct (fmul_rounds u Go.half Hu Hhalf Hpos Hhp) as (_ & _ & Hup).
      destruct (Hup _ _ half_bounded) as [Hf Hle].
      + change (S754_finite false 4503599627370496 (-53)) with Go.half.
        rewrite val_half. nra.
      + change (S754_finite false 4503599627370496 (-53)) with Go.half in Hle.
        rewrite val_half in Hle. split; [exact Hf|].
        split; [apply val_nonneg; exact Hf | exact Hle].
    - destruct (fmul_zero_l u Go.half Hu Hhalf ltac:(lra)) as [Hf Hv].
      split; [exact Hf|]. rewrite Hv. split; [apply Qle_refl | discriminate]. }
  destruct Ht as (Htf & Ht0 & Ht1).
  destruct (Qlt_le_dec 0 (Go.val (Go.fmul u Go.half))) as [Hpos|Hz].
  - destruct (fadd_rounds Go.half (Go.fmul u Go.half) Hhalf Htf Hhp Hpos) as (_ & Hlo & Hup).
    destruct (Hup _ _ one_bounded) as [Hf Hle]; [rewrite val_one, val_half; lra|].
    rewrite val_one in Hle. split; [exact Hf|]. split; [|exact Hle].
    destruct (Hlo _ _ half_bounded) as [Hinf|Hge].
    + change (S754_finite false 4503599627370496 (-53)) with Go.half. lra.
    + rewrite Hinf in Hf. contradiction.
    + change (S754_finite false 4503599627370496 (-53)) with Go.half in Hge.
      rewrite val_half in Hge. exact Hge.
  - rewrite (fadd_zero_r Go.half (Go.fmul u Go.half) Hhalf Htf Hhp ltac:(lra)).
    split; [exact Hhalf|]. rewrite val_half. split; [apply Qle_refl | discriminate].
Qed.

(** The product of a float [b >= 1] by a factor of [0.5, 1] stays between
    [b / 2] and [b]. *)
Lemma scaled_between (b f : Go.float64) :
  finite_nonneg b -> finite_nonneg f ->
  (1 <= Go.val b)%Q -> ((1 # 2) <= Go.val f <= 1)%Q ->
  finite_nonneg (Go.fmul b f)
  /\ ((1 # 2) * Go.val b <= Go.val (Go.fmul b f) <= Go.val b)%Q.
Proof.
  intros Hb Hf Hb1 [Hf0 Hf1].
  destruct (finite_nonneg_pos b Hb ltac:(lra)) as (mb & eb & -> & Hbb).
  assert (Heb : -1074 < eb).
  { destruct (Z_lt_le_dec (-1074) eb) as [H|H]; [exact H|exfalso].
    rewrite val_finite in Hb1.
    pose proof (digits2_pos_bounds mb) as [_ Bhi].
    destruct (bounded_inv mb eb Hbb) as [Hc _].
    pose proof (dyadic_below (Zpos mb) (Zpos (digits2_pos mb)) eb ltac:(lia) Bhi) as Hlt.
    pose proof (Qpow2_le (Zpos (digits2_pos mb) + eb) 0 ltac:(lia)) as Hle.
    simpl (Qpower 2 0) in Hle. lra. }
  pose proof (bounded_digits mb eb Hbb Heb) as Hd.
  pose proof (bounded_normal mb (eb - 1) Hd) as Hbh.
  destruct (bounded_inv mb eb Hbb) as [_ He971].
  specialize (Hbh ltac:(lia)).
  assert (Hhv : (Go.val (S754_finite false mb (eb - 1))
                 == (1 # 2) * Go.val (S754_finite false mb eb))%Q).
  { rewrite !val_finite. replace eb with (1 + (eb - 1)) at 2 by lia.
    rewrite (dyadic_pow 1 (eb - 1)) by lia.
    change (inject_Z (2 ^ 1)) with 2%Q. field. }
  destruct (fmul_rounds (S754_finite false mb eb) f Hb Hf ltac:(lra) ltac:(lra))
    as (_ & Hlo & Hup).
  destruct (Hup mb eb Hbb) as [Hfin Hle]; [nra|].
  split; [exact Hfin|]. split; [|exact Hle].
  destruct (Hlo mb (eb - 1) Hbh) as [Hinf|Hge]; [rewrite Hhv; nra| |].
  - rewrite Hinf in Hfin. contradiction.
  - rewrite Hhv in Hge. exact Hge.
Qed.

Lemma truncate_floor (x : Go.float64) :
  finite_nonneg x ->
  exists z, Go.truncate x = Some z /\ 0 <= z
            /\ (inject_Z z <= Go.val x < inject_Z (z + 1))%Q.
Proof.
  destruct x as [s|s| |[|] m e]; cbn [finite_nonneg]; try contradiction; intros Hb.
  - exists 0. split; [reflexivity|]. split; [lia|]. split; [apply Qle_refl | reflexivity].
  - unfold Go.truncate, cond_Zopp. eexists. split; [reflexivity|]. rewrite val_finite.
    destruct (Z.leb_spec 0 e) as [He|He].
    + pose proof (pow2_pos e He). split; [nia|].
      rewrite (dyadic_shift (Zpos m) e 0) by lia. rewrite Z.sub_0_r.
      simpl (Qpower 2 0). rewrite Qmult_1_r.
      split; [apply Qle_refl | rewrite <- Zlt_Qlt; lia].
    + pose proof (pow2_pos (- e) ltac:(lia)) as Hp.
      set (z := Zpos m / 2 ^ (- e)).
      pose proof (Z.div_mod (Zpos m) (2 ^ (- e)) ltac:(lia)) as Hdm.
      pose proof (Z.mod_pos_bound (Zpos m) (2 ^ (- e)) Hp) as Hmb. fold z in Hdm.
      assert (Hz0 : 0 <= z) by (apply Z.div_pos; lia).
      split; [exact Hz0|].
      assert (Hsh : forall a, (inject_Z a == inject_Z (a * 2 ^ (- e)) * Qpower 2 e)%Q).
      { intros a. transitivity (inject_Z a * Qpower 2 0)%Q; [simpl Qpower; ring|].
        rewrite (dyadic_shift a 0 e) by lia. replace (0 - e) with (- e) by lia.
        reflexivity. }
      rewrite (Hsh z), (Hsh (z + 1)). split; [apply dyadic_le | apply dyadic_lt]; nia.
Qed.

(** The delay of the exponential branch: the jittered backoff is a finite
    float between half the capped backoff and the capped backoff, and the
    delay is its integer part. *)
Lemma exponentialDelay_bounds (r : retryConfig) (k : Z) (u : Go.float64)
    (indefinite : Go.float64 -> Z) :
  0 <= k ->
  0 <= initialDelay r <= 2 ^ 53 ->
  0 <= maxDelay r <= 2 ^ 53 ->
  (initialDelay r = 0 -> k < 1024) ->
  unitInterval u ->
  let B := Z.min (initialDelay r * 2 ^ k) (maxDelay r) in
  finite_nonneg (jitterOf r k u)
  /\ ((1 # 2) * inject_Z B <= Go.val (jitterOf r k u) <= inject_Z B)%Q
  /\ Go.truncate (jitterOf r k u) = Some (exponentialDelay r k u indefinite)
  /\ B / 2 <= exponentialDelay r k u indefinite <= B.
Proof.
  intros Hk HD HM Hzero Hu B.
  destruct (backoffOf_value r k Hk HD HM Hzero) as [Hbf Hbv]. fold B in Hbv.
  destruct (jitter_factor u Hu) as [Hff Hfv]. cbv zeta in Hff, Hfv.
  pose proof (pow2_pos k Hk) as Hpk.
  assert (HB : 0 <= B <= 2 ^ 53) by (unfold B; nia).
  assert (Hj : finite_nonneg (jitterOf r k u)
               /\ ((1 # 2) * inject_Z B <= Go.val (jitterOf r k u) <= inject_Z B)%Q).
  { unfold jitterOf. destruct (Z.eq_dec B 0) as [HB0|HBn].
    - destruct (fmul_zero_l (backoffOf r k) _ Hbf Hff) as [Hf Hv].
      + rewrite Hbv, HB0. reflexivity.
      + split; [exact Hf|]. rewrite Hv, HB0. split; discriminate.
    - assert (Hb1 : (1 <= Go.val (backoffOf r k))%Q).
      { rewrite Hbv. change 1%Q with (inject_Z 1). rewrite <- Zle_Qle. lia. }
      destruct (scaled_between (backoffOf r k) _ Hbf Hff Hb1 Hfv) as [Hf Hv].
      split; [exact Hf|]. rewrite Hbv in Hv. exact Hv. }
  destruct Hj as [Hjf Hjv]. split; [exact Hjf|]. split; [exact Hjv|].
  unfold exponentialDelay, Go.int64_of_float64.
  destruct (truncate_floor (jitterOf r k u) Hjf) as (z & -> & Hz0 & Hzlo & Hzhi).
  assert (HzB : z <= B).
  { rewrite Zle_Qle. lra. }
  assert (HBz : B < 2 * (z + 1)).
  { rewrite Zlt_Qlt, inject_Z_mult. change (inject_Z 2) with 2%Q. lra. }
  assert (Hrange : (Go.minInt64 <=? z) && (z <=? Go.maxInt64) = true).
  { unfold Go.minInt64, Go.maxInt64. apply andb_true_intro. split; apply Z.leb_le; lia. }
  rewrite Hrange. split; [reflexivity|]. split; [|exact HzB].
  assert (B / 2 < z + 1) by (apply Z.div_lt_upper_bound; lia). lia.
Qed.

(** With an initial delay of zero the product is 0 * Inf from attempt 1024
    on: the backoff is a NaN, which no comparison caps, and the delay is
    what the platform converts a NaN to. *)
Lemma backoffOf_zero_delay_nan (r : retryConfig) (k : Z) :
  initialDelay r = 0 -> 1024 <= k -> backoffOf r k = S754_nan.
Proof.
  intros HD Hk. unfold backoffOf. rewrite HD, (Pow2_infinity k Hk).
  change (Go.fmul (Go.float64_of_int 0) (S754_infinity false)) with S754_nan.
  destruct (Go.float64_of_int (maxDelay r)) as [s|s| |s m e]; reflexivity.
Qed.

Lemma calculateDelay_zero_delay_nan (r : retryConfig) (k : Z) (u : Go.float64)
    (indefinite : Go.float64 -> Z) :
  initialDelay r = 0 -> 1024 <= k ->
  calculateDelay r k None u indefinite = Go.wrap64 (indefinite S754_nan).
Proof.
  intros HD Hk. unfold calculateDelay, exponentialDelay, jitterOf.
  rewrite (backoffOf_zero_delay_nan r k HD Hk). reflexivity.
Qed.

(** The capped backoff of the specification is an integer for the attempts
    of the loop. *)
Lemma cappedBackoff_int (r : retryConfig) (k : Z) :
  0 <= k ->
  (cappedBackoff r k == inject_Z (Z.min (initialDelay r * 2 ^ k) (maxDelay r)))%Q.
Proof.
  intros Hk. unfold cappedBackoff.
  rewrite (Qpow2_Z k Hk), <- inject_Z_mult.
  destruct (Z.le_ge_cases (initialDelay r * 2 ^ k) (maxDelay r)) as [H|H].
  - rewrite Z.min_l by exact H. apply Q.min_l. rewrite <- Zle_Qle. exact H.
  - rewrite Z.min_r by exact H. apply Q.min_r. rewrite <- Zle_Qle. exact H.
Qed.

Lemma calculateDelay_no_hint (r : retryConfig) (k : Z) (u : Go.float64)
    (indefinite : Go.float64 -> Z) :
  calculateDelay r k None u indefinite = exponentialDelay r k u indefinite
  /\ calculateDelay r k (Some {| retryAfter := "" |}) u indefinite
     = exponentialDelay r k u indefinite.
Proof. split; reflexivity. Qed.

(** C5, as stated, fails: the text [-1] is not a non-negative integer, yet
    it does not fall through to the exponential backoff; the delay is minus
    one second. *)
Lemma C5_retry_after_counterexample :
  ~ (forall (r : retryConfig) (k : Z) (ra : string) (u : Go.float64)
            (indefinite : Go.float64 -> Z),
       (nonNegativeInteger ra ->
          exists n, Go.Atoi ra = Some n
                    /\ calculateDelay r k (Some {| retryAfter := ra |}) u indefinite
                       = n * Second)
       /\ (~ nonNegativeInteger ra ->
          calculateDelay r k (Some {| retryAfter := ra |}) u indefinite
          = exponentialDelay r k u indefinite)).
Proof.
  intros H.
  destruct (H (Fixtures.policy 3) 0 "-1" (S754_zero false) Fixtures.amd64) as [_ Hfall].
  assert (Hnot : ~ nonNegativeInteger "-1").
  { intros (n & Hn & Hparse). vm_compute in Hparse. injection Hparse as <-. lia. }
  specialize (Hfall Hnot). vm_compute in Hfall. discriminate Hfall.
Qed.

(** A retry-after of 9223372037 seconds does not fit a [time.Duration]: the
    product wraps around. *)
Example calculateDelay_retry_after_overflow :
  calculateDelay (Fixtures.policy 3) 0 (Some {| retryAfter := "9223372037" |})
    (S754_zero false) Fixtures.amd64
  = -9223372036709551616.
Proof. reflexivity. Qed.

(** C5, amended. A retry-after text that [strconv.Atoi] accepts as the
    integer [n], of either sign, makes the delay [n] seconds in 64-bit
    nanoseconds, whatever the attempt, the configuration and the random
    draw: exactly [n] seconds when that fits a [time.Duration].  A text
    that [strconv.Atoi] rejects falls through to the exponential backoff. *)
Theorem C5_retry_after_delay (r : retryConfig) (k : Z) (ra : string) (u : Go.float64)
    (indefinite : Go.float64 -> Z) :
  (forall n, Go.Atoi ra = Some n ->
     calculateDelay r k (Some {| retryAfter := ra |}) u indefinite = Go.wrap64 (n * Second)
     /\ (-9223372036 <= n <= 9223372036 ->
         calculateDelay r k (Some {| retryAfter := ra |}) u indefinite = n * Second))
  /\ (Go.Atoi ra = None ->
      calculateDelay r k (Some {| retryAfter := ra |}) u indefinite
      = exponentialDelay r k u indefinite).
Proof.
  unfold calculateDelay. simpl. split.
  - intros n Hn. destruct (String.eqb ra "") eqn:He.
    + apply String.eqb_eq in He. subst ra. discriminate Hn.
    + rewrite Hn. split; [reflexivity|]. intros Hr.
      apply wrap64_in_range. unfold Go.minInt64, Go.maxInt64, Second. lia.
  - intros ->. destruct (String.eqb ra ""); reflexivity.
Qed.

(** C5 on the header of the test-suite, [Retry-After: 2]: two seconds, at
    any attempt and for any draw. *)
Lemma C5_retry_after_delay_witness :
  calculateDelay {| maxRetries := 0; initialDelay := Millisecond; maxDelay := 3600 * Second |}
    0 (Some {| retryAfter := "2" |}) Fixtures.quarter Fixtures.amd64
  = 2 * Second.
Proof.
  apply (C5_retry_after_delay
           {| maxRetries := 0; initialDelay := Millisecond; maxDelay := 3600 * Second |}
           0 "2" Fixtures.quarter Fixtures.amd64); [reflexivity | lia].
Defined.

(** C6, as stated, fails: the conversion to [time.Duration] drops the
    fraction, so with D = 3ns (cap 10ns) and a draw of 0 the delay is 1ns,
    below 0.5 * 3ns. *)
Lemma C6_backoff_interval_counterexample :
  ~ (forall (r : retryConfig) (k : Z) (u : Go.float64) (indefinite : Go.float64 -> Z),
       0 <= k -> 0 < initialDelay r <= maxDelay r -> unitInterval u ->
       ((1 # 2) * cappedBackoff r k <= inject_Z (calculateDelay r k None u indefinite)
        <= cappedBackoff r k)%Q).
Proof.
  intros H.
  destruct (H {| maxRetries := 3; initialDelay := 3; maxDelay := 10 |} 0
              (S754_zero false) Fixtures.amd64)
    as [Hlow _]; [lia | simpl; lia | split; [exact I | reflexivity] |].
  vm_compute in Hlow. apply Hlow. reflexivity.
Qed.

(** C6, amended. For an attempt [k >= 0] with no retry-after hint (a nil
    hint, or an empty retry-after), an initial delay and a cap between 0 and
    2^53 nanoseconds (which float64 holds exactly), and every draw of
    [rand.Float64], a float of [0,1): the backoff the code computes in
    float64 is b = min(D * 2^k, maxDelay), the jittered backoff is a finite
    float of [0.5 * b, b], and the delay is that float with its fraction
    dropped, so it is at most b and more than 0.5 * b - 1 (nanoseconds).
    With D = 0 this holds for the attempts below 1024: from there on the
    product is 0 * Inf. *)
Theorem C6_backoff_interval (r : retryConfig) (k : Z) (u : Go.float64)
    (indefinite : Go.float64 -> Z) :
  0 <= k ->
  0 <= initialDelay r <= 2 ^ 53 ->
  0 <= maxDelay r <= 2 ^ 53 ->
  (initialDelay r = 0 -> k < 1024) ->
  unitInterval u ->
  let delay := calculateDelay r k None u indefinite in
  finite_nonneg (backoffOf r k)
  /\ (Go.val (backoffOf r k) == cappedBackoff r k)%Q
  /\ finite_nonneg (jitterOf r k u)
  /\ ((1 # 2) * cappedBackoff r k <= Go.val (jitterOf r k u) <= cappedBackoff r k)%Q
  /\ Go.truncate (jitterOf r k u) = Some delay
  /\ (inject_Z delay <= cappedBackoff r k)%Q
  /\ ((1 # 2) * cappedBackoff r k < inject_Z (delay + 1))%Q
  /\ Qfloor ((1 # 2) * cappedBackoff r k) <= delay
  /\ calculateDelay r k (Some {| retryAfter := "" |}) u indefinite = delay.
Proof.
  intros Hk HD HM Hzero Hu delay.
  destruct (backoffOf_value r k Hk HD HM Hzero) as [Hbf Hbv].
  destruct (exponentialDelay_bounds r k u indefinite Hk HD HM Hzero Hu)
    as (Hjf & Hjv & Htr & Hlo & Hhi).
  cbv zeta in Hjv, Hlo, Hhi.
  pose proof (cappedBackoff_int r k Hk) as Hc.
  change (exponentialDelay r k u indefinite) with delay in Htr, Hlo, Hhi.
  set (B := Z.min (initialDelay r * 2 ^ k) (maxDelay r)) in *.
  destruct (truncate_floor (jitterOf r k u) Hjf) as (z & Hz & _ & Hzlo & Hzhi).
  rewrite Htr in Hz. injection Hz as <-.
  split; [exact Hbf|]. split; [rewrite Hc; exact Hbv|]. split; [exact Hjf|].
  split; [rewrite Hc; exact Hjv|]. split; [exact Htr|].
  split; [rewrite Hc, <- Zle_Qle; exact Hhi|].
  split; [rewrite Hc; lra|].
  split; [|reflexivity].
  apply Z.le_trans with (Qfloor (Go.val (jitterOf r k u))).
  - apply Qfloor_resp_le. rewrite Hc. apply Hjv.
  - assert (Hfl : Qfloor (Go.val (jitterOf r k u)) < delay + 1).
    { rewrite Zlt_Qlt. eapply Qle_lt_trans; [apply Qfloor_le | exact Hzhi]. }
    lia.
Qed.

(** C6 on the policy of the README (500ms, doubling, capped at 10s), third
    attempt, a draw of 0.25: the backoff is 2s and the delay 1.25s. *)
Lemma C6_backoff_interval_witness :
  Go.truncate (jitterOf Fixtures.readme 2 Fixtures.quarter)
  = Some (calculateDelay Fixtures.readme 2 None Fixtures.quarter Fixtures.amd64)
  /\ calculateDelay Fixtures.readme 2 None Fixtures.quarter Fixtures.amd64
     = 1250 * Millisecond.
Proof.
  split; [|reflexivity].
  apply (C6_backoff_interval Fixtures.readme 2 Fixtures.quarter Fixtures.amd64).
  - lia.
  - vm_compute. split; discriminate.
  - vm_compute. split; discriminate.
  - intros H. vm_compute in H. discriminate H.
  - split; [reflexivity | reflexivity].
Defined.

(** ** The request URL *)

Lemma sortedPairs_bind keys (v : Values) :
  sortedPairs keys v = merge_sort String.le keys ≫= pairsOfKey v.
Proof. reflexivity. Qed.

Lemma string_app_assoc (a b c : string) : ((a ++ b) ++ c = a ++ (b ++ c))%string.
Proof.
  induction a as [|x a IH]; [reflexivity|].
  change (String x ((a ++ b) ++ c) = String x (a ++ (b ++ c)))%string.
  rewrite IH. reflexivity.
Qed.

Lemma string_app_nonempty (a b : string) : b <> "" -> (a ++ b)%string <> "".
Proof. destruct a; [intros H; exact H | discriminate]. Qed.

Lemma encodePair_nonempty kv : encodePair kv <> "".
Proof. unfold encodePair. apply string_app_nonempty. discriminate. Qed.

(** What the loop of [Values.Encode] appends to a buffer that is not
    empty. *)
Lemma writePair_fold ps :
  forall buf, buf <> "" ->
    fold_left writePair ps buf
    = (buf ++ fold_right (fun kv acc => "&" ++ encodePair kv ++ acc) "" ps)%string.
Proof.
  induction ps as [|kv ps IH]; intros buf Hbuf; simpl.
  - induction buf as [|x buf IHb]; [reflexivity|].
    change (String x buf = String x (buf ++ ""))%string. f_equal.
    destruct buf; [reflexivity | apply IHb; discriminate].
  - rewrite IH.
    + unfold writePair. apply String.eqb_neq in Hbuf. rewrite Hbuf.
      rewrite !string_app_assoc. reflexivity.
    + unfold writePair. apply string_app_nonempty, encodePair_nonempty.
Qed.

(** The query string is the parameters joined by [&]. *)
Lemma Values_Encode_join ps :
  fold_left writePair ps "" = Go.join "&" (encodePair <$> ps).
Proof.
  destruct ps as [|kv ps]; [reflexivity|]. simpl fold_left.
  change (writePair "" kv) with (encodePair kv).
  rewrite writePair_fold by apply encodePair_nonempty.
  revert kv. induction ps as [|kv' ps IH]; intros kv.
  - simpl. clear. induction (encodePair kv) as [|x e IHe]; [reflexivity|].
    change (String x (e ++ "") = String x e)%string. rewrite IHe. reflexivity.
  - change (encodePair <$> kv :: kv' :: ps)
      with (encodePair kv :: (encodePair <$> kv' :: ps)).
    change (Go.join "&" (encodePair kv :: (encodePair <$> kv' :: ps)))
      with (encodePair kv ++ "&" ++ Go.join "&" (encodePair <$> kv' :: ps))%string.
    rewrite <- IH. reflexivity.
Qed.

Lemma pairsOfKey_key (v : Values) k kv : kv ∈ pairsOfKey v k → kv.1 = k.
Proof.
  unfold pairsOfKey. intros Hin. apply list_elem_of_fmap in Hin as (x & -> & _).
  reflexivity.
Qed.

Lemma pairs_bind_key (v : Values) l kv : kv ∈ l ≫= pairsOfKey v → kv.1 ∈ l.
Proof.
  intros Hin. apply list_elem_of_bind in Hin as (k & Hkv & Hk).
  rewrite (pairsOfKey_key _ _ _ Hkv). exact Hk.
Qed.

Lemma pairsOfKey_sorted (v : Values) k : StronglySorted keyLe (pairsOfKey v k).
Proof.
  unfold pairsOfKey. induction (default [] (v !! k)) as [|x xs IH]; simpl.
  - constructor.
  - constructor; [exact IH|].
    apply Forall_forall. intros kv Hin.
    apply list_elem_of_fmap in Hin as (y & -> & _). unfold keyLe. simpl. reflexivity.
Qed.

Lemma pairs_bind_sorted (v : Values) l :
  StronglySorted String.le l → StronglySorted keyLe (l ≫= pairsOfKey v).
Proof.
  induction 1 as [|k l Hl IH Hk].
  - constructor.
  - rewrite bind_cons. apply StronglySorted_app. split; [|split].
    + intros x1 x2 H1 H2. unfold keyLe.
      rewrite (pairsOfKey_key _ _ _ H1).
      apply pairs_bind_key in H2. rewrite Forall_forall in Hk.
      apply Hk. exact H2.
    + apply pairsOfKey_sorted.
    + exact IH.
Qed.

Section Shuffled.

Variable shuffle : list string -> list string.
Hypothesis shuffle_permutes : forall l, shuffle l ≡ₚ l.

Lemma sortedKeys_permutation (v : Values) :
  merge_sort String.le (rangeKeys shuffle v) ≡ₚ elements (dom v).
Proof.
  unfold rangeKeys. rewrite merge_sort_Permutation. apply shuffle_permutes.
Qed.

Lemma sortedKeys_sorted (v : Values) :
  StronglySorted String.le (merge_sort String.le (rangeKeys shuffle v)).
Proof. apply StronglySorted_merge_sort; apply _. Qed.

Lemma sortedKeys_NoDup (v : Values) :
  NoDup (merge_sort String.le (rangeKeys shuffle v)).
Proof. rewrite sortedKeys_permutation. apply NoDup_elements. Qed.

Lemma sortedKeys_elem (v : Values) k :
  k ∈ merge_sort String.le (rangeKeys shuffle v) ↔ is_Some (v !! k).
Proof. rewrite sortedKeys_permutation, elem_of_elements. apply elem_of_dom. Qed.

Lemma sortedPairs_sorted (v : Values) :
  StronglySorted keyLe (sortedPairs (rangeKeys shuffle v) v).
Proof. rewrite sortedPairs_bind. apply pairs_bind_sorted, sortedKeys_sorted. Qed.

(** C7, amended. The query string of every request holds the parameter
    [apiKey] exactly once, with the client's credential as its value,
    whatever the caller supplied under that key.  The parameters are
    written in the order of their keys and joined by [&], so [apiKey]
    stands after the keys that sort before it and before those that sort
    after it. *)
Theorem C7_apiKey_parameter (c : Client) (path : string) (params : option Values) :
  let ps := queryPairs c shuffle params in
  (exists before after,
      ps = (before ++ ("apiKey", apiKey c) :: after)%list
      /\ (forall kv, kv ∈ (before ++ after)%list -> kv.1 <> "apiKey")
      /\ (forall kv, kv ∈ before -> String.le kv.1 "apiKey")
      /\ (forall kv, kv ∈ after -> String.le "apiKey" kv.1))
  /\ StronglySorted keyLe ps
  /\ (buildURL c shuffle path params).1
     = (baseURL c ++ path ++ "?" ++ Go.join "&" (encodePair <$> ps))%string.
Proof.
  intros ps. subst ps. unfold queryPairs.
  split; [|split; [apply sortedPairs_sorted |]].
  2: { unfold buildURL, queryString, Values_Encode. simpl.
       rewrite Values_Encode_join. reflexivity. }
  set (v := withKey c params).
  assert (Hlook : v !! "apiKey" = Some [apiKey c]).
  { unfold v, withKey, Values_Set. apply lookup_insert_eq. }
  assert (Hin : "apiKey" ∈ merge_sort String.le (rangeKeys shuffle v)).
  { apply sortedKeys_elem. rewrite Hlook. eauto. }
  pose proof (sortedKeys_NoDup v) as Hnd.
  pose proof (sortedPairs_sorted v) as Hsorted.
  rewrite sortedPairs_bind in *.
  apply list_elem_of_split in Hin as (l1 & l2 & Hks).
  rewrite Hks in *. clear Hks.
  apply NoDup_app in Hnd as (_ & Hl1 & Hnd).
  apply NoDup_cons in Hnd as (Hl2 & _).
  assert (Hpairs : ((l1 ++ "apiKey" :: l2) ≫= pairsOfKey v
                   = (l1 ≫= pairsOfKey v) ++ ("apiKey", apiKey c) :: (l2 ≫= pairsOfKey v))%list).
  { rewrite bind_app, bind_cons. unfold pairsOfKey at 2. rewrite Hlook. reflexivity. }
  rewrite Hpairs in *.
  exists (l1 ≫= pairsOfKey v), (l2 ≫= pairsOfKey v).
  apply StronglySorted_app in Hsorted as (Hcross & _ & Htail).
  apply StronglySorted_cons in Htail as (Hafter & _).
  rewrite Forall_forall in Hafter.
  repeat split.
  - intros kv Hkv Heq. apply elem_of_app in Hkv as [Hkv|Hkv];
      apply pairs_bind_key in Hkv; rewrite Heq in Hkv.
    + apply (Hl1 _ Hkv). left.
    + contradiction.
  - intros kv Hkv. apply (Hcross kv ("apiKey", apiKey c) Hkv). left.
  - intros kv Hkv. apply (Hafter kv). exact Hkv.
Qed.

End Shuffled.

(** Two iteration orders of the same map give the same sorted keys. *)
Lemma sortedKeys_order_irrelevant (shuffle1 shuffle2 : list string -> list string)
    (v : Values) :
  (forall l, shuffle1 l ≡ₚ l) -> (forall l, shuffle2 l ≡ₚ l) ->
  merge_sort String.le (rangeKeys shuffle1 v)
  = merge_sort String.le (rangeKeys shuffle2 v).
Proof.
  intros H1 H2. apply (StronglySorted_unique String.le).
  - apply sortedKeys_sorted.
  - apply sortedKeys_sorted.
  - rewrite !sortedKeys_permutation by assumption. reflexivity.
Qed.

Lemma withKey_again (c : Client) (params : option Values) :
  withKey c (Some (withKey c params)) = withKey c params.
Proof. unfold withKey, Values_Set. simpl. apply insert_insert_eq. Qed.

(** C8. Building the URL is a function of the client, the path and the
    parameters alone: the order in which the runtime iterates over the map
    does not show in the result, and building again from the map the first
    call left behind (with [apiKey] set in it) gives the same URL and
    leaves the same map. *)
Theorem C8_buildURL_deterministic (c : Client) (path : string)
    (params : option Values) (shuffle1 shuffle2 : list string -> list string) :
  (forall l, shuffle1 l ≡ₚ l) ->
  (forall l, shuffle2 l ≡ₚ l) ->
  buildURL c shuffle1 path params = buildURL c shuffle2 path params
  /\ queryString c shuffle1 params = queryString c shuffle2 params
  /\ buildURL c shuffle2 path (Some (buildURL c shuffle1 path params).2)
     = buildURL c shuffle1 path params.
Proof.
  intros H1 H2.
  assert (Hq : forall p, queryString c shuffle1 p = queryString c shuffle2 p).
  { intros p. unfold queryString, Values_Encode. rewrite !sortedPairs_bind.
    rewrite (sortedKeys_order_irrelevant shuffle1 shuffle2) by assumption.
    reflexivity. }
  repeat split.
  - unfold buildURL. rewrite Hq. reflexivity.
  - apply Hq.
  - unfold buildURL. simpl. rewrite withKey_again.
    unfold queryString. rewrite withKey_again. fold (queryString c shuffle2 params).
    rewrite <- Hq. reflexivity.
Qed.

(** C7, as stated, fails: the parameters are written in the order of their
    keys, so with a caller's [text] parameter the query string is
    [apiKey=test-key&text=Berlin] and [apiKey] is not last. *)
Lemma C7_apiKey_last_counterexample :
  ~ (forall (c : Client) (params : option Values),
       ("apiKey", apiKey c) ∈ queryPairs c id params
       /\ last (queryPairs c id params) = Some ("apiKey", apiKey c)
       /\ (forall x, ("apiKey", x) ∈ queryPairs c id params -> x = apiKey c)).
Proof.
  intros H.
  destruct (H (Fixtures.client None) (Some {[ "text" := ["Berlin"] ]})) as (_ & Hlast & _).
  vm_compute in Hlast. discriminate Hlast.
Qed.

Example buildURL_with_text :
  (buildURL (Fixtures.client None) id "/v1/geocode/search"
            (Some {[ "text" := ["Berlin"] ]})).1
  = "https://api.example.com/v1/geocode/search?apiKey=test-key&text=Berlin".
Proof. vm_compute. reflexivity. Qed.

(** The URL of the test-suite: no parameters but the key. *)
Example buildURL_nil :
  (buildURL (Fixtures.client None) id "/v1/geocode/search" None).1
  = "https://api.example.com/v1/geocode/search?apiKey=test-key".
Proof. vm_compute. reflexivity. Qed.

(** C7 on a caller who supplies an [apiKey] of their own next to two other
    parameters: the credential of the client replaces it, between [Zed]
    and [text]. *)
Lemma C7_apiKey_parameter_witness :
  exists before after,
    queryPairs (Fixtures.client None) id
      (Some (<["apiKey" := ["mine"; "other"]]> (<["Zed" := ["1"]]> {[ "text" := ["Berlin"] ]})))
    = (before ++ ("apiKey", "test-key") :: after)%list
    /\ (forall kv, kv ∈ (before ++ after)%list -> kv.1 <> "apiKey").
Proof.
  destruct (C7_apiKey_parameter id (fun l => reflexivity l) (Fixtures.client None)
              "/v1/geocode/search"
              (Some (<["apiKey" := ["mine"; "other"]]> (<["Zed" := ["1"]]> {[ "text" := ["Berlin"] ]}))))
    as ((before & after & Heq & Hno & _) & _).
  exists before, after. split; [exact Heq | exact Hno].
Defined.

(** C8 on two iteration orders, one the reverse of the other. *)
Lemma C8_buildURL_deterministic_witness :
  buildURL (Fixtures.client None) id "/v1/geocode/search"
    (Some (<["lang" := ["de"]]> {[ "text" := ["Berlin"] ]}))
  = buildURL (Fixtures.client None) reverse "/v1/geocode/search"
      (Some (<["lang" := ["de"]]> {[ "text" := ["Berlin"] ]})).
Proof.
  destruct (C8_buildURL_deterministic (Fixtures.client None) "/v1/geocode/search"
              (Some (<["lang" := ["de"]]> {[ "text" := ["Berlin"] ]}))
              id reverse (fun l => reflexivity l) reverse_Permutation) as (H & _).
  exact H.
Defined.

(** ** The batch-result decoder *)

Lemma bytes_trimLeft_spaces ws : spaces ws -> bytes_trimLeft ws = [].
Proof.
  induction 1 as [|b ws Hb _ IH]; simpl; [reflexivity|]. rewrite Hb. exact IH.
Qed.

Lemma bytes_trimLeft_first ws b rest :
  spaces ws -> is_space b = false ->
  bytes_trimLeft (ws ++ b :: rest)%list = b :: rest.
Proof.
  induction 1 as [|w ws Hw _ IH]; simpl; intros Hb.
  - rewrite Hb. reflexivity.
  - rewrite Hw. apply IH. exact Hb.
Qed.

(** Every payload is white space only, or opens after its white space
    with a bracket, or with another byte. *)
Lemma payload_shape (data : list byte) :
  spaces data
  \/ (exists ws rest, data = (ws ++ Byte.x5b :: rest)%list /\ spaces ws)
  \/ (exists ws b rest,
        data = (ws ++ b :: rest)%list /\ spaces ws
        /\ is_space b = false /\ b <> Byte.x5b).
Proof.
  induction data as [|b data IH].
  - left. constructor.
  - destruct (is_space b) eqn:Hb.
    + destruct IH as [Hall | [(ws & rest & -> & Hws) | (ws & b' & rest & -> & Hws & Hb')]].
      * left. constructor; assumption.
      * right. left. exists (b :: ws), rest. split; [reflexivity | constructor; assumption].
      * right. right. exists (b :: ws), b', rest.
        split; [reflexivity | split; [constructor; assumption | exact Hb']].
    + right. destruct (Byte.byte_eq_dec b Byte.x5b) as [->|Hne].
      * left. exists [], data. split; [reflexivity | constructor].
      * right. exists [], b, data. repeat split; [constructor | exact Hb | exact Hne].
Qed.

Section BatchFacts.

Variable Address : Type.
Variable unmarshal_results :
  list byte -> option (list Address) -> option (list Address) * option lib_error.
Variable unmarshal_alias : list byte -> BatchResultResponse Address * option lib_error.

Local Abbreviation UnmarshalJSON' :=
  (UnmarshalJSON unmarshal_results unmarshal_alias).

(** C10. [Raw] always ends up as the input bytes.  When the first byte
    after the leading white space is an opening bracket the payload goes to
    the decoder of [Results], and [ID] and [Status] stay as they were (the
    zero values of a fresh receiver).  Otherwise the payload is decoded as
    an object; when that succeeds [ID] and [Status] are the decoded ones,
    and [Results] stays as it was (nil for a fresh receiver) in any case. *)
Theorem C10_batch_result_variants (r : BatchResultResponse Address) (data : list byte) :
  Raw (UnmarshalJSON' r data).1 = data
  /\ (forall ws rest,
        spaces ws -> data = (ws ++ Byte.x5b :: rest)%list ->
        UnmarshalJSON' r data
        = ({| ID := ID r; Status := Status r;
              Results := (unmarshal_results data (Results r)).1;
              Raw := data |},
           (unmarshal_results data (Results r)).2))
  /\ ((spaces data
       \/ exists ws b rest,
            data = (ws ++ b :: rest)%list /\ spaces ws
            /\ is_space b = false /\ b <> Byte.x5b) ->
      (UnmarshalJSON' r data).2 = (unmarshal_alias data).2
      /\ Results (UnmarshalJSON' r data).1 = Results r
      /\ ((unmarshal_alias data).2 = None ->
          UnmarshalJSON' r data
          = ({| ID := ID (unmarshal_alias data).1;
                Status := Status (unmarshal_alias data).1;
                Results := Results r; Raw := data |}, None))
      /\ ((unmarshal_alias data).2 <> None ->
          ID (UnmarshalJSON' r data).1 = ID r
          /\ Status (UnmarshalJSON' r data).1 = Status r)).
Proof.
  assert (Hobj : forall t, (forall tl, t <> Byte.x5b :: tl) ->
            bytes_trimLeft data = t ->
            UnmarshalJSON' r data
            = match (unmarshal_alias data).2 with
              | Some e => ({| ID := ID r; Status := Status r;
                              Results := Results r; Raw := data |}, Some e)
              | None => ({| ID := ID (unmarshal_alias data).1;
                            Status := Status (unmarshal_alias data).1;
                            Results := Results r; Raw := data |}, None)
              end).
  { intros t Ht Htrim. unfold UnmarshalJSON. rewrite Htrim.
    destruct (unmarshal_alias data) as [obj [e|]]; simpl;
      (destruct t as [|b tl]; [reflexivity|]);
      destruct b; try reflexivity; exfalso; apply (Ht tl); reflexivity. }
  split; [|split].
  - unfold UnmarshalJSON.
    destruct (bytes_trimLeft data) as [|b tl].
    + destruct (unmarshal_alias data) as [obj [e|]]; reflexivity.
    + destruct (unmarshal_results data _) as [res e].
      destruct (unmarshal_alias data) as [obj [e'|]]; destruct b; reflexivity.
  - intros ws rest Hws ->. unfold UnmarshalJSON.
    rewrite bytes_trimLeft_first by (trivial; reflexivity).
    destruct (unmarshal_results _ _) as [res e]. reflexivity.
  - intros Hshape.
    assert (Heq : UnmarshalJSON' r data = _) by
      (destruct Hshape as [Hall | (ws & b & rest & -> & Hws & Hb & Hne)];
       [ apply (Hobj []); [discriminate | apply bytes_trimLeft_spaces; exact Hall]
       | apply (Hobj (b :: rest));
         [ intros tl [= Hbad _]; contradiction
         | apply bytes_trimLeft_first; assumption ] ]).
    rewrite Heq. destruct (unmarshal_alias data) as [obj [e|]]; simpl.
    + split; [reflexivity|]. split; [reflexivity|]. split; [discriminate|].
      intros _. split; reflexivity.
    + split; [reflexivity|]. split; [reflexivity|].
      split; [intros _; reflexivity | intros Hbad; contradiction].
Qed.

(** A fresh receiver on a payload that opens, after a blank, with a
    bracket: only [Results] and [Raw] are written. *)
Example UnmarshalJSON_array :
  UnmarshalJSON' zeroBatch [Byte.x20; Byte.x5b; Byte.x5d]
  = ({| ID := ""; Status := "";
        Results := (unmarshal_results [Byte.x20; Byte.x5b; Byte.x5d] None).1;
        Raw := [Byte.x20; Byte.x5b; Byte.x5d] |},
     (unmarshal_results [Byte.x20; Byte.x5b; Byte.x5d] None).2).
Proof.
  unfold UnmarshalJSON. simpl. destruct (unmarshal_results _ _). reflexivity.
Qed.

End BatchFacts.

(** * Further properties of the code *)

(** ** The retry loop as a whole *)

Section RetryMore.

Variable Target : Type.
Variable unmarshal_errResp : list byte -> errResp * option lib_error.
Variable unmarshal_target : list byte -> Target -> Target * option lib_error.

Local Abbreviation newAPIError' := (newAPIError unmarshal_errResp).
Local Abbreviation execute' := (execute unmarshal_errResp unmarshal_target).
Local Abbreviation attempt' := (attemptWithHint unmarshal_errResp unmarshal_target).
Local Abbreviation do' := (do unmarshal_errResp unmarshal_target).
Local Abbreviation apiErrorOf' := (apiErrorOf unmarshal_errResp).

Lemma execute_slept env (st : State Target) :
  slept (execute' env st).1 = slept st.
Proof.
  unfold execute, decodeInto.
  destruct (server env (dispatched st)) as [e|resp]; [reflexivity|].
  destruct (resp_ReadErr resp); [reflexivity|].
  destruct (_ || _); [reflexivity|]. simpl.
  destruct (target st) as [t|]; [|reflexivity].
  destruct (unmarshal_target _ t) as [t' [d|]]; reflexivity.
Qed.

Lemma execute_retryable env (st : State Target) :
  retryableOutcome (server env (dispatched st)) = true ->
  execute' env st = (sent st, apiErrorOf' (server env (dispatched st))).
Proof.
  unfold retryableOutcome, execute.
  destruct (server env (dispatched st)) as [e|resp]; [discriminate|].
  destruct (resp_ReadErr resp); [discriminate|]. intros Hr.
  rewrite (isRetryable_not_2xx _ Hr). reflexivity.
Qed.

Lemma retryLoop_retries_delay r env n a lastErr (st : State Target) :
  dispatched st = a ->
  retryableOutcome (server env a) = true ->
  Z.of_nat a <> maxRetries r ->
  ctx_done env a = None ->
  retryLoop r env (attempt' env) (S n) a lastErr st
  = retryLoop r env (attempt' env) n (S a) (apiErrorOf' (server env a))
      (waited (sent st) (delayAfter r env a)).
Proof.
  intros Hd Hr Ha Hc. subst a. simpl.
  destruct (attempt_retryable Target unmarshal_errResp unmarshal_target _ _ Hr)
    as (resp & Hsrv & ->).
  unfold delayAfter. rewrite Hsrv. simpl.
  apply Z.eqb_neq in Ha. rewrite Ha, Hc. reflexivity.
Qed.

(** The loop ends at some dispatch: it returns what that dispatch alone
    returns, or the error of the context when the wait after it was cut
    short.  Until then every outcome was a retryable failure and every
    wait ran for the delay computed from that outcome. *)
Lemma retryLoop_last r env :
  forall n a lastErr (st : State Target),
    dispatched st = a ->
    Z.of_nat (a + n) = maxRetries r ->
    exists k st_last,
      (k <= n)%nat
      /\ dispatched st_last = (a + k)%nat
      /\ target st_last = target st
      /\ slept st_last = (rev (map (delayAfter r env) (seq a k)) ++ slept st)%list
      /\ (forall i, (a <= i < a + k)%nat ->
            retryableOutcome (server env i) = true /\ ctx_done env i = None)
      /\ (retryLoop r env (attempt' env) (S n) a lastErr st = execute' env st_last
           /\ (retryableOutcome (server env (a + k)) = true -> k = n)
          \/ exists ce,
               retryLoop r env (attempt' env) (S n) a lastErr st
               = (sent st_last, Some (ErrContext ce))
               /\ retryableOutcome (server env (a + k)) = true
               /\ ctx_done env (a + k) = Some ce /\ (k < n)%nat).
Proof.
  assert (Hzero : forall (st : State Target) a (P : Prop),
            dispatched st = a -> P ->
            (0 <= 0)%nat
            /\ dispatched st = (a + 0)%nat
            /\ target st = target st
            /\ slept st = (rev (map (delayAfter r env) (seq a 0)) ++ slept st)%list
            /\ (forall i, (a <= i < a + 0)%nat ->
                  retryableOutcome (server env i) = true /\ ctx_done env i = None)
            /\ P).
  { intros st a P Hd HP. rewrite Nat.add_0_r.
    split; [lia|]. split; [exact Hd|]. split; [reflexivity|]. split; [reflexivity|].
    split; [intros i Hi; lia | exact HP]. }
  induction n as [|n IH]; intros a lastErr st Hd Hmax.
  - exists 0%nat, st.
    destruct (Hzero st a True Hd I) as (H1 & H2 & H3 & H4 & H5 & _).
    split; [lia|]. split; [exact H2|]. split; [exact H3|]. split; [exact H4|].
    split; [exact H5|].
    left. split; [|reflexivity].
    destruct (retryableOutcome (server env a)) eqn:Hr.
    + rewrite retryLoop_exhausted by (rewrite ?Hd; trivial; lia).
      rewrite execute_retryable by (rewrite Hd; exact Hr). rewrite Hd. reflexivity.
    + apply retryLoop_stops. rewrite Hd. exact Hr.
  - destruct (retryableOutcome (server env a)) eqn:Hr.
    + destruct (ctx_done env a) as [ce|] eqn:Hc.
      * exists 0%nat, st.
        destruct (Hzero st a True Hd I) as (H1 & H2 & H3 & H4 & H5 & _).
        split; [lia|]. split; [exact H2|]. split; [exact H3|]. split; [exact H4|].
        split; [exact H5|].
        right. exists ce. rewrite Nat.add_0_r.
        rewrite (retryLoop_cancelled _ _ _ r env (S n) a lastErr st ce)
          by (rewrite ?Hd; trivial; lia).
        split; [reflexivity|]. split; [exact Hr|]. split; [exact Hc | lia].
      * rewrite (retryLoop_retries_delay r env (S n) a lastErr st Hd Hr) by (trivial; lia).
        destruct (IH (S a) (apiErrorOf' (server env a))
                    (waited (sent st) (delayAfter r env a)))
          as (k & st_last & Hk & Hdl & Htl & Hsl & Hpre & Hend).
        { simpl. rewrite Hd. reflexivity. }
        { lia. }
        exists (S k), st_last.
        replace (a + S k)%nat with (S a + k)%nat by lia.
        split; [lia|]. split; [exact Hdl|]. split; [exact Htl|].
        split.
        { rewrite Hsl. simpl. rewrite <- app_assoc. reflexivity. }
        split.
        { intros i Hi. destruct (decide (i = a)) as [->|Hne]; [split; assumption|].
          apply Hpre. lia. }
        destruct Hend as [[Hex Hlast] | (ce & Hcx & Hr' & Hc' & Hlt)].
        -- left. split; [exact Hex | intros H; specialize (Hlast H); lia].
        -- right. exists ce. split; [exact Hcx|]. split; [exact Hr'|].
           split; [exact Hc' | lia].
    + exists 0%nat, st.
      destruct (Hzero st a True Hd I) as (H1 & H2 & H3 & H4 & H5 & _).
      split; [lia|]. split; [exact H2|]. split; [exact H3|]. split; [exact H4|].
      split; [exact H5|].
      left. rewrite Nat.add_0_r. split; [|rewrite Hr; discriminate].
      apply retryLoop_stops. rewrite Hd. exact Hr.
Qed.

(** The state after [f] retryable failures, each followed by a wait that
    ran to its end. *)
Lemma retryLoop_run r env f :
  forall n a lastErr (st : State Target),
    dispatched st = a ->
    (forall i, (a <= i < a + f)%nat ->
       retryableOutcome (server env i) = true
       /\ ctx_done env i = None /\ Z.of_nat i <> maxRetries r) ->
    exists lastErr',
      retryLoop r env (attempt' env) (f + n) a lastErr st
      = retryLoop r env (attempt' env) n (a + f) lastErr'
          {| dispatched := (a + f)%nat;
             slept := (rev (map (delayAfter r env) (seq a f)) ++ slept st)%list;
             target := target st |}.
Proof.
  induction f as [|f IH]; intros n a lastErr st Hd Hall.
  - exists lastErr. rewrite Nat.add_0_r. destruct st as [d sl t].
    simpl in Hd. subst d. reflexivity.
  - destruct (Hall a ltac:(lia)) as (Hr & Hc & Hne).
    change (S f + n)%nat with (S (f + n)).
    rewrite (retryLoop_retries_delay r env (f + n) a lastErr st Hd Hr Hne Hc).
    destruct (IH n (S a) (apiErrorOf' (server env a))
                (waited (sent st) (delayAfter r env a)))
      as (e' & ->).
    + simpl. rewrite Hd. reflexivity.
    + intros i Hi. apply Hall. lia.
    + exists e'. replace (S a + f)%nat with (a + S f)%nat by lia.
      f_equal. f_equal. simpl. rewrite <- app_assoc. reflexivity.
Qed.

(** X1. Whatever the server answers and whenever the caller cancels, a call
    under a policy with [maxRetries = N >= 0] dispatches at least once and
    at most N + 1 times, and it has waited out exactly one delay between
    two consecutive dispatches: the delay computed from the failed response
    (its Retry-After header included) at that attempt. *)
Theorem X1_dispatch_bound_and_waits (c : Client) (r : retryConfig) (env : Env)
    (result : option Target) :
  retry c = Some r ->
  0 <= maxRetries r < Go.maxInt64 ->
  let st := (do' c env result).1 in
  (1 <= dispatched st <= Z.to_nat (maxRetries r) + 1)%nat
  /\ length (slept st) = (dispatched st - 1)%nat
  /\ slept st = rev (map (delayAfter r env) (seq 0 (dispatched st - 1))).
Proof.
  intros Hc HN st. subst st.
  rewrite (do_with_policy _ _ _ _ _ _ _ Hc HN).
  destruct (retryLoop_last r env (Z.to_nat (maxRetries r)) 0%nat None (initial result)
              eq_refl ltac:(lia))
    as (k & st_last & Hk & Hd & _ & Hs & _ & [[-> _] | (ce & -> & _)]).
  - rewrite execute_dispatched, execute_slept, Hd, Hs. simpl.
    rewrite Nat.sub_0_r, app_nil_r, length_rev, length_map, length_seq.
    repeat split; try lia; reflexivity.
  - simpl. rewrite Hd, Hs. simpl.
    rewrite Nat.sub_0_r, app_nil_r, length_rev, length_map, length_seq.
    repeat split; try lia; reflexivity.
Qed.

(** X2. A call whose first [f] dispatches, [f <= N], fail retryably and are
    each followed by a completed wait, and whose next dispatch is not a
    retryable failure (or is the last one the budget allows), returns
    exactly what that dispatch alone returns: its error or its decoded
    target, after [f + 1] dispatches and the [f] computed delays. *)
Theorem X2_outcome_of_the_last_dispatch (c : Client) (r : retryConfig) (env : Env)
    (result : option Target) (f : nat) :
  retry c = Some r ->
  0 <= maxRetries r < Go.maxInt64 ->
  (Z.of_nat f <= maxRetries r) ->
  (forall i, (i < f)%nat ->
     retryableOutcome (server env i) = true /\ ctx_done env i = None) ->
  (retryableOutcome (server env f) = false \/ Z.of_nat f = maxRetries r) ->
  do' c env result
  = execute' env {| dispatched := f;
                    slept := rev (map (delayAfter r env) (seq 0 f));
                    target := result |}.
Proof.
  intros Hc HN Hf Hall Hend.
  rewrite (do_with_policy _ _ _ _ _ _ _ Hc HN).
  replace (S (Z.to_nat (maxRetries r)))
    with (f + S (Z.to_nat (maxRetries r) - f))%nat by lia.
  destruct (retryLoop_run r env f (S (Z.to_nat (maxRetries r) - f)) 0%nat None
              (initial result) eq_refl) as (e' & ->).
  { intros i Hi. destruct (Hall i ltac:(lia)) as [Hr Hcx].
    split; [exact Hr|]. split; [exact Hcx | lia]. }
  cbn [Nat.add initial slept target]. rewrite app_nil_r.
  set (st_f := {| dispatched := f; slept := _; target := result |}).
  destruct (retryableOutcome (server env f)) eqn:Hr.
  - destruct Hend as [Hbad | Hlast]; [discriminate|].
    rewrite (retryLoop_exhausted _ _ _ r env _ f e' st_f Hr Hlast).
    symmetry. apply execute_retryable. exact Hr.
  - apply retryLoop_stops. exact Hr.
Qed.

(** X3. When every dispatch the budget allows fails retryably (and no wait
    is cut short), the call returns the [APIError] of the last response
    received, the one of dispatch number N, after N + 1 dispatches, and
    leaves the decode target untouched. *)
Theorem X3_exhausted_returns_last_error (c : Client) (r : retryConfig) (env : Env)
    (result : option Target) :
  retry c = Some r ->
  0 <= maxRetries r < Go.maxInt64 ->
  (forall i, (i <= Z.to_nat (maxRetries r))%nat ->
     retryableOutcome (server env i) = true) ->
  (forall i, (i < Z.to_nat (maxRetries r))%nat -> ctx_done env i = None) ->
  (do' c env result).2 = apiErrorOf' (server env (Z.to_nat (maxRetries r)))
  /\ (exists a, (do' c env result).2 = Some (ErrAPI a))
  /\ dispatched (do' c env result).1 = S (Z.to_nat (maxRetries r))
  /\ target (do' c env result).1 = result.
Proof.
  intros Hc HN Hall Hctx.
  rewrite (do_with_policy _ _ _ _ _ _ _ Hc HN).
  replace (S (Z.to_nat (maxRetries r)))
    with (Z.to_nat (maxRetries r) + 1)%nat by lia.
  destruct (retryLoop_run r env (Z.to_nat (maxRetries r)) 1%nat 0%nat None
              (initial result) eq_refl) as (e' & ->).
  { intros i Hi. split; [apply Hall; lia|]. split; [apply Hctx; lia | lia]. }
  cbn [Nat.add initial slept target].
  rewrite retryLoop_exhausted; simpl; [|apply Hall; lia | lia].
  split; [reflexivity|]. split; [|split; [lia | reflexivity]].
  specialize (Hall (Z.to_nat (maxRetries r)) ltac:(lia)).
  unfold retryableOutcome in Hall.
  destruct (server env (Z.to_nat (maxRetries r))) as [e|resp]; [discriminate|].
  simpl. eauto.
Qed.

(** X4. A negative [maxRetries] (or MaxInt64, for which [maxRetries + 1]
    wraps around) makes the loop run zero times: nothing is dispatched and
    the call returns nil, whatever the server would have answered. *)
Theorem X4_negative_budget_sends_nothing (c : Client) (r : retryConfig) (env : Env)
    (result : option Target) :
  retry c = Some r ->
  Go.minInt64 <= maxRetries r < 0 \/ maxRetries r = Go.maxInt64 ->
  do' c env result = (initial result, None).
Proof.
  intros Hc HN. unfold do, retryConfig_do. rewrite Hc.
  assert (Hzero : Z.to_nat (Go.wrap64 (maxRetries r + 1)) = 0%nat).
  { destruct HN as [HN | ->].
    - rewrite wrap64_in_range by (unfold Go.minInt64, Go.maxInt64 in *; lia). lia.
    - reflexivity. }
  rewrite Hzero. reflexivity.
Qed.

(** X5. A policy with [maxRetries = 0] is no policy at all: on every server
    the call returns what the single dispatch returns. *)
Theorem X5_zero_budget_is_single_dispatch (c : Client) (r : retryConfig) (env : Env)
    (result : option Target) :
  retry c = Some r ->
  maxRetries r = 0 ->
  do' c env result = execute' env (initial result).
Proof.
  intros Hc HN.
  rewrite (do_with_policy _ _ _ _ _ _ _ Hc) by (rewrite HN; unfold Go.maxInt64; lia).
  rewrite HN. simpl Z.to_nat.
  destruct (retryableOutcome (server env 0)) eqn:Hr.
  - rewrite retryLoop_exhausted by (simpl; trivial; lia).
    symmetry. apply execute_retryable. exact Hr.
  - apply retryLoop_stops. exact Hr.
Qed.


(** What one dispatch returns, by the error it ends with. *)
Lemma execute_api_error env (st : State Target) a :
  (execute' env st).2 = Some (ErrAPI a) ->
  exists resp,
    server env (dispatched st) = inr resp
    /\ resp_ReadErr resp = None
    /\ ~ 200 <= resp_StatusCode resp < 300
    /\ a = newAPIError' (resp_StatusCode resp) (resp_Body resp)
    /\ (execute' env st).1 = sent st.
Proof.
  unfold execute.
  destruct (server env (dispatched st)) as [e|resp]; [discriminate|].
  destruct (resp_ReadErr resp) as [e|] eqn:Hrd; [discriminate|].
  destruct ((resp_StatusCode resp <? 200) || (300 <=? resp_StatusCode resp)) eqn:Hcode.
  - simpl. intros [= <-]. exists resp.
    split; [reflexivity|]. split; [exact Hrd|].
    split; [intros Hin; apply in_2xx_test in Hin; congruence|].
    split; reflexivity.
  - intros Hdec. apply decodeInto_not_api in Hdec. discriminate Hdec.
Qed.

Lemma execute_nil env (st : State Target) :
  (execute' env st).2 = None ->
  exists resp,
    server env (dispatched st) = inr resp
    /\ resp_ReadErr resp = None
    /\ 200 <= resp_StatusCode resp < 300
    /\ match target st with
       | None => (execute' env st).1 = sent st
       | Some t =>
           (unmarshal_target (resp_Body resp) t).2 = None
           /\ (execute' env st).1
              = decoded (sent st) (unmarshal_target (resp_Body resp) t).1
       end.
Proof.
  unfold execute.
  destruct (server env (dispatched st)) as [e|resp]; [discriminate|].
  destruct (resp_ReadErr resp) as [e|] eqn:Hrd; [discriminate|].
  destruct ((resp_StatusCode resp <? 200) || (300 <=? resp_StatusCode resp)) eqn:Hcode;
    [discriminate|].
  unfold decodeInto. simpl. intros Hnil. exists resp.
  split; [reflexivity|]. split; [exact Hrd|].
  split; [apply in_2xx_test; exact Hcode|].
  destruct (target st) as [t|]; [|reflexivity].
  destruct (unmarshal_target (resp_Body resp) t) as [t' [d|]]; [discriminate|].
  split; reflexivity.
Qed.

Lemma execute_target_kept env (st : State Target) e :
  (execute' env st).2 = Some e ->
  (forall d, e <> ErrWrapped "decoding response" d) ->
  target (execute' env st).1 = target st.
Proof.
  unfold execute.
  destruct (server env (dispatched st)) as [e0|resp]; [reflexivity|].
  destruct (resp_ReadErr resp) as [e0|]; [reflexivity|].
  destruct (_ || _); [reflexivity|].
  unfold decodeInto. simpl.
  destruct (target st) as [t|]; [|discriminate].
  destruct (unmarshal_target (resp_Body resp) t) as [t' [d|]]; [|discriminate].
  simpl. intros [= <-] Hne. exfalso. apply (Hne d). reflexivity.
Qed.

(** The call as a whole: the last dispatch decides. *)
Lemma do_last c r env (result : option Target) :
  retry c = Some r ->
  0 <= maxRetries r < Go.maxInt64 ->
  exists st_last,
    S (dispatched st_last) = dispatched (do' c env result).1
    /\ target st_last = result
    /\ (do' c env result = execute' env st_last
        \/ exists ce, do' c env result = (sent st_last, Some (ErrContext ce))).
Proof.
  intros Hc HN. rewrite (do_with_policy _ _ _ _ _ _ _ Hc HN).
  destruct (retryLoop_last r env (Z.to_nat (maxRetries r)) 0%nat None (initial result)
              eq_refl ltac:(lia))
    as (k & st_last & _ & _ & Ht & _ & _ & [[-> _] | (ce & -> & _)]).
  - exists st_last. rewrite execute_dispatched. auto.
  - exists st_last. split; [reflexivity|]. split; [exact Ht|]. right. eauto.
Qed.

(** X6. Under any policy with [maxRetries >= 0], on any server and with any
    cancellation, an [APIError] the call returns is the one built from the
    last response it received: that response had a status outside
    [200,300), the error carries that status and that body, and the decode
    target was not written to. *)
Theorem X6_api_error_is_of_last_response (c : Client) (r : retryConfig) (env : Env)
    (result : option Target) (a : APIError) :
  retry c = Some r ->
  0 <= maxRetries r < Go.maxInt64 ->
  (do' c env result).2 = Some (ErrAPI a) ->
  exists resp,
    server env (dispatched (do' c env result).1 - 1) = inr resp
    /\ resp_ReadErr resp = None
    /\ ~ 200 <= resp_StatusCode resp < 300
    /\ a = newAPIError' (resp_StatusCode resp) (resp_Body resp)
    /\ StatusCode a = resp_StatusCode resp
    /\ RawBody a = resp_Body resp
    /\ target (do' c env result).1 = result.
Proof.
  intros Hc HN Herr.
  destruct (do_last c r env result Hc HN) as (st_last & Hd & Ht & [Hex | (ce & Hcx)]).
  - rewrite Hex in Herr.
    destruct (execute_api_error env st_last a Herr) as (resp & Hsrv & Hrd & Hcode & -> & Hst).
    exists resp. rewrite <- Hd. simpl. rewrite Nat.sub_0_r.
    split; [exact Hsrv|]. split; [exact Hrd|]. split; [exact Hcode|].
    split; [reflexivity|]. split; [apply newAPIError_StatusCode|].
    split; [apply newAPIError_RawBody|]. rewrite Hex, Hst. exact Ht.
  - rewrite Hcx in Herr. discriminate Herr.
Qed.

(** X7. Under any policy with [maxRetries >= 0], a call that returns nil
    received a response with a status in [200,300) at its last dispatch,
    and a supplied target holds what the decoder made of that response's
    body, the decoder having reported no error. *)
Theorem X7_nil_means_2xx_and_decoded (c : Client) (r : retryConfig) (env : Env)
    (result : option Target) :
  retry c = Some r ->
  0 <= maxRetries r < Go.maxInt64 ->
  (do' c env result).2 = None ->
  exists resp,
    server env (dispatched (do' c env result).1 - 1) = inr resp
    /\ resp_ReadErr resp = None
    /\ 200 <= resp_StatusCode resp < 300
    /\ match result with
       | None => target (do' c env result).1 = None
       | Some t =>
           (unmarshal_target (resp_Body resp) t).2 = None
           /\ target (do' c env result).1
              = Some (unmarshal_target (resp_Body resp) t).1
       end.
Proof.
  intros Hc HN Hnil.
  destruct (do_last c r env result Hc HN) as (st_last & Hd & Ht & [Hex | (ce & Hcx)]).
  - rewrite Hex in Hnil.
    destruct (execute_nil env st_last Hnil) as (resp & Hsrv & Hrd & Hcode & Hdec).
    exists resp. rewrite <- Hd. simpl. rewrite Nat.sub_0_r.
    split; [exact Hsrv|]. split; [exact Hrd|]. split; [exact Hcode|].
    rewrite Hex. rewrite Ht in Hdec. destruct result as [t|].
    + destruct Hdec as [Hok ->]. split; [exact Hok | reflexivity].
    + rewrite Hdec. simpl. exact Ht.
  - rewrite Hcx in Hnil. discriminate Hnil.
Qed.

(** X8. Under any policy with [maxRetries >= 0], a call that fails with
    anything but a decoding error (an [APIError], a transport or read
    error, the error of the context) leaves the decode target exactly as the
    caller passed it: failed attempts never write to it. *)
Theorem X8_failure_leaves_target (c : Client) (r : retryConfig) (env : Env)
    (result : option Target) (e : error) :
  retry c = Some r ->
  0 <= maxRetries r < Go.maxInt64 ->
  (do' c env result).2 = Some e ->
  (forall d, e <> ErrWrapped "decoding response" d) ->
  target (do' c env result).1 = result.
Proof.
  intros Hc HN Herr Hne.
  destruct (do_last c r env result Hc HN) as (st_last & Hd & Ht & [Hex | (ce & Hcx)]).
  - rewrite Hex in *. rewrite (execute_target_kept env st_last e Herr Hne). exact Ht.
  - rewrite Hcx. simpl. exact Ht.
Qed.


End RetryMore.

(** ** Every response of a call *)

Section ClassificationFacts.

Variable Target : Type.
Variable unmarshal_errResp : list byte -> errResp * option lib_error.
Variable unmarshal_target : list byte -> Target -> Target * option lib_error.

Local Abbreviation newAPIError' := (newAPIError unmarshal_errResp).
Local Abbreviation execute' := (execute unmarshal_errResp unmarshal_target).
Local Abbreviation attempt' := (attemptWithHint unmarshal_errResp unmarshal_target).
Local Abbreviation do' := (do unmarshal_errResp unmarshal_target).

(** A retryable failure is a response that was read, with a retryable
    status code outside [200,300). *)
Lemma retryableOutcome_inv (o : lib_error + Response) :
  retryableOutcome o = true ->
  exists resp, o = inr resp /\ resp_ReadErr resp = None
               /\ isRetryable (resp_StatusCode resp) = true
               /\ ~ 200 <= resp_StatusCode resp < 300.
Proof.
  unfold retryableOutcome. destruct o as [e|resp]; [discriminate|].
  destruct (resp_ReadErr resp) eqn:Hrd; [discriminate|]. intros Hr.
  exists resp. split; [reflexivity|]. split; [exact Hrd|]. split; [exact Hr|].
  unfold isRetryable in Hr. lia.
Qed.

(** A policy whose budget is an [int] outside [0, MaxInt64) runs the loop
    zero times. *)
Lemma do_no_iteration c r env (result : option Target) :
  retry c = Some r ->
  Go.minInt64 <= maxRetries r <= Go.maxInt64 ->
  ~ 0 <= maxRetries r < Go.maxInt64 ->
  do' c env result = (initial result, None).
Proof.
  intros Hc Hty Hout. unfold do, retryConfig_do. rewrite Hc.
  assert (Hzero : Z.to_nat (Go.wrap64 (maxRetries r + 1)) = 0%nat).
  { destruct (Z_lt_le_dec (maxRetries r) 0) as [Hneg|Hpos].
    - rewrite wrap64_in_range by (unfold Go.minInt64, Go.maxInt64 in *; lia). lia.
    - assert (maxRetries r = Go.maxInt64) as -> by lia. reflexivity. }
  rewrite Hzero. reflexivity.
Qed.

(** What one dispatch returns, by the response it receives. *)
Lemma execute_response env (st : State Target) resp :
  server env (dispatched st) = inr resp ->
  dispatched (execute' env st).1 = S (dispatched st)
  /\ (forall e, resp_ReadErr resp = Some e ->
        execute' env st = (sent st, Some (ErrWrapped "reading response" e)))
  /\ (resp_ReadErr resp = None -> 200 <= resp_StatusCode resp < 300 ->
        match target st with
        | None => execute' env st = (sent st, None)
        | Some t =>
            target (execute' env st).1 = Some (unmarshal_target (resp_Body resp) t).1
            /\ (execute' env st).2
               = ErrWrapped "decoding response" <$> (unmarshal_target (resp_Body resp) t).2
        end)
  /\ (resp_ReadErr resp = None -> ~ 200 <= resp_StatusCode resp < 300 ->
        execute' env st
        = (sent st, Some (ErrAPI (newAPIError' (resp_StatusCode resp) (resp_Body resp))))).
Proof.
  intros Hsrv. split; [apply execute_dispatched|].
  unfold execute. rewrite Hsrv. split; [|split].
  - intros e ->. reflexivity.
  - intros -> Hin. apply in_2xx_test in Hin. rewrite Hin.
    unfold decodeInto. simpl.
    destruct (target st) as [t|]; [|reflexivity].
    destruct (unmarshal_target (resp_Body resp) t) as [t' [d|]]; split; reflexivity.
  - intros -> Hout.
    destruct ((resp_StatusCode resp <? 200) || (300 <=? resp_StatusCode resp)) eqn:E;
      [reflexivity | apply in_2xx_test in E; contradiction].
Qed.

(** The dispatches of a call: all but the last were retryable failures
    followed by a completed wait; the last one decides, unless the wait
    after it is cut short. *)
Lemma do_dispatches_shape c env (result : option Target) :
  typedPolicy c ->
  (0 < dispatched (do' c env result).1)%nat ->
  exists st_last,
    dispatched (do' c env result).1 = S (dispatched st_last)
    /\ target st_last = result
    /\ (forall i, (i < dispatched st_last)%nat ->
          retryableOutcome (server env i) = true /\ ctx_done env i = None
          /\ exists r, retry c = Some r /\ Z.of_nat i < maxRetries r)
    /\ (do' c env result = execute' env st_last
        \/ exists r ce,
             retry c = Some r /\ Z.of_nat (dispatched st_last) < maxRetries r
             /\ retryableOutcome (server env (dispatched st_last)) = true
             /\ ctx_done env (dispatched st_last) = Some ce
             /\ do' c env result = (sent st_last, Some (ErrContext ce))).
Proof.
  unfold typedPolicy. destruct (retry c) as [r|] eqn:Hc; intros Hty Hpos.
  - destruct (Z_le_dec 0 (maxRetries r)) as [H0|H0];
      [destruct (Z_lt_dec (maxRetries r) Go.maxInt64) as [H1|H1]|].
    + revert Hpos. rewrite (do_with_policy _ _ _ _ _ _ _ Hc (conj H0 H1)). intros _.
      destruct (retryLoop_last Target unmarshal_errResp unmarshal_target r env
                  (Z.to_nat (maxRetries r)) 0%nat None (initial result)
                  eq_refl ltac:(lia))
        as (k & st_last & Hk & Hd & Ht & _ & Hpre & Hend).
      simpl in Hd. exists st_last. rewrite Hd.
      split.
      { destruct Hend as [[-> _] | (ce & -> & _)];
          [rewrite execute_dispatched, Hd; reflexivity | simpl; rewrite Hd; reflexivity]. }
      split; [exact Ht|].
      split.
      { intros i Hi. destruct (Hpre i ltac:(lia)) as [Hr Hcx].
        split; [exact Hr|]. split; [exact Hcx|]. exists r. split; [reflexivity | lia]. }
      destruct Hend as [[Hex _] | (ce & Hcx & Hr & Hdone & Hlt)].
      * left. exact Hex.
      * right. exists r, ce. simpl in Hr, Hdone.
        split; [reflexivity|]. split; [lia|]. split; [exact Hr|]. split; [exact Hdone|].
        exact Hcx.
    + exfalso. revert Hpos.
      rewrite (do_no_iteration c r env result Hc Hty) by lia. simpl. lia.
    + exfalso. revert Hpos.
      rewrite (do_no_iteration c r env result Hc Hty) by lia. simpl. lia.
  - exists (initial result).
    rewrite (do_without_policy _ _ _ _ _ _ Hc). rewrite execute_dispatched.
    split; [reflexivity|]. split; [reflexivity|].
    split; [intros i Hi; simpl in Hi; lia|]. left. reflexivity.
Qed.

(** C1, amended. Every response the executor receives during a call of
    [do] (the response to dispatch [k], the policy's budget being an [int])
    is handled in one of these ways.
    - Its body cannot be read: the call ends there with the error wrapped as
      [reading response], whatever the status code, and the target is left
      as it was.
    - Its status code is in [200,300): the call ends there; with a target
      the body goes to the decoder, whose result is the target and whose
      error, if any, is returned wrapped as [decoding response]; without a
      target there is no error; in no case is the error an [APIError].
    - Any other status code: either the call ends there with the
      [APIError] built by [newAPIError], whose [StatusCode] is that code and
      whose [RawBody] is the body read, the target left as it was; or the
      code is retryable and the policy allows another attempt, and then
      either a further dispatch follows or the caller ended the wait and
      the call returns the context's error. *)
Theorem C1_response_classification (c : Client) (env : Env) (result : option Target)
    (k : nat) (resp : Response) :
  typedPolicy c ->
  (k < dispatched (do' c env result).1)%nat ->
  server env k = inr resp ->
  let out := do' c env result in
  let code := resp_StatusCode resp in
  let body := resp_Body resp in
  (forall e, resp_ReadErr resp = Some e ->
     dispatched out.1 = S k
     /\ out.2 = Some (ErrWrapped "reading response" e)
     /\ target out.1 = result)
  /\ (resp_ReadErr resp = None -> 200 <= code < 300 ->
      dispatched out.1 = S k
      /\ match result with
         | None => out.2 = None /\ target out.1 = None
         | Some t =>
             out.2 = ErrWrapped "decoding response" <$> (unmarshal_target body t).2
             /\ target out.1 = Some (unmarshal_target body t).1
         end
      /\ (forall e, out.2 = Some e -> is_api_error e = false))
  /\ (resp_ReadErr resp = None -> ~ 200 <= code < 300 ->
      (dispatched out.1 = S k
       /\ out.2 = Some (ErrAPI (newAPIError' code body))
       /\ StatusCode (newAPIError' code body) = code
       /\ RawBody (newAPIError' code body) = body
       /\ target out.1 = result)
      \/ (isRetryable code = true
          /\ exists r, retry c = Some r /\ Z.of_nat k < maxRetries r
             /\ ((S k < dispatched out.1)%nat /\ ctx_done env k = None
                 \/ exists ce, ctx_done env k = Some ce
                      /\ dispatched out.1 = S k
                      /\ out.2 = Some (ErrContext ce)
                      /\ target out.1 = result))).
Proof.
  intros Hty Hk Hsrv out code body. subst out code body.
  destruct (do_dispatches_shape c env result Hty ltac:(lia))
    as (st_last & Hd & Ht & Hpre & Hend).
  rewrite Hd in Hk |- *.
  destruct (decide (k = dispatched st_last)) as [->|Hne].
  - (* the last dispatch *)
    destruct (execute_response env st_last resp Hsrv) as (_ & Hread & Hok & Hbad).
    destruct Hend as [Hex | (r & ce & Hc & Hlt & Hr & Hdone & Hcx)].
    + rewrite Hex. split; [|split].
      * intros e He. rewrite (Hread e He). simpl. auto.
      * intros Hrd Hin. specialize (Hok Hrd Hin). rewrite Ht in Hok.
        split; [reflexivity|]. split.
        -- destruct result as [t|].
           ++ destruct Hok as [Htg Her]. split; [exact Her | exact Htg].
           ++ rewrite Hok. simpl. split; [reflexivity | exact Ht].
        -- intros e He. destruct result as [t|].
           ++ destruct Hok as [_ Her]. rewrite Her in He.
              destruct (unmarshal_target (resp_Body resp) t).2; [|discriminate].
              simpl in He. injection He as <-. reflexivity.
           ++ rewrite Hok in He. discriminate He.
      * intros Hrd Hout. left. rewrite (Hbad Hrd Hout). simpl.
        split; [reflexivity|]. split; [reflexivity|].
        split; [apply newAPIError_StatusCode|]. split; [apply newAPIError_RawBody|].
        exact Ht.
    + apply retryableOutcome_inv in Hr as (resp' & Hsrv' & Hrd' & Hretry & Hcode).
      rewrite Hsrv in Hsrv'. injection Hsrv' as <-.
      rewrite Hcx. simpl. split; [|split].
      * intros e He. rewrite He in Hrd'. discriminate Hrd'.
      * intros _ Hin. contradiction.
      * intros _ _. right. split; [exact Hretry|]. exists r.
        split; [exact Hc|]. split; [exact Hlt|]. right. exists ce.
        split; [exact Hdone|]. split; [reflexivity|]. split; [reflexivity | exact Ht].
  - (* an earlier dispatch: a retryable failure that was retried *)
    destruct (Hpre k ltac:(lia)) as (Hr & Hcx & r & Hc & Hlt).
    apply retryableOutcome_inv in Hr as (resp' & Hsrv' & Hrd' & Hretry & Hcode).
    rewrite Hsrv in Hsrv'. injection Hsrv' as <-.
    split; [|split].
    + intros e He. rewrite He in Hrd'. discriminate Hrd'.
    + intros _ Hin. contradiction.
    + intros _ _. right. split; [exact Hretry|]. exists r.
      split; [exact Hc|]. split; [exact Hlt|]. left. split; [lia | exact Hcx].
Qed.

End ClassificationFacts.

(** C1 on the flaky server of the test-suite under a policy of five
    retries: the third response is the 200, the call returns no error and
    the target holds what the decoder made of the body. *)
Lemma C1_response_classification_witness :
  (do Fixtures.unmarshal_errResp Fixtures.unmarshal_target
      (Fixtures.client (Some (Fixtures.policy 5))) Fixtures.flaky (Some false)).2 = None
  /\ target (do Fixtures.unmarshal_errResp Fixtures.unmarshal_target
      (Fixtures.client (Some (Fixtures.policy 5))) Fixtures.flaky (Some false)).1 = Some true.
Proof.
  destruct (C1_response_classification bool Fixtures.unmarshal_errResp
              Fixtures.unmarshal_target
              (Fixtures.client (Some (Fixtures.policy 5))) Fixtures.flaky (Some false)
              2%nat
              {| resp_StatusCode := 200; resp_RetryAfter := ""; resp_Body := Fixtures.body_ok;
                 resp_ReadErr := None |})
    as (_ & Hok & _).
  - vm_compute. split; discriminate.
  - vm_compute. lia.
  - reflexivity.
  - destruct (Hok eq_refl ltac:(simpl; lia)) as (_ & [Herr Htg] & _).
    split; [exact Herr | exact Htg].
Defined.

(** C1, as stated, fails: a 404 whose body cannot be read makes the call
    return the read error, wrapped, not an [APIError]. *)
Lemma C1_response_classification_counterexample :
  ~ (forall (c : Client) (env : Env) (result : option bool) (resp : Response),
       retry c = None ->
       server env 0 = inr resp ->
       ~ 200 <= resp_StatusCode resp < 300 ->
       exists a : APIError,
         (do Fixtures.unmarshal_errResp Fixtures.unmarshal_target c env result).2
         = Some (ErrAPI a)
         /\ StatusCode a = resp_StatusCode resp
         /\ RawBody a = resp_Body resp).
Proof.
  intros H.
  destruct (H (Fixtures.client None)
              {| server := fun _ => inr {| resp_StatusCode := 404; resp_RetryAfter := "";
                                           resp_Body := [];
                                           resp_ReadErr := Some (LibError "unexpected EOF") |};
                 ctx_done := Fixtures.never_cancelled; rand := Fixtures.no_jitter;
                 indefinite := Fixtures.amd64 |}
              (Some false) _ eq_refl eq_refl ltac:(simpl; lia))
    as (a & Ha & _).
  vm_compute in Ha. discriminate Ha.
Qed.

(** X1 on a server that always answers 500 while the caller cancels during
    the second wait, with three retries allowed. *)
Lemma X1_dispatch_bound_and_waits_witness :
  (1 <= dispatched
          (do Fixtures.unmarshal_errResp Fixtures.unmarshal_target
              (Fixtures.client (Some (Fixtures.policy 3))) (Fixtures.cancelled_at 1)
              (Some false)).1 <= 4)%nat.
Proof.
  destruct (X1_dispatch_bound_and_waits bool Fixtures.unmarshal_errResp
              Fixtures.unmarshal_target
              (Fixtures.client (Some (Fixtures.policy 3))) (Fixtures.policy 3)
              (Fixtures.cancelled_at 1) (Some false) eq_refl
              ltac:(vm_compute; split; [discriminate | reflexivity])) as (H & _).
  exact H.
Defined.

(** X2 on the end-to-end scenario: 429 twice, then 200; the two waits are
    50ms and 100ms (the draw being 0), and the target is decoded. *)
Lemma X2_outcome_of_the_last_dispatch_witness :
  do Fixtures.unmarshal_errResp Fixtures.unmarshal_target
     (Fixtures.client (Some (Fixtures.policy 5))) Fixtures.flaky (Some false)
  = ({| dispatched := 3; slept := [100 * Millisecond; 50 * Millisecond];
        target := Some true |}, None).
Proof.
  rewrite (X2_outcome_of_the_last_dispatch bool Fixtures.unmarshal_errResp
             Fixtures.unmarshal_target
             (Fixtures.client (Some (Fixtures.policy 5))) (Fixtures.policy 5)
             Fixtures.flaky (Some false) 2%nat eq_refl
             ltac:(vm_compute; split; [discriminate | reflexivity])
             ltac:(vm_compute; discriminate)).
  - reflexivity.
  - intros i Hi. destruct i as [|[|i]]; [split; reflexivity | split; reflexivity | lia].
  - left. reflexivity.
Defined.

(** X3 on a server that always answers 500, with two retries allowed. *)
Lemma X3_exhausted_returns_last_error_witness :
  (do Fixtures.unmarshal_errResp Fixtures.unmarshal_target
      (Fixtures.client (Some (Fixtures.policy 2)))
      (Fixtures.always 500 (Fixtures.body_of "boom")) (Some false)).2
  = Some (ErrAPI {| StatusCode := 500; Message := "boom";
                    RawBody := Fixtures.body_of "boom" |}).
Proof.
  destruct (X3_exhausted_returns_last_error bool Fixtures.unmarshal_errResp
              Fixtures.unmarshal_target
              (Fixtures.client (Some (Fixtures.policy 2))) (Fixtures.policy 2)
              (Fixtures.always 500 (Fixtures.body_of "boom")) (Some false) eq_refl
              ltac:(vm_compute; split; [discriminate | reflexivity])
              (fun _ _ => eq_refl) (fun _ _ => eq_refl)) as (H & _).
  rewrite H. reflexivity.
Defined.

(** X4 on [WithRetry(-1, ...)] against a server that would answer 500. *)
Lemma X4_negative_budget_sends_nothing_witness :
  do Fixtures.unmarshal_errResp Fixtures.unmarshal_target
     (Fixtures.client (Some (Fixtures.policy (-1))))
     (Fixtures.always 500 (Fixtures.body_of "boom")) (Some false)
  = ({| dispatched := 0; slept := []; target := Some false |}, None).
Proof.
  apply (X4_negative_budget_sends_nothing bool Fixtures.unmarshal_errResp
           Fixtures.unmarshal_target
           (Fixtures.client (Some (Fixtures.policy (-1)))) (Fixtures.policy (-1))
           (Fixtures.always 500 (Fixtures.body_of "boom")) (Some false) eq_refl).
  left. vm_compute. split; [discriminate | reflexivity].
Defined.

(** X5 on [WithRetry(0, ...)] against a server that answers 500. *)
Lemma X5_zero_budget_is_single_dispatch_witness :
  do Fixtures.unmarshal_errResp Fixtures.unmarshal_target
     (Fixtures.client (Some (Fixtures.policy 0)))
     (Fixtures.always 500 (Fixtures.body_of "boom")) (Some false)
  = do Fixtures.unmarshal_errResp Fixtures.unmarshal_target
       (Fixtures.client None)
       (Fixtures.always 500 (Fixtures.body_of "boom")) (Some false).
Proof.
  rewrite (X5_zero_budget_is_single_dispatch bool Fixtures.unmarshal_errResp
             Fixtures.unmarshal_target
             (Fixtures.client (Some (Fixtures.policy 0))) (Fixtures.policy 0)
             (Fixtures.always 500 (Fixtures.body_of "boom")) (Some false)
             eq_refl eq_refl).
  reflexivity.
Defined.

(** X6 on a server that always answers 401, with three retries allowed. *)
Lemma X6_api_error_is_of_last_response_witness :
  target
    (do Fixtures.unmarshal_errResp Fixtures.unmarshal_target
        (Fixtures.client (Some (Fixtures.policy 3)))
        (Fixtures.always 401 (Fixtures.body_of (Fixtures.json_field "message" "Invalid key")))
        (Some false)).1
  = Some false.
Proof.
  destruct (X6_api_error_is_of_last_response bool Fixtures.unmarshal_errResp
              Fixtures.unmarshal_target
              (Fixtures.client (Some (Fixtures.policy 3))) (Fixtures.policy 3)
              (Fixtures.always 401 (Fixtures.body_of (Fixtures.json_field "message" "Invalid key")))
              (Some false)
              {| StatusCode := 401; Message := "Invalid key";
                 RawBody := Fixtures.body_of (Fixtures.json_field "message" "Invalid key") |}
              eq_refl ltac:(vm_compute; split; [discriminate | reflexivity]) eq_refl)
    as (resp & _ & _ & _ & _ & _ & _ & H).
  exact H.
Defined.

(** X7 on the end-to-end scenario: the call returns nil and the target is
    the decoded one. *)
Lemma X7_nil_means_2xx_and_decoded_witness :
  exists resp,
    server Fixtures.flaky 2 = inr resp /\ 200 <= resp_StatusCode resp < 300.
Proof.
  destruct (X7_nil_means_2xx_and_decoded bool Fixtures.unmarshal_errResp
              Fixtures.unmarshal_target
              (Fixtures.client (Some (Fixtures.policy 5))) (Fixtures.policy 5)
              Fixtures.flaky (Some false) eq_refl
              ltac:(vm_compute; split; [discriminate | reflexivity]) eq_refl)
    as (resp & Hsrv & _ & Hcode & _).
  exists resp. split; [exact Hsrv | exact Hcode].
Defined.

(** X8 on a call cancelled during its second wait. *)
Lemma X8_failure_leaves_target_witness :
  target
    (do Fixtures.unmarshal_errResp Fixtures.unmarshal_target
        (Fixtures.client (Some (Fixtures.policy 3))) (Fixtures.cancelled_at 1)
        (Some false)).1
  = Some false.
Proof.
  apply (X8_failure_leaves_target bool Fixtures.unmarshal_errResp
           Fixtures.unmarshal_target
           (Fixtures.client (Some (Fixtures.policy 3))) (Fixtures.policy 3)
           (Fixtures.cancelled_at 1) (Some false) (ErrContext Canceled) eq_refl
           ltac:(vm_compute; split; [discriminate | reflexivity]) eq_refl).
  discriminate.
Defined.

(** ** The growth of the backoff *)

(** X9. In float64, as the code computes it: for an attempt [k >= 0], an
    initial delay and a cap between 0 and 2^53 nanoseconds (and, when the
    initial delay is 0, attempts below 1023, beyond which the product is
    0 * Inf), the backoff before jitter is the finite float of value
    min(D * 2^k, maxDelay); it never decreases from attempt [k] to [k + 1],
    it doubles as long as the doubled value is within the cap, and once
    D * 2^k has reached the cap it stays at the cap. *)
Theorem X9_backoff_doubles_up_to_the_cap (r : retryConfig) (k : Z) :
  0 <= k ->
  0 <= initialDelay r <= 2 ^ 53 ->
  0 <= maxDelay r <= 2 ^ 53 ->
  (initialDelay r = 0 -> k + 1 < 1024) ->
  finite_nonneg (backoffOf r k) /\ finite_nonneg (backoffOf r (k + 1))
  /\ (Go.val (backoffOf r k)
      == inject_Z (Z.min (initialDelay r * 2 ^ k) (maxDelay r)))%Q
  /\ (Go.val (backoffOf r k) <= Go.val (backoffOf r (k + 1)))%Q
  /\ (initialDelay r * 2 ^ (k + 1) <= maxDelay r ->
      (Go.val (backoffOf r (k + 1)) == 2 * Go.val (backoffOf r k))%Q)
  /\ (maxDelay r <= initialDelay r * 2 ^ k ->
      (Go.val (backoffOf r (k + 1)) == inject_Z (maxDelay r))%Q
      /\ (Go.val (backoffOf r k) == inject_Z (maxDelay r))%Q).
Proof.
  intros Hk HD HM Hzero.
  destruct (backoffOf_value r k Hk HD HM ltac:(lia)) as [Hf0 Hv0].
  destruct (backoffOf_value r (k + 1) ltac:(lia) HD HM Hzero) as [Hf1 Hv1].
  pose proof (pow2_pos k Hk) as Hp.
  assert (Hs : 2 ^ (k + 1) = 2 * 2 ^ k) by (apply Z.pow_succ_r; exact Hk).
  split; [exact Hf0|]. split; [exact Hf1|]. split; [exact Hv0|].
  rewrite Hv0, Hv1, Hs. split; [|split].
  - rewrite <- Zle_Qle. nia.
  - intros Hle.
    rewrite !Z.min_l by nia. rewrite inject_Z_mult, inject_Z_mult, inject_Z_mult.
    change (inject_Z 2) with 2%Q. ring.
  - intros Hge. rewrite !Z.min_r by nia. split; reflexivity.
Qed.

(** X9 on the policy of the README between the first and the second
    attempt: 500ms, then 1s. *)
Lemma X9_backoff_doubles_up_to_the_cap_witness :
  (Go.val (backoffOf Fixtures.readme 1) == 2 * Go.val (backoffOf Fixtures.readme 0))%Q.
Proof.
  destruct (X9_backoff_doubles_up_to_the_cap Fixtures.readme 0)
    as (_ & _ & _ & _ & H & _).
  - lia.
  - vm_compute. split; discriminate.
  - vm_compute. split; discriminate.
  - intros H. vm_compute in H. discriminate H.
  - apply H. vm_compute. discriminate.
Defined.

(** ** Options and construction of the client *)

Lemma TrimRight_slashes k : TrimRight (slashes k) "/" = "".
Proof. induction k as [|k IH]; [reflexivity|]. simpl. rewrite IH. reflexivity. Qed.

Lemma in_cutset_slash c : in_cutset c "/" = Ascii.eqb c "/".
Proof. unfold in_cutset. simpl. apply orb_false_r. Qed.

Lemma TrimRight_decompose s : exists k, s = (TrimRight s "/" ++ slashes k)%string.
Proof.
  induction s as [|c s [k IH]].
  - exists 0%nat. reflexivity.
  - simpl. destruct (TrimRight s "/") as [|c' t] eqn:Ht.
    + rewrite in_cutset_slash. destruct (Ascii.eqb c "/") eqn:Hc.
      * apply Ascii.eqb_eq in Hc. subst c. exists (S k).
        rewrite IH at 1. reflexivity.
      * exists k. rewrite IH at 1. reflexivity.
    + exists k. rewrite IH at 1. reflexivity.
Qed.

Lemma TrimRight_no_trailing_slash s : lastByte (TrimRight s "/") <> Some "/"%char.
Proof.
  induction s as [|c s IH]; [discriminate|].
  simpl. destruct (TrimRight s "/") as [|c' t] eqn:Ht.
  - rewrite in_cutset_slash. destruct (Ascii.eqb c "/") eqn:Hc; [discriminate|].
    simpl. apply Ascii.eqb_neq in Hc. congruence.
  - exact IH.
Qed.

Lemma TrimRight_recovers b k :
  lastByte b <> Some "/"%char -> TrimRight (b ++ slashes k) "/" = b.
Proof.
  induction b as [|c b IH]; intros Hlast.
  - apply TrimRight_slashes.
  - change (String c b ++ slashes k)%string with (String c (b ++ slashes k)).
    simpl. destruct b as [|c' b'].
    + change ("" ++ slashes k)%string with (slashes k).
      rewrite TrimRight_slashes, in_cutset_slash.
      destruct (Ascii.eqb c "/") eqn:Hc; [|reflexivity].
      apply Ascii.eqb_eq in Hc. subst c. exfalso. apply Hlast. reflexivity.
    + rewrite IH by exact Hlast. reflexivity.
Qed.

(** X10. [WithBaseURL] stores the URL without its trailing slashes and
    removes nothing else: the URL given is the stored one followed by
    slashes only, the stored one does not end in a slash, and it is the
    only string of which both hold.  The key and the retry policy of the
    client are not touched. *)
Theorem X10_WithBaseURL_trims_trailing_slashes (url : string) (c : Client) :
  let b := baseURL (WithBaseURL url c) in
  (exists k, url = (b ++ slashes k)%string)
  /\ lastByte b <> Some "/"%char
  /\ (forall b' k', url = (b' ++ slashes k')%string ->
        lastByte b' <> Some "/"%char -> b' = b)
  /\ apiKey (WithBaseURL url c) = apiKey c
  /\ retry (WithBaseURL url c) = retry c.
Proof.
  simpl. split; [apply TrimRight_decompose|].
  split; [apply TrimRight_no_trailing_slash|].
  split; [|split; reflexivity].
  intros b' k' -> Hlast. symmetry. apply TrimRight_recovers. exact Hlast.
Qed.

Lemma NewClient_snoc key opts opt :
  NewClient key (opts ++ [opt]) = opt (NewClient key opts).
Proof. unfold NewClient. rewrite fold_left_app. reflexivity. Qed.

Lemma WithBaseURL_not_WithRetry url : ~ isWithRetry (WithBaseURL url).
Proof.
  intros (m & i & d & Heq).
  apply (f_equal (fun opt => retry (opt {| apiKey := ""; baseURL := ""; retry := None |}))) in Heq.
  discriminate Heq.
Qed.

(** X11. For every list of options of the package, [NewClient] keeps the
    key it is given, builds a base URL that does not end in a slash, and
    has a retry policy exactly when one of the options is a [WithRetry].
    The last [WithBaseURL] and the last [WithRetry] are the ones that
    count, whatever options of the other kind follow them. *)
Theorem X11_NewClient_invariants (key : string) (opts : list Option) :
  Forall packageOption opts ->
  apiKey (NewClient key opts) = key
  /\ lastByte (baseURL (NewClient key opts)) <> Some "/"%char
  /\ (retry (NewClient key opts) = None <-> ~ Exists isWithRetry opts)
  /\ (forall url, baseURL (NewClient key (opts ++ [WithBaseURL url])) = TrimRight url "/"
                  /\ retry (NewClient key (opts ++ [WithBaseURL url]))
                     = retry (NewClient key opts))
  /\ (forall m i d,
        retry (NewClient key (opts ++ [WithRetry m i d]))
        = Some {| maxRetries := m; initialDelay := i; maxDelay := d |}
        /\ baseURL (NewClient key (opts ++ [WithRetry m i d]))
           = baseURL (NewClient key opts)).
Proof.
  intros Hopts.
  split; [|split; [|split; [|split]]].
  - induction opts as [|opt opts IH] using rev_ind; [reflexivity|].
    apply Forall_app in Hopts as [Hopts Hopt]. rewrite NewClient_snoc.
    apply Forall_cons in Hopt as [Hopt _]. destruct Hopt; simpl; apply IH; exact Hopts.
  - induction opts as [|opt opts IH] using rev_ind; [discriminate|].
    apply Forall_app in Hopts as [Hopts Hopt]. rewrite NewClient_snoc.
    apply Forall_cons in Hopt as [Hopt _]. destruct Hopt; simpl.
    + apply TrimRight_no_trailing_slash.
    + apply IH. exact Hopts.
  - induction opts as [|opt opts IH] using rev_ind.
    + split; [intros _ H; apply Exists_nil in H; exact H | reflexivity].
    + apply Forall_app in Hopts as [Hopts Hopt]. rewrite NewClient_snoc.
      apply Forall_cons in Hopt as [Hopt _]. rewrite Exists_app, Exists_cons, Exists_nil.
      destruct Hopt as [url | m i d]; simpl.
      * rewrite (IH Hopts). split.
        -- intros Hno [H | [H | H]]; [exact (Hno H) | | exact H].
           exact (WithBaseURL_not_WithRetry url H).
        -- intros Hno H. apply Hno. left. exact H.
      * split; [discriminate|]. intros Hno. exfalso. apply Hno. right. left.
        exists m, i, d. reflexivity.
  - intros url. rewrite NewClient_snoc. split; reflexivity.
  - intros m i d. rewrite NewClient_snoc. split; reflexivity.
Qed.

(** X11 on the options of the test-suite and a retry policy. *)
Lemma X11_NewClient_invariants_witness :
  NewClient "key" [WithBaseURL "https://custom.api.com/"; WithRetry 3 100 5000]
  = {| apiKey := "key"; baseURL := "https://custom.api.com";
       retry := Some {| maxRetries := 3; initialDelay := 100; maxDelay := 5000 |} |}.
Proof.
  destruct (X11_NewClient_invariants "key" [WithBaseURL "https://custom.api.com/"])
    as (Hkey & _ & _ & _ & Hretry).
  - constructor; [constructor | constructor].
  - destruct (Hretry 3 100 5000) as [Hr Hb].
    change ([WithBaseURL "https://custom.api.com/"] ++ [WithRetry 3 100 5000])%list
      with [WithBaseURL "https://custom.api.com/"; WithRetry 3 100 5000] in *.
    destruct (NewClient "key" [WithBaseURL "https://custom.api.com/"; WithRetry 3 100 5000])
      as [k b rt] eqn:Hc.
    simpl in *. subst rt. rewrite Hb. f_equal.
    apply (f_equal apiKey) in Hc. simpl in Hc. rewrite <- Hc. reflexivity.
Defined.

(** ** The text and the recognition of an [APIError] *)

Example formatInt_examples :
  formatInt 401 = "401" /\ formatInt 0 = "0" /\ formatInt (-7) = "-7".
Proof. repeat split; reflexivity. Qed.

(** The two cases of the test-suite. *)
Example APIError_Error_examples :
  APIError_Error {| StatusCode := 401; Message := "Invalid key"; RawBody := [] |}
  = "geoapify: API error 401: Invalid key"
  /\ APIError_Error {| StatusCode := 500; Message := ""; RawBody := [] |}
     = "geoapify: API error 500".
Proof. split; reflexivity. Qed.

Lemma string_of_list_byte_empty (body : list byte) :
  string_of_list_byte body = "" -> body = [].
Proof. destruct body; [reflexivity | discriminate]. Qed.

Section ErrorFacts.

Variable unmarshal_errResp : list byte -> errResp * option lib_error.

Local Abbreviation newAPIError' := (newAPIError unmarshal_errResp).

Lemma newAPIError_Message_empty code body :
  Message (newAPIError' code body) = "" -> body = [].
Proof.
  unfold newAPIError. destruct (unmarshal_errResp body) as [p [e|]]; simpl.
  - apply string_of_list_byte_empty.
  - destruct (String.eqb (errResp_Message p) "") eqn:Hm; simpl.
    + destruct (String.eqb (errResp_Error p) "") eqn:He; simpl.
      * apply string_of_list_byte_empty.
      * rewrite He. intros H. apply String.eqb_neq in He. contradiction.
    + rewrite Hm. intros H. apply String.eqb_neq in Hm. contradiction.
Qed.

(** X12. The error built from a response with a non-empty body always has
    a message, so its text is the long form, status and message; only an
    empty body can give the short form, and does so when the decoder
    rejects it or finds neither field. *)
Theorem X12_error_text_of_a_response (code : Z) (body : list byte) :
  (body <> [] ->
     Message (newAPIError' code body) <> ""
     /\ APIError_Error (newAPIError' code body)
        = ("geoapify: API error " ++ formatInt code ++ ": "
           ++ Message (newAPIError' code body))%string)
  /\ (body = [] ->
      ((unmarshal_errResp []).2 <> None
       \/ (errResp_Message (unmarshal_errResp []).1 = ""
           /\ errResp_Error (unmarshal_errResp []).1 = "")) ->
      APIError_Error (newAPIError' code body)
      = ("geoapify: API error " ++ formatInt code)%string).
Proof.
  split.
  - intros Hbody.
    assert (Hm : Message (newAPIError' code body) <> "").
    { intros H. apply Hbody. apply (newAPIError_Message_empty code body H). }
    split; [exact Hm|].
    unfold APIError_Error. rewrite newAPIError_StatusCode.
    apply String.eqb_neq in Hm. rewrite Hm. reflexivity.
  - intros -> Hdec.
    assert (Hm : Message (newAPIError' code []) = "").
    { unfold newAPIError. destruct (unmarshal_errResp []) as [p [e|]]; simpl in *.
      - reflexivity.
      - destruct Hdec as [H | [-> ->]]; [contradiction | reflexivity]. }
    unfold APIError_Error. rewrite newAPIError_StatusCode, Hm. reflexivity.
Qed.

End ErrorFacts.

(** X12 on the 401 of the end-to-end scenario. *)
Lemma X12_error_text_of_a_response_witness :
  APIError_Error
    (newAPIError Fixtures.unmarshal_errResp 401
       (Fixtures.body_of (Fixtures.json_field "message" "Invalid key")))
  = "geoapify: API error 401: Invalid key".
Proof.
  destruct (X12_error_text_of_a_response Fixtures.unmarshal_errResp 401
              (Fixtures.body_of (Fixtures.json_field "message" "Invalid key")))
    as [Hlong _].
  destruct (Hlong ltac:(discriminate)) as [_ ->]. reflexivity.
Defined.

Lemma errorsAs_wrapAll texts e : errorsAs (wrapAll texts e) = errorsAs e.
Proof. induction texts as [|t texts IH]; [reflexivity | exact IH]. Qed.

Section RecognitionFacts.

Variable Target : Type.
Variable unmarshal_errResp : list byte -> errResp * option lib_error.
Variable unmarshal_target : list byte -> Target -> Target * option lib_error.

Local Abbreviation newAPIError' := (newAPIError unmarshal_errResp).
Local Abbreviation do' := (do unmarshal_errResp unmarshal_target).

(** X13. [IsAPIError] on the error of a call, however many times the
    caller has wrapped it with [%w], succeeds exactly when the call ended
    on an [APIError], and then hands back that very error: under a policy
    with [maxRetries >= 0] its status is the status of the last response
    received, outside [200,300).  On nil, and on a transport, decoding or
    context error, it reports false. *)
Theorem X13_IsAPIError_on_a_call (c : Client) (r : retryConfig) (env : Env)
    (result : option Target) (texts : list string) :
  retry c = Some r ->
  0 <= maxRetries r < Go.maxInt64 ->
  let outcome := (do' c env result).2 in
  (forall a,
     IsAPIError (wrapAll texts <$> (errorValue <$> outcome)) = Some a <->
     outcome = Some (ErrAPI a))
  /\ (forall a,
        IsAPIError (wrapAll texts <$> (errorValue <$> outcome)) = Some a ->
        exists resp,
          server env (dispatched (do' c env result).1 - 1) = inr resp
          /\ StatusCode a = resp_StatusCode resp
          /\ ~ 200 <= StatusCode a < 300)
  /\ (outcome = None ->
        IsAPIError (wrapAll texts <$> (errorValue <$> outcome)) = None).
Proof.
  intros Hc HN outcome.
  assert (Hiff : forall a,
            IsAPIError (wrapAll texts <$> (errorValue <$> outcome)) = Some a <->
            outcome = Some (ErrAPI a)).
  { intros a. destruct outcome as [[a' | phase [what] | [|]]|]; simpl;
      rewrite ?errorsAs_wrapAll; simpl; split; intros H; congruence. }
  split; [exact Hiff|]. split.
  - intros a Ha. apply Hiff in Ha.
    destruct (do_last Target unmarshal_errResp unmarshal_target c r env result Hc HN)
      as (st_last & Hd & _ & [Hex | (ce & Hcx)]).
    + unfold outcome in Ha. rewrite Hex in Ha.
      destruct (execute_api_error Target unmarshal_errResp unmarshal_target
                  env st_last a Ha) as (resp & Hsrv & _ & Hcode & -> & _).
      exists resp. rewrite <- Hd. simpl. rewrite Nat.sub_0_r.
      rewrite newAPIError_StatusCode. auto.
    + unfold outcome in Ha. rewrite Hcx in Ha. discriminate Ha.
  - intros ->. reflexivity.
Qed.

End RecognitionFacts.

(** X13 on the 401 of the end-to-end scenario, wrapped twice by the
    caller. *)
Lemma X13_IsAPIError_on_a_call_witness :
  IsAPIError
    (wrapAll ["geocoding"; "lookup"] <$>
       (errorValue <$>
          (do Fixtures.unmarshal_errResp Fixtures.unmarshal_target
              (Fixtures.client (Some (Fixtures.policy 3)))
              (Fixtures.always 401 (Fixtures.body_of (Fixtures.json_field "message" "Invalid key")))
              (Some false)).2))
  = Some {| StatusCode := 401; Message := "Invalid key";
            RawBody := Fixtures.body_of (Fixtures.json_field "message" "Invalid key") |}.
Proof.
  apply (X13_IsAPIError_on_a_call bool Fixtures.unmarshal_errResp
           Fixtures.unmarshal_target
           (Fixtures.client (Some (Fixtures.policy 3))) (Fixtures.policy 3)
           (Fixtures.always 401 (Fixtures.body_of (Fixtures.json_field "message" "Invalid key")))
           (Some false) ["geocoding"; "lookup"] eq_refl
           ltac:(vm_compute; split; [discriminate | reflexivity])).
  reflexivity.
Defined.

(** ** [doGet] and [doPost] *)

Section CallFacts.

Variable Target : Type.
Variable unmarshal_errResp : list byte -> errResp * option lib_error.
Variable unmarshal_target : list byte -> Target -> Target * option lib_error.
Variable Body : Type.
Variable json_Marshal : Body -> list byte * option lib_error.

Local Abbreviation do' := (do unmarshal_errResp unmarshal_target).
Local Abbreviation execute' := (execute unmarshal_errResp unmarshal_target).
Local Abbreviation attempt' := (attemptWithHint unmarshal_errResp unmarshal_target).
Local Abbreviation doGet' := (doGet unmarshal_errResp unmarshal_target).
Local Abbreviation doPost' := (doPost unmarshal_errResp unmarshal_target json_Marshal).

(** Under a sound policy, or none, [do] dispatches at least once. *)
Lemma do_dispatches c env (result : option Target) :
  soundPolicy c -> (1 <= dispatched (do' c env result).1)%nat.
Proof.
  unfold soundPolicy. destruct (retry c) as [r|] eqn:Hc; intros HN.
  - destruct (do_last Target unmarshal_errResp unmarshal_target c r env result Hc HN)
      as (st_last & Hd & _). lia.
  - unfold do. rewrite Hc. rewrite execute_dispatched. lia.
Qed.

(** X14. [doGet] and [doPost] hand nothing to the transport unless a
    request exists: a body that cannot be marshalled, or a request that
    cannot be created, ends the call with that error wrapped, no dispatch
    and an untouched target.  Under a sound policy (or none) these are the
    only calls without a dispatch.  A POST carries the marshalled body
    and the JSON content type. *)
Theorem X14_no_dispatch_without_a_request (c : Client) (w : Wire) (path : string)
    (params : option Values) (body : Body) (result : option Target) :
  soundPolicy c ->
  let get := doGet' c w path params result in
  let post := doPost' c w path params body result in
  let url := (buildURL c (wire_shuffle w) path params).1 in
  (forall e, (json_Marshal body).2 = Some e ->
     call_err post = Some (ErrWrapped "marshaling request body" e)
     /\ call_state post = initial result /\ call_request post = None)
  /\ (forall e, (json_Marshal body).2 = None -> newRequestErr w "POST" url = Some e ->
     call_err post = Some (ErrWrapped "creating request" e)
     /\ call_state post = initial result /\ call_request post = None)
  /\ (forall e, newRequestErr w "GET" url = Some e ->
     call_err get = Some (ErrWrapped "creating request" e)
     /\ call_state get = initial result /\ call_request get = None)
  /\ (dispatched (call_state post) = 0%nat <-> call_request post = None)
  /\ (dispatched (call_state get) = 0%nat <-> call_request get = None)
  /\ (forall req, call_request post = Some req ->
        req = {| req_Method := "POST"; req_URL := url;
                 req_Body := Some (json_Marshal body).1;
                 req_ContentType := "application/json" |})
  /\ (forall req, call_request get = Some req ->
        req = {| req_Method := "GET"; req_URL := url;
                 req_Body := None; req_ContentType := "" |}).
Proof.
  intros Hpol get post url. subst get post url.
  unfold doGet, doPost.
  destruct (buildURL c (wire_shuffle w) path params) as [reqURL written]. simpl.
  destruct (json_Marshal body) as [jsonBody merr]. simpl.
  split; [|split; [|split; [|split; [|split; [|split]]]]].
  - intros e ->. auto.
  - intros e -> ->. auto.
  - intros e ->. auto.
  - destruct merr as [e|]; [split; reflexivity|].
    destruct (newRequestErr w "POST" reqURL) as [e|]; [split; reflexivity|].
    pose proof (do_dispatches c
                  (envFor w {| req_Method := "POST"; req_URL := reqURL;
                               req_Body := Some jsonBody;
                               req_ContentType := "application/json" |})
                  result Hpol) as Hpos.
    destruct (do' c _ result) as [st err]. simpl in *.
    split; [intros H; lia | discriminate].
  - destruct (newRequestErr w "GET" reqURL) as [e|]; [split; reflexivity|].
    pose proof (do_dispatches c
                  (envFor w {| req_Method := "GET"; req_URL := reqURL;
                               req_Body := None; req_ContentType := "" |})
                  result Hpol) as Hpos.
    destruct (do' c _ result) as [st err]. simpl in *.
    split; [intros H; lia | discriminate].
  - intros req. destruct merr as [e|]; [discriminate|].
    destruct (newRequestErr w "POST" reqURL) as [e|]; [discriminate|].
    destruct (do' c _ result) as [st err]. simpl. intros [= <-]. reflexivity.
  - intros req. destruct (newRequestErr w "GET" reqURL) as [e|]; [discriminate|].
    destruct (do' c _ result) as [st err]. simpl. intros [= <-]. reflexivity.
Qed.

(** X15. [doGet] and [doPost] write to the map the caller passes: after the
    call, whatever its outcome, the caller's map holds the client's
    credential under [apiKey] (in place of anything it held there) and is
    otherwise unchanged; a nil map stays nil.  Passing the written map
    again builds the same URL. *)
Theorem X15_callers_map_is_written (c : Client) (w : Wire) (path : string)
    (m : Values) (body : Body) (result : option Target) :
  let written := <["apiKey" := [apiKey c]]> m in
  call_params (doGet' c w path (Some m) result) = Some written
  /\ call_params (doPost' c w path (Some m) body result) = Some written
  /\ written !! "apiKey" = Some [apiKey c]
  /\ (forall k, k <> "apiKey" -> written !! k = m !! k)
  /\ call_params (doGet' c w path None result) = None
  /\ call_params (doPost' c w path None body result) = None
  /\ (buildURL c (wire_shuffle w) path (Some written)).1
     = (buildURL c (wire_shuffle w) path (Some m)).1.
Proof.
  intros written. subst written.
  assert (Hget : forall p, call_params (doGet' c w path p result)
                           = (fun _ => withKey c p) <$> p).
  { intros p. unfold doGet, buildURL.
    destruct (newRequestErr w "GET" _); [reflexivity|].
    destruct (do' c _ result); reflexivity. }
  assert (Hpost : forall p, call_params (doPost' c w path p body result)
                            = (fun _ => withKey c p) <$> p).
  { intros p. unfold doPost, buildURL.
    destruct (json_Marshal body) as [jsonBody [e|]]; [reflexivity|].
    destruct (newRequestErr w "POST" _); [reflexivity|].
    destruct (do' c _ result); reflexivity. }
  split; [apply Hget|]. split; [apply Hpost|].
  split; [apply lookup_insert_eq|].
  split; [intros k Hk; apply lookup_insert_ne; congruence|].
  split; [apply Hget|]. split; [apply Hpost|].
  unfold buildURL, queryString, withKey, Values_Set. simpl.
  rewrite insert_insert_eq. reflexivity.
Qed.

End CallFacts.

(** ** The requests of the batch builders *)

(** The sorted keys of a map whose keys are known. *)
Lemma sortedKeys_are (shuffle : list string -> list string) (v : Values)
    (ks : list string) :
  (forall l, shuffle l ≡ₚ l) ->
  StronglySorted String.le ks ->
  NoDup ks ->
  (forall k, k ∈ ks <-> is_Some (v !! k)) ->
  merge_sort String.le (rangeKeys shuffle v) = ks.
Proof.
  intros Hperm Hsorted Hnd Hkeys.
  apply (StronglySorted_unique String.le).
  - apply sortedKeys_sorted.
  - exact Hsorted.
  - apply NoDup_Permutation.
    + apply sortedKeys_NoDup. exact Hperm.
    + exact Hnd.
    + intros k. rewrite sortedKeys_elem by exact Hperm. symmetry. apply Hkeys.
Qed.

Lemma sorted_two (a b : string) :
  String.le a b -> StronglySorted String.le [a; b].
Proof. intros H. repeat constructor. exact H. Qed.

Lemma sorted_three (a b c : string) :
  String.le a b -> String.le b c -> String.le a c ->
  StronglySorted String.le [a; b; c].
Proof. intros Hab Hbc Hac. repeat constructor; assumption. Qed.

(** The URL of a request with no parameters of its own. *)
Lemma buildURL_nil_params (c : Client) (shuffle : list string -> list string)
    (path : string) :
  (forall l, shuffle l ≡ₚ l) ->
  (buildURL c shuffle path None).1
  = (baseURL c ++ path ++ "?" ++ "apiKey=" ++ Go.QueryEscape (apiKey c))%string.
Proof.
  intros Hperm. unfold buildURL, queryString, Values_Encode. simpl.
  rewrite sortedPairs_bind.
  rewrite (sortedKeys_are shuffle (withKey c None) ["apiKey"] Hperm).
  - unfold withKey, Values_Set. simpl. unfold pairsOfKey.
    rewrite lookup_insert_eq. reflexivity.
  - repeat constructor.
  - apply (bool_decide_unpack _). vm_compute. exact I.
  - intros k. unfold withKey, Values_Set. simpl.
    rewrite <- elem_of_dom, dom_insert_L. set_solver.
Qed.

Section BatchFacts2.

Variable Target : Type.
Variable unmarshal_errResp : list byte -> errResp * option lib_error.
Variable unmarshal_target : list byte -> Target -> Target * option lib_error.

Local Abbreviation poll := (BatchResultRequest_call unmarshal_errResp unmarshal_target).

(** X16. The request that polls a batch job is a GET of the path of the
    job kind, and its query string is [apiKey], then [format] when a format
    was set, then [id], each value escaped: the job id always goes out, the
    format only when it is not empty.  [GetForwardResult] and
    [GetReverseResult] both take the client of the service, the job id
    given and no format, and differ in the path only; [WithFormat] sets the
    format and nothing else. *)
Theorem X16_poll_request_on_the_wire (s : BatchGeocodingService) (jobID : string)
    (r : BatchResultRequest) (w : Wire) (zero : Target) (req : Request) :
  (forall l, wire_shuffle w l ≡ₚ l) ->
  call_request (poll r w zero) = Some req ->
  req_Method req = "GET"
  /\ req_Body req = None
  /\ req_URL req
     = (baseURL (brr_client r) ++ brr_path r ++ "?"
        ++ Go.join "&"
             ([("apiKey=" ++ Go.QueryEscape (apiKey (brr_client r)))%string]
              ++ (if String.eqb (brr_format r) "" then []
                  else [("format=" ++ Go.QueryEscape (brr_format r))%string])
              ++ [("id=" ++ Go.QueryEscape (brr_jobID r))%string])%list)%string
  /\ GetForwardResult s jobID
     = {| brr_client := bgs_client s; brr_path := "/v1/batch/geocode/search";
          brr_jobID := jobID; brr_format := "" |}
  /\ GetReverseResult s jobID
     = {| brr_client := bgs_client s; brr_path := "/v1/batch/geocode/reverse";
          brr_jobID := jobID; brr_format := "" |}
  /\ (forall v,
        BatchResultRequest_WithFormat v r
        = {| brr_client := brr_client r; brr_path := brr_path r;
             brr_jobID := brr_jobID r; brr_format := v |}).
Proof.
  intros Hperm Hreq.
  assert (Hurl : (buildURL (brr_client r) (wire_shuffle w) (brr_path r)
                    (Some (BatchResultRequest_params r))).1
                 = (baseURL (brr_client r) ++ brr_path r ++ "?"
                    ++ Go.join "&"
                         ([("apiKey=" ++ Go.QueryEscape (apiKey (brr_client r)))%string]
                          ++ (if String.eqb (brr_format r) "" then []
                              else [("format=" ++ Go.QueryEscape (brr_format r))%string])
                          ++ [("id=" ++ Go.QueryEscape (brr_jobID r))%string])%list)%string).
  { unfold buildURL, queryString, Values_Encode. simpl.
    rewrite Values_Encode_join, sortedPairs_bind.
    unfold withKey, BatchResultRequest_params, Values_Set. simpl.
    destruct (String.eqb (brr_format r) "") eqn:Hf; simpl.
    - rewrite (sortedKeys_are (wire_shuffle w) _ ["apiKey"; "id"] Hperm).
      + simpl. unfold pairsOfKey.
        repeat (rewrite lookup_insert_eq || rewrite lookup_insert_ne by discriminate).
        reflexivity.
      + apply sorted_two. vm_compute. exact I.
      + apply (bool_decide_unpack _). vm_compute. exact I.
      + intros k. rewrite <- elem_of_dom, !dom_insert_L. set_solver.
    - rewrite (sortedKeys_are (wire_shuffle w) _ ["apiKey"; "format"; "id"] Hperm).
      + simpl. unfold pairsOfKey.
        repeat (rewrite lookup_insert_eq || rewrite lookup_insert_ne by discriminate).
        reflexivity.
      + apply sorted_three; vm_compute; exact I.
      + apply (bool_decide_unpack _). vm_compute. exact I.
      + intros k. rewrite <- elem_of_dom, !dom_insert_L. set_solver. }
  unfold BatchResultRequest_call, doGet in Hreq.
  destruct (buildURL (brr_client r) (wire_shuffle w) (brr_path r)
              (Some (BatchResultRequest_params r))) as [reqURL written].
  simpl in Hurl. subst reqURL.
  destruct (newRequestErr w "GET" _) as [e|]; [discriminate|].
  destruct (do unmarshal_errResp unmarshal_target _ _ _) as [st err].
  simpl in Hreq. injection Hreq as <-.
  repeat split; reflexivity.
Qed.

End BatchFacts2.

(** X16 on the poll of the test-suite: job [job-123], format [json]. *)
Lemma X16_poll_request_on_the_wire_witness :
  exists req,
    call_request
      (BatchResultRequest_call Fixtures.unmarshal_errResp Fixtures.unmarshal_target
         (BatchResultRequest_WithFormat "json" (GetForwardResult Samples.service "job-123"))
         Samples.wire false)
    = Some req
    /\ req_URL req
       = "https://api.example.com/v1/batch/geocode/search?apiKey=test-key&format=json&id=job-123".
Proof.
  eexists. split; [reflexivity|].
  destruct (X16_poll_request_on_the_wire bool Fixtures.unmarshal_errResp
              Fixtures.unmarshal_target Samples.service "job-123"
              (BatchResultRequest_WithFormat "json" (GetForwardResult Samples.service "job-123"))
              Samples.wire false _ (fun l => reflexivity l) eq_refl)
    as (_ & _ & Hurl & _).
  rewrite Hurl. reflexivity.
Defined.

(** ** The builder of a forward batch job *)

Lemma forward_fields (steps : list forwardStep) :
  forall r0,
    let r := fold_left applyForwardStep steps r0 in
    bfr_client r = bfr_client r0
    /\ bfr_addresses r = bfr_addresses r0
    /\ bfr_locType r
       = fold_left (fun acc s => match s with SetType t => t | _ => acc end) steps
           (bfr_locType r0)
    /\ bfr_lang r
       = fold_left (fun acc s => match s with SetLang v => v | _ => acc end) steps
           (bfr_lang r0)
    /\ bfr_filters r = (bfr_filters r0 ++ filtersGiven steps)%list
    /\ bfr_biases r = (bfr_biases r0 ++ biasesGiven steps)%list.
Proof.
  induction steps as [|s steps IH]; intros r0.
  - simpl. rewrite !app_nil_r. repeat split; reflexivity.
  - simpl. destruct (IH (applyForwardStep r0 s)) as (H1 & H2 & H3 & H4 & H5 & H6).
    rewrite H1, H2, H3, H4, H5, H6.
    unfold filtersGiven, biasesGiven.
    destruct s; simpl; rewrite ?app_assoc; repeat split; reflexivity.
Qed.

Lemma forward_params_lookup (r : BatchForwardRequest) :
  let p := BatchForwardRequest_params r in
  p !! "type" = (if String.eqb (bfr_locType r) "" then None else Some [bfr_locType r])
  /\ p !! "lang" = (if String.eqb (bfr_lang r) "" then None else Some [bfr_lang r])
  /\ p !! "filter"
     = match bfr_filters r with [] => None | fs => Some [Go.join "|" fs] end
  /\ p !! "bias"
     = match bfr_biases r with [] => None | bs => Some [Go.join "|" bs] end
  /\ (forall k, k <> "type" -> k <> "lang" -> k <> "filter" -> k <> "bias" ->
        p !! k = None).
Proof.
  unfold BatchForwardRequest_params, Values_Set.
  destruct (String.eqb (bfr_locType r) ""), (String.eqb (bfr_lang r) ""),
    (bfr_filters r) as [|f fs], (bfr_biases r) as [|b bs]; simpl;
    (split; [|split; [|split; [|split]]]);
    try (intros k Hk1 Hk2 Hk3 Hk4);
    repeat (rewrite lookup_insert_eq || rewrite lookup_insert_ne by congruence
            || rewrite lookup_empty);
    reflexivity.
Qed.

(** X17. However the calls on the builder of a forward job are chained, the
    request sends the type and the language set last (none when empty),
    all filters given, in the order given, joined by a bar, and likewise all
    biases: [WithFilter] and [WithBias] add to what earlier calls gave,
    [WithType] and [WithLang] replace.  No other parameter is sent, and the
    addresses are the ones the builder was created with. *)
Theorem X17_forward_job_parameters (s : BatchGeocodingService)
    (addresses : list string) (steps : list forwardStep) :
  let r := fold_left applyForwardStep steps (SubmitForward s addresses) in
  let p := BatchForwardRequest_params r in
  p !! "type"
  = (if String.eqb (lastTypeSet steps) "" then None else Some [lastTypeSet steps])
  /\ p !! "lang"
     = (if String.eqb (lastLangSet steps) "" then None else Some [lastLangSet steps])
  /\ p !! "filter"
     = match filtersGiven steps with [] => None | fs => Some [Go.join "|" fs] end
  /\ p !! "bias"
     = match biasesGiven steps with [] => None | bs => Some [Go.join "|" bs] end
  /\ (forall k, k <> "type" -> k <> "lang" -> k <> "filter" -> k <> "bias" ->
        p !! k = None)
  /\ bfr_addresses r = addresses
  /\ bfr_client r = bgs_client s.
Proof.
  intros r p.
  destruct (forward_fields steps (SubmitForward s addresses))
    as (H1 & H2 & H3 & H4 & H5 & H6).
  destruct (forward_params_lookup r) as (P1 & P2 & P3 & P4 & P5).
  fold r in H1, H2, H3, H4, H5, H6. fold p in P1, P2, P3, P4, P5.
  simpl in H3, H4, H5, H6.
  rewrite P1, P2, P3, P4, H3, H4, H5, H6.
  repeat split; try reflexivity; assumption.
Qed.

Example forward_job_filters :
  BatchForwardRequest_params
    (fold_left applyForwardStep
       [AddFilter ["countrycode:us"]; SetLang "de"; AddFilter ["countrycode:ca"];
        SetLang "en"]
       (SubmitForward Samples.service ["1313 Broadway, Tacoma, WA"]))
    !! "filter"
  = Some ["countrycode:us|countrycode:ca"].
Proof. reflexivity. Qed.

(** ** [bytes_trimLeft] *)

Lemma bytes_trimLeft_split (data : list byte) :
  exists ws, data = (ws ++ bytes_trimLeft data)%list /\ spaces ws.
Proof.
  induction data as [|b data (ws & IH & Hws)].
  - exists []. split; [reflexivity | constructor].
  - simpl. destruct (is_space b) eqn:Hb.
    + exists (b :: ws). split; [simpl; rewrite <- IH; reflexivity |].
      constructor; assumption.
    + exists []. split; [reflexivity | constructor].
Qed.

Lemma bytes_trimLeft_head (data : list byte) b rest :
  bytes_trimLeft data = b :: rest -> is_space b = false.
Proof.
  induction data as [|b0 data IH]; simpl; [discriminate|].
  destruct (is_space b0) eqn:Hb0; [exact IH|]. intros [= <- _]. exact Hb0.
Qed.

(** X18. [bytes_trimLeft] drops the leading white space and nothing else:
    the input is a run of white space followed by the result, the result
    does not start with white space, and it is the only such split.  The
    result is empty exactly for inputs of white space only, and trimming
    twice changes nothing. *)
Theorem X18_bytes_trimLeft_characterised (data : list byte) :
  (exists ws, data = (ws ++ bytes_trimLeft data)%list /\ spaces ws)
  /\ (forall b rest, bytes_trimLeft data = b :: rest -> is_space b = false)
  /\ (forall ws t,
        data = (ws ++ t)%list -> spaces ws ->
        (forall b rest, t = b :: rest -> is_space b = false) ->
        t = bytes_trimLeft data)
  /\ (bytes_trimLeft data = [] <-> spaces data)
  /\ bytes_trimLeft (bytes_trimLeft data) = bytes_trimLeft data.
Proof.
  split; [apply bytes_trimLeft_split|].
  split; [apply bytes_trimLeft_head|].
  split; [|split].
  - intros ws t -> Hws Ht. destruct t as [|b rest].
    + rewrite app_nil_r. symmetry. apply bytes_trimLeft_spaces. exact Hws.
    + symmetry. apply bytes_trimLeft_first; [exact Hws | exact (Ht b rest eq_refl)].
  - split.
    + intros Hnil. destruct (bytes_trimLeft_split data) as (ws & Heq & Hws).
      rewrite Hnil, app_nil_r in Heq. subst ws. exact Hws.
    + apply bytes_trimLeft_spaces.
  - destruct (bytes_trimLeft data) as [|b rest] eqn:Ht; [reflexivity|].
    simpl. rewrite (bytes_trimLeft_head data b rest Ht). reflexivity.
Qed.

(** ** The requests of the POST builders *)

Lemma StronglySorted_filter_keys (P : string -> Prop) `{!forall k, Decision (P k)}
    (l : list string) :
  StronglySorted String.le l -> StronglySorted String.le (filter P l).
Proof.
  induction 1 as [|k l Hl IH Hk]; [constructor|].
  rewrite filter_cons. destruct (decide (P k)); [|exact IH].
  constructor; [exact IH|].
  rewrite Forall_forall in *. intros x Hx.
  apply list_elem_of_filter in Hx as [_ Hx]. apply Hk. exact Hx.
Qed.

(** The pairs of a map whose keys are among known ones: the keys that are
    absent contribute nothing. *)
Lemma sortedPairs_candidates (shuffle : list string -> list string) (v : Values)
    (cands : list string) :
  (forall l, shuffle l ≡ₚ l) ->
  StronglySorted String.le cands ->
  NoDup cands ->
  (forall k, is_Some (v !! k) -> k ∈ cands) ->
  sortedPairs (rangeKeys shuffle v) v = cands ≫= pairsOfKey v.
Proof.
  intros Hperm Hsorted Hnd Hin.
  rewrite sortedPairs_bind.
  rewrite (sortedKeys_are shuffle v
             (filter (fun k => is_Some (v !! k)) cands) Hperm).
  - clear Hsorted Hnd Hin. induction cands as [|k cands IH]; [reflexivity|].
    rewrite filter_cons, bind_cons. destruct (decide (is_Some (v !! k))) as [Hk|Hk].
    + rewrite bind_cons, IH. reflexivity.
    + rewrite IH. unfold pairsOfKey at 2.
      destruct (v !! k) eqn:E; [exfalso; apply Hk; eauto | reflexivity].
  - apply StronglySorted_filter_keys. exact Hsorted.
  - apply NoDup_filter. exact Hnd.
  - intros k. rewrite list_elem_of_filter. split; [tauto|].
    intros Hk. split; [exact Hk | apply Hin; exact Hk].
Qed.

Lemma pairsOfKey_insert_eq (v : Values) k x :
  pairsOfKey (<[k := [x]]> v) k = [(k, x)].
Proof. unfold pairsOfKey. rewrite lookup_insert_eq. reflexivity. Qed.

Lemma pairsOfKey_insert_ne (v : Values) k k' xs :
  k <> k' -> pairsOfKey (<[k := xs]> v) k' = pairsOfKey v k'.
Proof. intros Hne. unfold pairsOfKey. rewrite lookup_insert_ne by exact Hne. reflexivity. Qed.

Section PostFacts.

Variable Target : Type.
Variable unmarshal_errResp : list byte -> errResp * option lib_error.
Variable unmarshal_target : list byte -> Target -> Target * option lib_error.
Variable marshal_addresses : list string -> list byte * option lib_error.

Local Abbreviation submit :=
  (BatchForwardRequest_call unmarshal_errResp unmarshal_target marshal_addresses).

(** X19. The request that submits a forward job is a POST of
    [/v1/batch/geocode/search] with the JSON content type and the marshalled
    addresses as its body.  Its query string holds, in this order whatever
    the order of the calls on the builder, [apiKey], then [bias], [filter],
    [lang] and [type], each only when it was set. *)
Theorem X19_forward_job_on_the_wire (r : BatchForwardRequest) (w : Wire)
    (zero : Target) (req : Request) :
  (forall l, wire_shuffle w l ≡ₚ l) ->
  call_request (submit r w zero) = Some req ->
  req_Method req = "POST"
  /\ req_ContentType req = "application/json"
  /\ req_Body req = Some (marshal_addresses (bfr_addresses r)).1
  /\ (marshal_addresses (bfr_addresses r)).2 = None
  /\ req_URL req
     = (baseURL (bfr_client r) ++ "/v1/batch/geocode/search" ++ "?"
        ++ Go.join "&"
             (encodePair <$>
                ([("apiKey", apiKey (bfr_client r))]
                 ++ optionalPair "bias" (Go.join "|" (bfr_biases r))
                      (0 <? length (bfr_biases r))%nat
                 ++ optionalPair "filter" (Go.join "|" (bfr_filters r))
                      (0 <? length (bfr_filters r))%nat
                 ++ optionalPair "lang" (bfr_lang r) (negb (String.eqb (bfr_lang r) ""))
                 ++ optionalPair "type" (bfr_locType r)
                      (negb (String.eqb (bfr_locType r) "")))%list))%string.
Proof.
  intros Hperm Hreq.
  assert (Hurl : (buildURL (bfr_client r) (wire_shuffle w) "/v1/batch/geocode/search"
                    (Some (BatchForwardRequest_params r))).1
                 = (baseURL (bfr_client r) ++ "/v1/batch/geocode/search" ++ "?"
                    ++ Go.join "&"
                         (encodePair <$>
                            ([("apiKey", apiKey (bfr_client r))]
                             ++ optionalPair "bias" (Go.join "|" (bfr_biases r))
                                  (0 <? length (bfr_biases r))%nat
                             ++ optionalPair "filter" (Go.join "|" (bfr_filters r))
                                  (0 <? length (bfr_filters r))%nat
                             ++ optionalPair "lang" (bfr_lang r)
                                  (negb (String.eqb (bfr_lang r) ""))
                             ++ optionalPair "type" (bfr_locType r)
                                  (negb (String.eqb (bfr_locType r) "")))%list))%string).
  { unfold buildURL, queryString, Values_Encode. simpl.
    rewrite Values_Encode_join.
    rewrite (sortedPairs_candidates (wire_shuffle w) _
               ["apiKey"; "bias"; "filter"; "lang"; "type"] Hperm).
    - unfold withKey, BatchForwardRequest_params, Values_Set, optionalPair. simpl.
      destruct (negb (String.eqb (bfr_locType r) "")),
        (negb (String.eqb (bfr_lang r) "")),
        (0 <? length (bfr_filters r))%nat, (0 <? length (bfr_biases r))%nat;
        simpl; unfold pairsOfKey;
        repeat (rewrite lookup_insert_eq || rewrite lookup_insert_ne by discriminate
                || rewrite lookup_empty);
        reflexivity.
    - repeat constructor; vm_compute; exact I.
    - apply (bool_decide_unpack _). vm_compute. exact I.
    - intros k Hk. apply list_elem_of_In. simpl.
      destruct (decide (k = "apiKey")) as [->|N1]; [tauto|].
      destruct (decide (k = "bias")) as [->|N2]; [tauto|].
      destruct (decide (k = "filter")) as [->|N3]; [tauto|].
      destruct (decide (k = "lang")) as [->|N4]; [tauto|].
      destruct (decide (k = "type")) as [->|N5]; [tauto|].
      exfalso. revert Hk.
      unfold withKey, BatchForwardRequest_params, Values_Set. simpl.
      destruct (negb (String.eqb (bfr_locType r) "")),
        (negb (String.eqb (bfr_lang r) "")),
        (0 <? length (bfr_filters r))%nat, (0 <? length (bfr_biases r))%nat;
        repeat (rewrite lookup_insert_ne by congruence);
        rewrite lookup_empty; intros [x Hx]; discriminate Hx. }
  unfold BatchForwardRequest_call, doPost in Hreq.
  destruct (buildURL (bfr_client r) (wire_shuffle w) "/v1/batch/geocode/search"
              (Some (BatchForwardRequest_params r))) as [reqURL written].
  simpl in Hurl. subst reqURL.
  destruct (marshal_addresses (bfr_addresses r)) as [jsonBody [e|]]; [discriminate|].
  destruct (newRequestErr w "POST" _) as [e|]; [discriminate|].
  destruct (do unmarshal_errResp unmarshal_target _ _ _) as [st err].
  simpl in Hreq. injection Hreq as <-.
  repeat split; reflexivity.
Qed.

End PostFacts.

(** X19 on a forward job with a language and two filters. *)
Lemma X19_forward_job_on_the_wire_witness :
  exists req,
    call_request
      (BatchForwardRequest_call Fixtures.unmarshal_errResp Fixtures.unmarshal_target
         Samples.marshal_addresses
         (fold_left applyForwardStep
            [AddFilter ["countrycode:us"]; SetLang "en"; AddFilter ["countrycode:ca"]]
            (SubmitForward Samples.service ["1313 Broadway"]))
         Samples.wire false)
    = Some req
    /\ req_URL req
       = "https://api.example.com/v1/batch/geocode/search?apiKey=test-key&filter=countrycode%3Aus%7Ccountrycode%3Aca&lang=en".
Proof.
  eexists. split; [reflexivity|].
  destruct (X19_forward_job_on_the_wire bool Fixtures.unmarshal_errResp
              Fixtures.unmarshal_target Samples.marshal_addresses
              (fold_left applyForwardStep
                 [AddFilter ["countrycode:us"]; SetLang "en"; AddFilter ["countrycode:ca"]]
                 (SubmitForward Samples.service ["1313 Broadway"]))
              Samples.wire false _ (fun l => reflexivity l) eq_refl)
    as (_ & _ & _ & _ & Hurl).
  rewrite Hurl. reflexivity.
Defined.

Section MapMatchingFacts.

Variable Waypoint : Type.
Variable Target : Type.
Variable unmarshal_errResp : list byte -> errResp * option lib_error.
Variable unmarshal_target : list byte -> Target -> Target * option lib_error.
Variable marshal_body : mapMatchingBody Waypoint -> list byte * option lib_error.

Local Abbreviation matching :=
  (MapMatchingRequest_call unmarshal_errResp unmarshal_target marshal_body).

(** X20. The request of a map matching call is a POST of [/v1/mapmatching]
    whose only query parameter is the key of the client: the mode and the
    waypoints of the builder travel in the JSON body, the waypoints being
    those of the last call of [Waypoints]. *)
Theorem X20_map_matching_on_the_wire (r : MapMatchingRequest Waypoint) (w : Wire)
    (zero : Target) (req : Request) :
  (forall l, wire_shuffle w l ≡ₚ l) ->
  call_request (matching r w zero) = Some req ->
  req_Method req = "POST"
  /\ req_ContentType req = "application/json"
  /\ req_URL req
     = (baseURL (mmr_client r) ++ "/v1/mapmatching" ++ "?"
        ++ "apiKey=" ++ Go.QueryEscape (apiKey (mmr_client r)))%string
  /\ req_Body req
     = Some (marshal_body {| mmb_Mode := mmr_mode r;
                             mmb_Waypoints := mmr_waypoints r |}).1
  /\ (forall first second,
        mmr_waypoints
          (MapMatchingRequest_Waypoints second (MapMatchingRequest_Waypoints first r))
        = second).
Proof.
  intros Hperm Hreq.
  pose proof (buildURL_nil_params (mmr_client r) (wire_shuffle w) "/v1/mapmatching" Hperm)
    as Hurl.
  unfold MapMatchingRequest_call, doPost in Hreq.
  destruct (buildURL (mmr_client r) (wire_shuffle w) "/v1/mapmatching" None)
    as [reqURL written].
  simpl in Hurl. subst reqURL.
  destruct (marshal_body _) as [jsonBody [e|]] eqn:Hm; [discriminate|].
  destruct (newRequestErr w "POST" _) as [e|]; [discriminate|].
  destruct (do unmarshal_errResp unmarshal_target _ _ _) as [st err].
  simpl in Hreq. injection Hreq as <-.
  repeat split; reflexivity.
Qed.

End MapMatchingFacts.

(** X20 on a request in drive mode. *)
Lemma X20_map_matching_on_the_wire_witness :
  exists req,
    call_request
      (MapMatchingRequest_call Fixtures.unmarshal_errResp Fixtures.unmarshal_target
         Samples.marshal_mode
         (MapMatchingRequest_WithMode "drive" (Match (Fixtures.client None)))
         Samples.wire false)
    = Some req
    /\ req_URL req = "https://api.example.com/v1/mapmatching?apiKey=test-key".
Proof.
  eexists. split; [reflexivity|].
  destruct (X20_map_matching_on_the_wire string bool Fixtures.unmarshal_errResp
              Fixtures.unmarshal_target Samples.marshal_mode
              (MapMatchingRequest_WithMode "drive" (Match (Fixtures.client None)))
              Samples.wire false _ (fun l => reflexivity l) eq_refl)
    as (_ & _ & Hurl & _).
  rewrite Hurl. reflexivity.
Defined.

(** X14 on a POST whose body cannot be marshalled. *)
Lemma X14_no_dispatch_without_a_request_witness :
  dispatched
    (call_state
       (doPost Fixtures.unmarshal_errResp Fixtures.unmarshal_target
          (fun _ : unit => ([], Some (LibError "unsupported type")))
          (Fixtures.client (Some (Fixtures.policy 3))) Samples.wire
          "/v1/mapmatching" None tt (Some false)))
  = 0%nat.
Proof.
  destruct (X14_no_dispatch_without_a_request bool Fixtures.unmarshal_errResp
              Fixtures.unmarshal_target unit
              (fun _ : unit => ([], Some (LibError "unsupported type")))
              (Fixtures.client (Some (Fixtures.policy 3))) Samples.wire
              "/v1/mapmatching" None tt (Some false)
              ltac:(vm_compute; split; [discriminate | reflexivity]))
    as (_ & _ & _ & Hzero & _).
  apply Hzero. reflexivity.
Defined.

(** ** The request of a retry *)





(** A POST against a transport that sends the whole body: the second
    dispatch carries an empty body. *)
Example requestAt_sample :
  req_Body (requestAt Samples.wire
              {| req_Method := "POST"; req_URL := "u"; req_Body := Some (Fixtures.body_of "[1]");
                 req_ContentType := "application/json" |} 1) = Some [].
Proof. reflexivity. Qed.
